(** * abby2: a dynamic AABB tree (include/abby2.hpp)

    A shallow embedding of the classes [AABB], [Node] and [Tree] of
    [namespace abby2], followed by the properties of the tree that the
    specification states.

    Conventions of the embedding:
    - [unsigned int] is [N] with the 32-bit wrap-around written out
      ([uadd], [usub], [umul]); [int] (the height of a node) is [Z];
      [double] is the primitive IEEE-754 binary64 type [float];
    - [std::vector<T>] is [list T]; [operator[]] outside the vector is
      undefined behaviour in C++ and is the outcome [OutOfBounds] here;
    - [std::unordered_map<unsigned, unsigned>] is [gmap N N];
    - a member function of [Tree] is a state transformer [M A]; its outcome
      is a normal return, a thrown [std::invalid_argument] (the tree as the
      throw left it is part of the outcome), a fault (undefined behaviour or
      a failed [assert]) or an exhausted loop budget;
    - [assert] is compiled in exactly when [NDEBUG] is not defined: the
      embedding is parameterised by the boolean [NDEBUG];
    - a [for] loop over a fixed range is a structural recursion; a [while]
      loop whose trip count depends on the heap takes the budget [fuel]. *)

From Stdlib Require Import ZArith NArith Floats String.
From stdpp Require Import base tactics option list numbers gmap.

Set Default Proof Using "Type".
Local Open Scope N_scope.

(** ** Machine integers and doubles *)

Definition NULL_NODE : N := 0xffffffff.

Definition UINT_MAX : N := 0xffffffff.

Definition uwrap (n : N) : N := n mod 2 ^ 32.

Definition uadd (a b : N) : N := uwrap (a + b).

Definition usub (a b : N) : N := uwrap (a + 2 ^ 32 - uwrap b).

Definition umul (a b : N) : N := uwrap (a * b).

Definition double : Set := float.

(** [std::numeric_limits<double>::max()]. *)
Definition DBL_MAX : double := 0x1.fffffffffffffp+1023%float.

(** [a < b], [a > b], [a <= b], [a >= b] on doubles. *)
Definition dlt (a b : double) : bool := PrimFloat.ltb a b.
Definition dgt (a b : double) : bool := PrimFloat.ltb b a.
Definition dle (a b : double) : bool := PrimFloat.leb a b.
Definition dge (a b : double) : bool := PrimFloat.leb b a.
Definition deq (a b : double) : bool := PrimFloat.eqb a b.

(** [std::min(a, b)] is [(b < a) ? b : a]; [std::max(a, b)] is
    [(a < b) ? b : a]. *)
Definition dmin (a b : double) : double := if dlt b a then b else a.
Definition dmax (a b : double) : double := if dlt a b then b else a.

(** ** Outcomes *)

Inductive exn : Set :=
| invalid_argument (what : string).

Inductive fault : Set :=
| OutOfBounds (index : N)
| AssertionFailed.

(** Computations that do not touch the tree. *)
Inductive check (A : Type) : Type :=
| Good (a : A)
| Raise (e : exn)
| Bad (f : fault).
Arguments Good {A} a.
Arguments Raise {A} e.
Arguments Bad {A} f.

Definition cbind {A B} (c : check A) (k : A → check B) : check B :=
  match c with
  | Good a => k a
  | Raise e => Raise e
  | Bad f => Bad f
  end.

#[global] Instance check_bind : MBind check := λ A B k c, cbind c k.
#[global] Instance check_ret : MRet check := @Good.

(** [v.size()]. *)
Definition vsize {A} (v : list A) : N := N.of_nat (length v).

(** The element at position [i], if [i < v.size()]; it is [v !! N.to_nat i],
    with the comparison done in binary. *)
Definition nth_N {A} (v : list A) (i : N) : option A :=
  if i <? vsize v then v !! N.to_nat i else None.

(** [v[i]] for reading and [v[i] = x] for writing. *)
Definition vget {A} (v : list A) (i : N) : check A :=
  match nth_N v i with
  | Some x => Good x
  | None => Bad (OutOfBounds i)
  end.

Definition vset {A} (v : list A) (i : N) (x : A) : check (list A) :=
  match nth_N v i with
  | Some _ => Good (<[N.to_nat i := x]> v)
  | None => Bad (OutOfBounds i)
  end.

(** [for (unsigned int i = lo; i < hi; i++) acc = body(i, acc);] *)
Fixpoint cfor_from {A} (n : nat) (i : N) (body : N → A → check A) (acc : A)
  : check A :=
  match n with
  | O => Good acc
  | S n' => acc' ← body i acc; cfor_from n' (N.succ i) body acc'
  end.

Definition cfor {A} (lo hi : N) (body : N → A → check A) (acc : A) : check A :=
  cfor_from (N.to_nat (hi - lo)) lo body acc.

(** ** class AABB: data *)

Record AABB : Type := mkAABB {
  lowerBound : list double;
  upperBound : list double;
  centre : list double;
  surfaceArea : double
}.

(** [AABB() = default], value-initialised. *)
Definition AABB_default : AABB :=
  {| lowerBound := []; upperBound := []; centre := []; surfaceArea := 0%float |}.

Definition set_lowerBound (v : list double) (a : AABB) : AABB :=
  {| lowerBound := v; upperBound := upperBound a; centre := centre a;
     surfaceArea := surfaceArea a |}.

Definition set_upperBound (v : list double) (a : AABB) : AABB :=
  {| lowerBound := lowerBound a; upperBound := v; centre := centre a;
     surfaceArea := surfaceArea a |}.

Definition set_centre (v : list double) (a : AABB) : AABB :=
  {| lowerBound := lowerBound a; upperBound := upperBound a; centre := v;
     surfaceArea := surfaceArea a |}.

Definition set_surfaceArea (x : double) (a : AABB) : AABB :=
  {| lowerBound := lowerBound a; upperBound := upperBound a; centre := centre a;
     surfaceArea := x |}.

(** ** struct Node *)

Record Node : Type := mkNode {
  aabb : AABB;
  parent : N;
  next : N;
  left : N;
  right : N;
  height : Z;
  particle : N
}.

(** A value-initialised node, as [std::vector::resize] creates it. *)
Definition Node_default : Node :=
  {| aabb := AABB_default; parent := 0; next := 0; left := 0; right := 0;
     height := 0%Z; particle := 0 |}.

Definition set_aabb (a : AABB) (n : Node) : Node :=
  {| aabb := a; parent := parent n; next := next n; left := left n;
     right := right n; height := height n; particle := particle n |}.

Definition set_parent (i : N) (n : Node) : Node :=
  {| aabb := aabb n; parent := i; next := next n; left := left n;
     right := right n; height := height n; particle := particle n |}.

Definition set_next (i : N) (n : Node) : Node :=
  {| aabb := aabb n; parent := parent n; next := i; left := left n;
     right := right n; height := height n; particle := particle n |}.

Definition set_left (i : N) (n : Node) : Node :=
  {| aabb := aabb n; parent := parent n; next := next n; left := i;
     right := right n; height := height n; particle := particle n |}.

Definition set_right (i : N) (n : Node) : Node :=
  {| aabb := aabb n; parent := parent n; next := next n; left := left n;
     right := i; height := height n; particle := particle n |}.

Definition set_height (h : Z) (n : Node) : Node :=
  {| aabb := aabb n; parent := parent n; next := next n; left := left n;
     right := right n; height := h; particle := particle n |}.

Definition set_particle (p : N) (n : Node) : Node :=
  {| aabb := aabb n; parent := parent n; next := next n; left := left n;
     right := right n; height := height n; particle := p |}.

(** [Node::isLeaf]. *)
Definition isLeaf (n : Node) : bool := left n =? NULL_NODE.

(** ** class Tree: data *)

Record Tree : Type := mkTree {
  root : N;
  nodes : list Node;
  nodeCount : N;
  nodeCapacity : N;
  freeList : N;
  dimension : N;
  skinThickness : double;
  particleMap : gmap N N;
  touchIsOverlap : bool
}.

Definition set_root (r : N) (t : Tree) : Tree :=
  {| root := r; nodes := nodes t; nodeCount := nodeCount t;
     nodeCapacity := nodeCapacity t; freeList := freeList t;
     dimension := dimension t; skinThickness := skinThickness t;
     particleMap := particleMap t; touchIsOverlap := touchIsOverlap t |}.

Definition set_nodes (ns : list Node) (t : Tree) : Tree :=
  {| root := root t; nodes := ns; nodeCount := nodeCount t;
     nodeCapacity := nodeCapacity t; freeList := freeList t;
     dimension := dimension t; skinThickness := skinThickness t;
     particleMap := particleMap t; touchIsOverlap := touchIsOverlap t |}.

Definition set_nodeCount (c : N) (t : Tree) : Tree :=
  {| root := root t; nodes := nodes t; nodeCount := c;
     nodeCapacity := nodeCapacity t; freeList := freeList t;
     dimension := dimension t; skinThickness := skinThickness t;
     particleMap := particleMap t; touchIsOverlap := touchIsOverlap t |}.

Definition set_nodeCapacity (c : N) (t : Tree) : Tree :=
  {| root := root t; nodes := nodes t; nodeCount := nodeCount t;
     nodeCapacity := c; freeList := freeList t;
     dimension := dimension t; skinThickness := skinThickness t;
     particleMap := particleMap t; touchIsOverlap := touchIsOverlap t |}.

Definition set_freeList (f : N) (t : Tree) : Tree :=
  {| root := root t; nodes := nodes t; nodeCount := nodeCount t;
     nodeCapacity := nodeCapacity t; freeList := f;
     dimension := dimension t; skinThickness := skinThickness t;
     particleMap := particleMap t; touchIsOverlap := touchIsOverlap t |}.

Definition set_particleMap (m : gmap N N) (t : Tree) : Tree :=
  {| root := root t; nodes := nodes t; nodeCount := nodeCount t;
     nodeCapacity := nodeCapacity t; freeList := freeList t;
     dimension := dimension t; skinThickness := skinThickness t;
     particleMap := m; touchIsOverlap := touchIsOverlap t |}.

(** ** The monad of the member functions of [Tree] *)

Inductive outcome (A : Type) : Type :=
| Ret (a : A) (t : Tree)
| Throw (e : exn) (t : Tree)
| Fault (f : fault)
| OutOfFuel.
Arguments Ret {A} a t.
Arguments Throw {A} e t.
Arguments Fault {A} f.
Arguments OutOfFuel {A}.

Definition M (A : Type) : Type := Tree → outcome A.

Definition bindM {A B} (m : M A) (k : A → M B) : M B :=
  λ t, match m t with
       | Ret a t' => k a t'
       | Throw e t' => Throw e t'
       | Fault f => Fault f
       | OutOfFuel => OutOfFuel
       end.

#[global] Instance M_bind : MBind M := λ A B k m, bindM m k.
#[global] Instance M_ret : MRet M := λ A a t, Ret a t.

Definition lift {A} (c : check A) : M A :=
  λ t, match c with
       | Good a => Ret a t
       | Raise e => Throw e t
       | Bad f => Fault f
       end.

Definition throw {A} (e : exn) : M A := λ t, Throw e t.

Definition out_of_fuel {A} : M A := λ _, OutOfFuel.

Definition gets {A} (f : Tree → A) : M A := λ t, Ret (f t) t.

Definition modify (f : Tree → Tree) : M unit := λ t, Ret tt (f t).

(** [nodes[i].f] as an rvalue. *)
Definition rd {A} (i : N) (f : Node → A) : M A :=
  λ t, match nth_N (nodes t) i with
       | Some nd => Ret (f nd) t
       | None => Fault (OutOfBounds i)
       end.

(** [nodes[i]] updated in place by [f]. *)
Definition wrc (i : N) (f : Node → check Node) : M unit :=
  λ t, match nth_N (nodes t) i with
       | Some nd =>
         match f nd with
         | Good nd' => Ret tt (set_nodes (<[N.to_nat i := nd']> (nodes t)) t)
         | Raise e => Throw e t
         | Bad g => Fault g
         end
       | None => Fault (OutOfBounds i)
       end.

Definition wr (i : N) (f : Node → Node) : M unit := wrc i (λ nd, Good (f nd)).

(** [for (unsigned int i = lo; i < hi; i++) acc = body(i, acc);] *)
Fixpoint mfor_from {A} (n : nat) (i : N) (body : N → A → M A) (acc : A) : M A :=
  match n with
  | O => mret acc
  | S n' => acc' ← body i acc; mfor_from n' (N.succ i) body acc'
  end.

Definition mfor {A} (lo hi : N) (body : N → A → M A) (acc : A) : M A :=
  mfor_from (N.to_nat (hi - lo)) lo body acc.

Section Build.

(** Whether the translation unit is compiled with [NDEBUG]. *)
Variable NDEBUG : bool.

(** [assert(b)]. *)
Definition cassert (b : bool) : check unit :=
  if NDEBUG then Good tt else if b then Good tt else Bad AssertionFailed.

(** ** class AABB: member functions *)

(** [AABB::computeSurfaceArea]. *)
Definition computeSurfaceArea (this : AABB) : check double :=
  sum ← cfor 0 (vsize (lowerBound this)) (λ d1 sum,
     product ← cfor 0 (vsize (lowerBound this)) (λ d2 product,
       if d1 =? d2 then Good product
       else
         u ← vget (upperBound this) d2;
         l ← vget (lowerBound this) d2;
         let dx := PrimFloat.sub u l in
         Good (PrimFloat.mul product dx)) 1%float;
     Good (PrimFloat.add sum product)) 0%float;
   Good (PrimFloat.mul 2%float sum).

Definition getSurfaceArea (this : AABB) : double := surfaceArea this.

(** [AABB::computeCentre]. *)
Definition computeCentre (this : AABB) : check (list double) :=
  let position := replicate (length (lowerBound this)) 0%float in
  cfor 0 (vsize position) (λ i position,
    l ← vget (lowerBound this) i;
    u ← vget (upperBound this) i;
    vset position i (PrimFloat.mul 0.5%float (PrimFloat.add l u))) position.

(** [AABB::AABB(unsigned int dimension)]. *)
Definition AABB_of_dimension (dimension : N) : check AABB :=
  cassert (2 <=? dimension);;
   Good {| lowerBound := replicate (N.to_nat dimension) 0%float;
           upperBound := replicate (N.to_nat dimension) 0%float;
           centre := []; surfaceArea := 0%float |}.

(** [AABB::AABB(lowerBound_, upperBound_)].  The constructor has no member
    initialiser list: the members [lowerBound] and [upperBound] start empty,
    and the body reads the members, not the arguments. *)
Definition AABB_of_bounds (lowerBound_ upperBound_ : list double) : check AABB :=
  let this := AABB_default in
  if negb (vsize (lowerBound this) =? vsize (upperBound this))
   then Raise (invalid_argument "[ERROR]: Dimensionality mismatch!")
   else
     cfor 0 (vsize (lowerBound this)) (λ i (_ : unit),
       l ← vget (lowerBound this) i;
       u ← vget (upperBound this) i;
       if dgt l u
       then Raise (invalid_argument
                     "[ERROR]: AABB lower bound is greater than the upper bound!")
       else Good tt) tt;;
     sa ← computeSurfaceArea this;
     let this := set_surfaceArea sa this in
     c ← computeCentre this;
     Good (set_centre c this).

(** [this->merge(aabb1, aabb2)]; the result is the new value of [this]. *)
Definition merge (this aabb1 aabb2 : AABB) : check AABB :=
  cassert (vsize (lowerBound aabb1) =? vsize (lowerBound aabb2));;
   cassert (vsize (upperBound aabb1) =? vsize (upperBound aabb2));;
   let n := length (lowerBound aabb1) in
   let this := set_lowerBound (resize n 0%float (lowerBound this)) this in
   let this := set_upperBound (resize n 0%float (upperBound this)) this in
   this ← cfor 0 (vsize (lowerBound this)) (λ i this,
     l1 ← vget (lowerBound aabb1) i;
     l2 ← vget (lowerBound aabb2) i;
     lo ← vset (lowerBound this) i (dmin l1 l2);
     let this := set_lowerBound lo this in
     u1 ← vget (upperBound aabb1) i;
     u2 ← vget (upperBound aabb2) i;
     up ← vset (upperBound this) i (dmax u1 u2);
     Good (set_upperBound up this)) this;
   sa ← computeSurfaceArea this;
   let this := set_surfaceArea sa this in
   c ← computeCentre this;
   Good (set_centre c this).

(** [this->contains(aabb)]. *)
Fixpoint contains_from (this aabb : AABB) (n : nat) (i : N) : check bool :=
  match n with
  | O => Good true
  | S n' =>
    al ← vget (lowerBound aabb) i;
     tl ← vget (lowerBound this) i;
     if dlt al tl then Good false
     else
       au ← vget (upperBound aabb) i;
       tu ← vget (upperBound this) i;
       if dgt au tu then Good false
       else contains_from this aabb n' (N.succ i)
  end.

Definition contains (this aabb : AABB) : check bool :=
  cassert (vsize (lowerBound aabb) =? vsize (lowerBound this));;
   contains_from this aabb (length (lowerBound this)) 0.

(** [this->overlaps(aabb, touchIsOverlap)]; [rv] starts [true] and the loop
    leaves with [rv = false] at the first separating axis. *)
Fixpoint overlaps_from (touch : bool) (this aabb : AABB) (n : nat) (i : N)
  : check bool :=
  match n with
  | O => Good true
  | S n' =>
    au ← vget (upperBound aabb) i;
     tl ← vget (lowerBound this) i;
     if (if touch then dlt au tl else dle au tl) then Good false
     else
       al ← vget (lowerBound aabb) i;
       tu ← vget (upperBound this) i;
       if (if touch then dgt al tu else dge al tu) then Good false
       else overlaps_from touch this aabb n' (N.succ i)
  end.

Definition overlaps (this aabb : AABB) (touchIsOverlap : bool) : check bool :=
  cassert (vsize (lowerBound aabb) =? vsize (lowerBound this));;
   overlaps_from touchIsOverlap this aabb (length (lowerBound this)) 0.

(** [this->setDimension(dimension)]. *)
Definition setDimension (this : AABB) (dimension : N) : check AABB :=
  cassert (2 <=? dimension);;
   let this := set_lowerBound
                 (resize (N.to_nat dimension) 0%float (lowerBound this)) this in
   Good (set_upperBound
           (resize (N.to_nat dimension) 0%float (upperBound this)) this).

(** [assert(b)] inside a member function of [Tree]; the argument is not
    evaluated under [NDEBUG]. *)
Definition massert (b : M bool) : M unit :=
  if NDEBUG then mret tt
  else x ← b; if x : bool then mret tt else lift (Bad AssertionFailed).

(** ** class Tree: the node pool *)

(** Budget of the [while] loops whose trip count depends on the tree. *)
Variable fuel : nat.

(** [Tree::allocateNode]. *)
Definition allocateNode : M N :=
  fl ← gets freeList;
  (if fl =? NULL_NODE then
     massert (nc ← gets nodeCount; cap ← gets nodeCapacity; mret (nc =? cap));;
     modify (λ t, set_nodeCapacity (umul (nodeCapacity t) 2) t);;
     modify (λ t, set_nodes
                    (resize (N.to_nat (nodeCapacity t)) Node_default (nodes t)) t);;
     nc ← gets nodeCount;
     cap ← gets nodeCapacity;
     mfor nc (usub cap 1) (λ i (_ : unit),
       wr i (set_next (uadd i 1));;
       wr i (set_height (-1))) tt;;
     wr (usub cap 1) (set_next NULL_NODE);;
     wr (usub cap 1) (set_height (-1));;
     modify (set_freeList nc)
   else mret tt);;
  node ← gets freeList;
  nx ← rd node next;
  modify (set_freeList nx);;
  wr node (set_parent NULL_NODE);;
  wr node (set_left NULL_NODE);;
  wr node (set_right NULL_NODE);;
  wr node (set_height 0);;
  d ← gets dimension;
  wrc node (λ nd, a ← setDimension (aabb nd) d; Good (set_aabb a nd));;
  modify (λ t, set_nodeCount (uadd (nodeCount t) 1) t);;
  mret node.

(** [Tree::freeNode]. *)
Definition freeNode (node : N) : M unit :=
  massert (cap ← gets nodeCapacity; mret (node <? cap));;
  massert (nc ← gets nodeCount; mret (0 <? nc));;
  fl ← gets freeList;
  wr node (set_next fl);;
  wr node (set_height (-1));;
  modify (set_freeList node);;
  modify (λ t, set_nodeCount (usub (nodeCount t) 1) t).

(** [nodes[index].aabb.merge(nodes[a].aabb, nodes[b].aabb)]. *)
Definition mergeInto (index a b : N) : M unit :=
  x ← rd a aabb;
  y ← rd b aabb;
  wrc index (λ nd, m ← merge (aabb nd) x y; Good (set_aabb m nd)).

(** ** class Tree: rotations *)

(** [Tree::balance]. *)
Definition balance (node : N) : M N :=
  massert (mret (negb (node =? NULL_NODE)));;
  leaf ← rd node isLeaf;
  h ← rd node height;
  if leaf || (h <? 2)%Z then mret node
  else
    left_ ← rd node left;
    right_ ← rd node right;
    massert (cap ← gets nodeCapacity; mret (left_ <? cap));;
    massert (cap ← gets nodeCapacity; mret (right_ <? cap));;
    hr ← rd right_ height;
    hl ← rd left_ height;
    let currentBalance := (hr - hl)%Z in
    if (1 <? currentBalance)%Z then
      (* Rotate right branch up. *)
      rightLeft ← rd right_ left;
      rightRight ← rd right_ right;
      massert (cap ← gets nodeCapacity; mret (rightLeft <? cap));;
      massert (cap ← gets nodeCapacity; mret (rightRight <? cap));;
      (* Swap node and its right-hand child. *)
      wr right_ (set_left node);;
      p ← rd node parent;
      wr right_ (set_parent p);;
      wr node (set_parent right_);;
      (* The node's old parent should now point to its right-hand child. *)
      rp ← rd right_ parent;
      (if negb (rp =? NULL_NODE) then
         rpl ← rd rp left;
         if rpl =? node then wr rp (set_left right_)
         else
           massert (rpr ← rd rp right; mret (rpr =? node));;
           wr rp (set_right right_)
       else modify (set_root right_));;
      (* Rotate. *)
      hrl ← rd rightLeft height;
      hrr ← rd rightRight height;
      (if (hrr <? hrl)%Z then
         wr right_ (set_right rightLeft);;
         wr node (set_right rightRight);;
         wr rightRight (set_parent node);;
         mergeInto node left_ rightRight;;
         mergeInto right_ node rightLeft;;
         h1 ← rd left_ height;
         h2 ← rd rightRight height;
         wr node (set_height (1 + Z.max h1 h2));;
         h1 ← rd node height;
         h2 ← rd rightLeft height;
         wr right_ (set_height (1 + Z.max h1 h2))
       else
         wr right_ (set_right rightRight);;
         wr node (set_right rightLeft);;
         wr rightLeft (set_parent node);;
         mergeInto node left_ rightLeft;;
         mergeInto right_ node rightRight;;
         h1 ← rd left_ height;
         h2 ← rd rightLeft height;
         wr node (set_height (1 + Z.max h1 h2));;
         h1 ← rd node height;
         h2 ← rd rightRight height;
         wr right_ (set_height (1 + Z.max h1 h2)));;
      mret right_
    else if (currentBalance <? -1)%Z then
      (* Rotate left branch up. *)
      leftLeft ← rd left_ left;
      leftRight ← rd left_ right;
      massert (cap ← gets nodeCapacity; mret (leftLeft <? cap));;
      massert (cap ← gets nodeCapacity; mret (leftRight <? cap));;
      (* Swap node and its left-hand child. *)
      wr left_ (set_left node);;
      p ← rd node parent;
      wr left_ (set_parent p);;
      wr node (set_parent left_);;
      (* The node's old parent should now point to its left-hand child. *)
      lp ← rd left_ parent;
      (if negb (lp =? NULL_NODE) then
         lpl ← rd lp left;
         if lpl =? node then wr lp (set_left left_)
         else
           massert (lpr ← rd lp right; mret (lpr =? node));;
           wr lp (set_right left_)
       else modify (set_root left_));;
      (* Rotate. *)
      hll ← rd leftLeft height;
      hlr ← rd leftRight height;
      (if (hlr <? hll)%Z then
         wr left_ (set_right leftLeft);;
         wr node (set_left leftRight);;
         wr leftRight (set_parent node);;
         mergeInto node right_ leftRight;;
         mergeInto left_ node leftLeft;;
         h1 ← rd right_ height;
         h2 ← rd leftRight height;
         wr node (set_height (1 + Z.max h1 h2));;
         h1 ← rd node height;
         h2 ← rd leftLeft height;
         wr left_ (set_height (1 + Z.max h1 h2))
       else
         wr left_ (set_right leftRight);;
         wr node (set_left leftLeft);;
         wr leftLeft (set_parent node);;
         mergeInto node right_ leftLeft;;
         mergeInto left_ node leftRight;;
         h1 ← rd right_ height;
         h2 ← rd leftLeft height;
         wr node (set_height (1 + Z.max h1 h2));;
         h1 ← rd node height;
         h2 ← rd leftRight height;
         wr left_ (set_height (1 + Z.max h1 h2)));;
      mret left_
    else mret node.

(** ** class Tree: insertion and removal of leaves *)

(** The three costs that one iteration of the descent of [insertLeaf]
    computes at the internal node [index]: the cost of creating a new parent
    for this node and the new leaf, and the costs of descending to the left
    and to the right. *)
Definition childCost (leafAABB : AABB) (child : N) (inheritanceCost : double)
  : M double :=
  leaf ← rd child isLeaf;
  if (leaf : bool) then
    ca ← rd child aabb;
    aabb_ ← lift (merge AABB_default leafAABB ca);
    mret (PrimFloat.add (getSurfaceArea aabb_) inheritanceCost)
  else
    ca ← rd child aabb;
    aabb_ ← lift (merge AABB_default leafAABB ca);
    oldArea ← rd child (λ nd, getSurfaceArea (aabb nd));
    let newArea := getSurfaceArea aabb_ in
    mret (PrimFloat.add (PrimFloat.sub newArea oldArea) inheritanceCost).

Definition descentCosts (leafAABB : AABB) (index : N)
  : M (double * double * double) :=
  left_ ← rd index left;
  right_ ← rd index right;
  surfaceArea_ ← rd index (λ nd, getSurfaceArea (aabb nd));
  ia ← rd index aabb;
  combinedAABB ← lift (merge AABB_default ia leafAABB);
  let combinedSurfaceArea := getSurfaceArea combinedAABB in
  let cost := PrimFloat.mul 2%float combinedSurfaceArea in
  let inheritanceCost :=
    PrimFloat.mul 2%float (PrimFloat.sub combinedSurfaceArea surfaceArea_) in
  costLeft ← childCost leafAABB left_ inheritanceCost;
  costRight ← childCost leafAABB right_ inheritanceCost;
  mret (cost, costLeft, costRight).

(** The end of the loop body: [None] is [break], [Some i] is [index = i]. *)
Definition descentChoice (left_ right_ : N) (cost costLeft costRight : double)
  : option N :=
  if dlt cost costLeft && dlt cost costRight then None
  else if dlt costLeft costRight then Some left_ else Some right_.

(** [while (!nodes[index].isLeaf()) { ... }] of [insertLeaf]; the result is
    the sibling. *)
Fixpoint descend (n : nat) (leafAABB : AABB) (index : N) : M N :=
  leaf ← rd index isLeaf;
  if (leaf : bool) then mret index
  else
    match n with
    | O => out_of_fuel
    | S n' =>
      left_ ← rd index left;
      right_ ← rd index right;
      '(cost, costLeft, costRight) ← descentCosts leafAABB index;
      match descentChoice left_ right_ cost costLeft costRight with
      | None => mret index
      | Some index' => descend n' leafAABB index'
      end
    end.

(** [while (index != NULL_NODE) { ... }] of [insertLeaf]. *)
Fixpoint fixAfterInsert (n : nat) (index : N) : M unit :=
  if index =? NULL_NODE then mret tt
  else
    match n with
    | O => out_of_fuel
    | S n' =>
      index ← balance index;
      left_ ← rd index left;
      right_ ← rd index right;
      massert (mret (negb (left_ =? NULL_NODE)));;
      massert (mret (negb (right_ =? NULL_NODE)));;
      hl ← rd left_ height;
      hr ← rd right_ height;
      wr index (set_height (1 + Z.max hl hr));;
      mergeInto index left_ right_;;
      index ← rd index parent;
      fixAfterInsert n' index
    end.

(** [Tree::insertLeaf]. *)
Definition insertLeaf (leaf : N) : M unit :=
  r ← gets root;
  if r =? NULL_NODE then
    modify (set_root leaf);;
    r ← gets root;
    wr r (set_parent NULL_NODE)
  else
    (* Find the best sibling for the node. *)
    leafAABB ← rd leaf aabb;
    index ← gets root;
    sibling ← descend fuel leafAABB index;
    (* Create a new parent. *)
    oldParent ← rd sibling parent;
    newParent ← allocateNode;
    wr newParent (set_parent oldParent);;
    sa ← rd sibling aabb;
    wrc newParent (λ nd, m ← merge (aabb nd) leafAABB sa; Good (set_aabb m nd));;
    sh ← rd sibling height;
    wr newParent (set_height (sh + 1));;
    (if negb (oldParent =? NULL_NODE) then
       (* The sibling was not the root. *)
       opl ← rd oldParent left;
       (if opl =? sibling then wr oldParent (set_left newParent)
        else wr oldParent (set_right newParent));;
       wr newParent (set_left sibling);;
       wr newParent (set_right leaf);;
       wr sibling (set_parent newParent);;
       wr leaf (set_parent newParent)
     else
       (* The sibling was the root. *)
       wr newParent (set_left sibling);;
       wr newParent (set_right leaf);;
       wr sibling (set_parent newParent);;
       wr leaf (set_parent newParent);;
       modify (set_root newParent));;
    (* Walk back up the tree fixing heights and AABBs. *)
    index ← rd leaf parent;
    fixAfterInsert fuel index.

(** [while (index != NULL_NODE) { ... }] of [removeLeaf]. *)
Fixpoint fixAfterRemove (n : nat) (index : N) : M unit :=
  if index =? NULL_NODE then mret tt
  else
    match n with
    | O => out_of_fuel
    | S n' =>
      index ← balance index;
      left_ ← rd index left;
      right_ ← rd index right;
      mergeInto index left_ right_;;
      hl ← rd left_ height;
      hr ← rd right_ height;
      wr index (set_height (1 + Z.max hl hr));;
      index ← rd index parent;
      fixAfterRemove n' index
    end.

(** [Tree::removeLeaf]. *)
Definition removeLeaf (leaf : N) : M unit :=
  r ← gets root;
  if leaf =? r then modify (set_root NULL_NODE)
  else
    parent_ ← rd leaf parent;
    grandParent ← rd parent_ parent;
    pl ← rd parent_ left;
    sibling ← (if pl =? leaf then rd parent_ right else rd parent_ left);
    (* Destroy the parent and connect the sibling to the grandparent. *)
    if negb (grandParent =? NULL_NODE) then
      gl ← rd grandParent left;
      (if gl =? parent_ then wr grandParent (set_left sibling)
       else wr grandParent (set_right sibling));;
      wr sibling (set_parent grandParent);;
      freeNode parent_;;
      (* Adjust ancestor bounds. *)
      fixAfterRemove fuel grandParent
    else
      modify (set_root sibling);;
      wr sibling (set_parent NULL_NODE);;
      freeNode parent_.

(** ** class Tree: construction *)

(** The members as they are when the constructor body starts: the member
    initialiser list has set [dimension], [skinThickness] and
    [touchIsOverlap]; the containers are empty. *)
Definition Tree_members (dimension_ : N) (skinThickness_ : double)
    (touchIsOverlap_ : bool) : Tree :=
  {| root := 0; nodes := []; nodeCount := 0; nodeCapacity := 0; freeList := 0;
     dimension := dimension_; skinThickness := skinThickness_;
     particleMap := ∅; touchIsOverlap := touchIsOverlap_ |}.

(** The body of [Tree::Tree]. *)
Definition Tree_body (nParticles : N) : M unit :=
  d ← gets dimension;
  if d <? 2 then throw (invalid_argument "[ERROR]: Invalid dimensionality!")
  else
    (* Initialise the tree. *)
    modify (set_root NULL_NODE);;
    modify (set_nodeCount 0);;
    modify (set_nodeCapacity nParticles);;
    modify (λ t, set_nodes
                   (resize (N.to_nat (nodeCapacity t)) Node_default (nodes t)) t);;
    (* Build a linked list for the list of free nodes. *)
    cap ← gets nodeCapacity;
    mfor 0 (usub cap 1) (λ i (_ : unit),
      wr i (set_next (uadd i 1));;
      wr i (set_height (-1))) tt;;
    wr (usub cap 1) (set_next NULL_NODE);;
    wr (usub cap 1) (set_height (-1));;
    (* Assign the index of the first free node. *)
    modify (set_freeList 0).

(** [Tree(dimension_, skinThickness_, nParticles, touchIsOverlap)]; the
    defaults of the source are [3], [0.05], [16] and [true]. *)
Definition Tree_new (dimension_ : N) (skinThickness_ : double) (nParticles : N)
    (touchIsOverlap_ : bool) : outcome unit :=
  Tree_body nParticles (Tree_members dimension_ skinThickness_ touchIsOverlap_).

(** ** class Tree: particles *)

(** [nodes[node].aabb.lowerBound[i] = x] and its upper twin. *)
Definition setLower (i : N) (x : double) (nd : Node) : check Node :=
  lo ← vset (lowerBound (aabb nd)) i x;
  Good (set_aabb (set_lowerBound lo (aabb nd)) nd).

Definition setUpper (i : N) (x : double) (nd : Node) : check Node :=
  up ← vset (upperBound (aabb nd)) i x;
  Good (set_aabb (set_upperBound up (aabb nd)) nd).

(** [nodes[node].aabb.surfaceArea = nodes[node].aabb.computeSurfaceArea();
     nodes[node].aabb.centre = nodes[node].aabb.computeCentre();] *)
Definition refreshAABB (node : N) : M unit :=
  wrc node (λ nd, sa ← computeSurfaceArea (aabb nd);
                  Good (set_aabb (set_surfaceArea sa (aabb nd)) nd));;
  wrc node (λ nd, c ← computeCentre (aabb nd);
                  Good (set_aabb (set_centre c (aabb nd)) nd)).

(** [Tree::insertParticle]. *)
Definition insertParticle (particle_ : N) (lowerBound_ upperBound_ : list double)
  : M unit :=
  pm ← gets particleMap;
  (* Make sure the particle doesn't already exist. *)
  if bool_decide (is_Some (pm !! particle_)) then
    throw (invalid_argument "[ERROR]: Particle already exists in tree!")
  else
    d ← gets dimension;
    (* Validate the dimensionality of the bounds vectors. *)
    if negb (vsize lowerBound_ =? d) || negb (vsize upperBound_ =? d) then
      throw (invalid_argument "[ERROR]: Dimensionality mismatch!")
    else
      (* Allocate a new node for the particle. *)
      node ← allocateNode;
      (* AABB size in each dimension. *)
      let size_ := replicate (N.to_nat d) 0%float in
      (* Compute the AABB limits. *)
      size_ ← mfor 0 d (λ i size_,
        l ← lift (vget lowerBound_ i);
        u ← lift (vget upperBound_ i);
        if dgt l u then
          throw (invalid_argument
                   "[ERROR]: AABB lower bound is greater than the upper bound!")
        else
          wrc node (setLower i l);;
          wrc node (setUpper i u);;
          lift (vset size_ i (PrimFloat.sub u l))) size_;
      (* Fatten the AABB. *)
      mfor 0 d (λ i (_ : unit),
        s ← gets skinThickness;
        sz ← lift (vget size_ i);
        wrc node (λ nd, x ← vget (lowerBound (aabb nd)) i;
                        setLower i (PrimFloat.sub x (PrimFloat.mul s sz)) nd);;
        wrc node (λ nd, x ← vget (upperBound (aabb nd)) i;
                        setUpper i (PrimFloat.add x (PrimFloat.mul s sz)) nd)) tt;;
      refreshAABB node;;
      (* Zero the height. *)
      wr node (set_height 0);;
      (* Insert a new leaf into the tree. *)
      insertLeaf node;;
      (* Add the new particle to the map. *)
      modify (λ t, set_particleMap
                     (match particleMap t !! particle_ with
                      | Some _ => particleMap t
                      | None => <[particle_ := node]> (particleMap t)
                      end) t);;
      (* Store the particle index. *)
      wr node (set_particle particle_).

(** [Tree::nParticles]. *)
Definition nParticles : M N :=
  gets (λ t, uwrap (N.of_nat (size (particleMap t)))).

(** The two assertions on a node index taken from the particle map. *)
Definition assertLeafIndex (node : N) : M unit :=
  massert (cap ← gets nodeCapacity; mret (node <? cap));;
  massert (rd node isLeaf).

(** [Tree::removeParticle]. *)
Definition removeParticle (particle_ : N) : M unit :=
  pm ← gets particleMap;
  match pm !! particle_ with
  | None => throw (invalid_argument "[ERROR]: Invalid particle index!")
  | Some node =>
    (* Erase the particle from the map. *)
    modify (λ t, set_particleMap (delete particle_ (particleMap t)) t);;
    assertLeafIndex node;;
    removeLeaf node;;
    freeNode node
  end.

(** The loop of [Tree::removeAll] over the entries of the particle map in
    the order in which the iterator yields them. *)
Fixpoint removeEntries (entries : list (N * N)) : M unit :=
  match entries with
  | [] => mret tt
  | (_, node) :: entries' =>
    assertLeafIndex node;;
    removeLeaf node;;
    freeNode node;;
    removeEntries entries'
  end.

(** [Tree::removeAll].  The iteration order of [std::unordered_map] is
    unspecified; [order] is the order of this traversal, a permutation of
    the entries of the map. *)
Definition removeAll (order : list (N * N)) : M unit :=
  removeEntries order;;
  (* Clear the particle map. *)
  modify (set_particleMap ∅).

(** [Tree::updateParticle]. *)
Definition updateParticle (particle_ : N) (lowerBound_ upperBound_ : list double)
    (alwaysReinsert : bool) : M bool :=
  d ← gets dimension;
  (* Validate the dimensionality of the bounds vectors. *)
  if negb (vsize lowerBound_ =? d) && negb (vsize upperBound_ =? d) then
    throw (invalid_argument "[ERROR]: Dimensionality mismatch!")
  else
    pm ← gets particleMap;
    match pm !! particle_ with
    | None => throw (invalid_argument "[ERROR]: Invalid particle index!")
    | Some node =>
      assertLeafIndex node;;
      (* AABB size in each dimension. *)
      let size_ := replicate (N.to_nat d) 0%float in
      (* Compute the AABB limits. *)
      size_ ← mfor 0 d (λ i size_,
        l ← lift (vget lowerBound_ i);
        u ← lift (vget upperBound_ i);
        if dgt l u then
          throw (invalid_argument
                   "[ERROR]: AABB lower bound is greater than the upper bound!")
        else lift (vset size_ i (PrimFloat.sub u l))) size_;
      (* Create the new AABB. *)
      aabb_ ← lift (AABB_of_bounds lowerBound_ upperBound_);
      (* No need to update if the particle is still within its fattened AABB. *)
      within ← (if negb alwaysReinsert
                then na ← rd node aabb; lift (contains na aabb_)
                else mret false);
      if (within : bool) then mret false
      else
        (* Remove the current leaf. *)
        removeLeaf node;;
        (* Fatten the new AABB. *)
        aabb_ ← mfor 0 d (λ i aabb_,
          s ← gets skinThickness;
          sz ← lift (vget size_ i);
          x ← lift (vget (lowerBound aabb_) i);
          lo ← lift (vset (lowerBound aabb_) i
                       (PrimFloat.sub x (PrimFloat.mul s sz)));
          let aabb_ := set_lowerBound lo aabb_ in
          y ← lift (vget (upperBound aabb_) i);
          up ← lift (vset (upperBound aabb_) i
                       (PrimFloat.add y (PrimFloat.mul s sz)));
          mret (set_upperBound up aabb_)) aabb_;
        (* Assign the new AABB. *)
        wr node (set_aabb aabb_);;
        (* Update the surface area and centroid. *)
        refreshAABB node;;
        (* Insert a new leaf node. *)
        insertLeaf node;;
        mret true
    end.

(** ** class Tree: queries *)

(** The loop of [query(unsigned int, const AABB&)].  The head of [stack] is
    [stack.back()]; [particles] grows at its end. *)
Fixpoint queryLoop (n : nat) (particle_ : N) (aabb_ : AABB)
    (stack particles : list N) : M (list N) :=
  match stack with
  | [] => mret particles
  | node :: stack =>
    match n with
    | O => out_of_fuel
    | S n' =>
      (* Copy the AABB. *)
      nodeAABB ← rd node aabb;
      if node =? NULL_NODE then queryLoop n' particle_ aabb_ stack particles
      else
        touch ← gets touchIsOverlap;
        (* Test for overlap between the AABBs. *)
        ov ← lift (overlaps aabb_ nodeAABB touch);
        if (ov : bool) then
          (* Check that we're at a leaf node. *)
          leaf ← rd node isLeaf;
          if (leaf : bool) then
            (* Can't interact with itself. *)
            p ← rd node particle;
            if negb (p =? particle_)
            then queryLoop n' particle_ aabb_ stack (particles ++ [p])
            else queryLoop n' particle_ aabb_ stack particles
          else
            l ← rd node left;
            r ← rd node right;
            queryLoop n' particle_ aabb_ (r :: l :: stack) particles
        else queryLoop n' particle_ aabb_ stack particles
    end
  end.

(** [Tree::query(unsigned int particle, const AABB& aabb)]. *)
Definition query_particle_aabb (particle_ : N) (aabb_ : AABB) : M (list N) :=
  r ← gets root;
  queryLoop fuel particle_ aabb_ [r] [].

(** [Tree::query(unsigned int particle)]. *)
Definition query_particle (particle_ : N) : M (list N) :=
  pm ← gets particleMap;
  match pm !! particle_ with
  | None => throw (invalid_argument "[ERROR]: Invalid particle index!")
  | Some node =>
    (* Test overlap of particle AABB against all other particles. *)
    a ← rd node aabb;
    query_particle_aabb particle_ a
  end.

(** [Tree::query(const AABB& aabb)]. *)
Definition query_aabb (aabb_ : AABB) : M (list N) :=
  sz ← gets (λ t, size (particleMap t));
  (* Make sure the tree isn't empty. *)
  if Nat.eqb sz 0 then mret []
  else
    (* Test overlap of AABB against all particles. *)
    query_particle_aabb UINT_MAX aabb_.

(** [Tree::getAABB]: [particleMap[particle]] inserts a value-initialised
    entry for a key that is absent. *)
Definition getAABB (particle_ : N) : M AABB :=
  pm ← gets particleMap;
  node ← match pm !! particle_ with
         | Some node => mret node
         | None => modify (set_particleMap (<[particle_ := 0]> pm));; mret 0
         end;
  rd node aabb.

(** [Tree::getHeight]; the [int] height is converted to [unsigned int]. *)
Definition getHeight : M N :=
  r ← gets root;
  if r =? NULL_NODE then mret 0
  else h ← rd r height; mret (Z.to_N (h mod 2 ^ 32)).

(** [Tree::getNodeCount]. *)
Definition getNodeCount : M N := gets nodeCount.

(** ** class Tree: validation *)

(** [Tree::computeHeight(unsigned int node)]. *)
Fixpoint computeHeight_at (n : nat) (node : N) : M N :=
  match n with
  | O => out_of_fuel
  | S n' =>
    massert (cap ← gets nodeCapacity; mret (node <? cap));;
    leaf ← rd node isLeaf;
    if (leaf : bool) then mret 0
    else
      l ← rd node left;
      height1 ← computeHeight_at n' l;
      r ← rd node right;
      height2 ← computeHeight_at n' r;
      mret (uadd 1 (N.max height1 height2))
  end.

(** [Tree::computeHeight()]. *)
Definition computeHeight : M N :=
  r ← gets root;
  computeHeight_at fuel r.

(** [Tree::validateStructure]. *)
Fixpoint validateStructure (n : nat) (node : N) : M unit :=
  match n with
  | O => out_of_fuel
  | S n' =>
    if node =? NULL_NODE then mret tt
    else
      r ← gets root;
      (if node =? r
       then massert (p ← rd node parent; mret (p =? NULL_NODE))
       else mret tt);;
      left_ ← rd node left;
      right_ ← rd node right;
      leaf ← rd node isLeaf;
      if (leaf : bool) then
        massert (mret (left_ =? NULL_NODE));;
        massert (mret (right_ =? NULL_NODE));;
        massert (h ← rd node height; mret (h =? 0)%Z)
      else
        massert (cap ← gets nodeCapacity; mret (left_ <? cap));;
        massert (cap ← gets nodeCapacity; mret (right_ <? cap));;
        massert (p ← rd left_ parent; mret (p =? node));;
        massert (p ← rd right_ parent; mret (p =? node));;
        validateStructure n' left_;;
        validateStructure n' right_
  end.

(** [Tree::validateMetrics]. *)
Fixpoint validateMetrics (n : nat) (node : N) : M unit :=
  match n with
  | O => out_of_fuel
  | S n' =>
    if node =? NULL_NODE then mret tt
    else
      left_ ← rd node left;
      right_ ← rd node right;
      leaf ← rd node isLeaf;
      if (leaf : bool) then
        massert (mret (left_ =? NULL_NODE));;
        massert (mret (right_ =? NULL_NODE));;
        massert (h ← rd node height; mret (h =? 0)%Z)
      else
        massert (cap ← gets nodeCapacity; mret (left_ <? cap));;
        massert (cap ← gets nodeCapacity; mret (right_ <? cap));;
        height1 ← rd left_ height;
        height2 ← rd right_ height;
        let height_ := (1 + Z.max height1 height2)%Z in
        massert (h ← rd node height; mret (h =? height_)%Z);;
        la ← rd left_ aabb;
        ra ← rd right_ aabb;
        aabb_ ← lift (merge AABB_default la ra);
        d ← gets dimension;
        mfor 0 d (λ i (_ : unit),
          massert (na ← rd node aabb;
                   x ← lift (vget (lowerBound aabb_) i);
                   y ← lift (vget (lowerBound na) i);
                   mret (deq x y));;
          massert (na ← rd node aabb;
                   x ← lift (vget (upperBound aabb_) i);
                   y ← lift (vget (upperBound na) i);
                   mret (deq x y))) tt;;
        validateMetrics n' left_;;
        validateMetrics n' right_
  end.

(** [while (freeIndex != NULL_NODE) { ... }] of [validate]. *)
Fixpoint countFree (n : nat) (freeIndex freeCount : N) : M N :=
  if freeIndex =? NULL_NODE then mret freeCount
  else
    match n with
    | O => out_of_fuel
    | S n' =>
      massert (cap ← gets nodeCapacity; mret (freeIndex <? cap));;
      freeIndex ← rd freeIndex next;
      countFree n' freeIndex (uadd freeCount 1)
    end.

(** [Tree::validate]; its body is compiled only without [NDEBUG]. *)
Definition validate : M unit :=
  if NDEBUG then mret tt
  else
    r ← gets root;
    validateStructure fuel r;;
    validateMetrics fuel r;;
    fl ← gets freeList;
    freeCount ← countFree fuel fl 0;
    massert (h ← getHeight; c ← computeHeight; mret (h =? c));;
    massert (nc ← gets nodeCount; cap ← gets nodeCapacity;
             mret (uadd nc freeCount =? cap)).

(** ** class Tree: rebuild *)

(** The conversion of an [unsigned int] to [int]. *)
Definition int_of_uint (i : N) : Z :=
  if i <? 2 ^ 31 then Z.of_N i else (Z.of_N i - 2 ^ 32)%Z.

(** The search of [rebuild] for the pair of working nodes whose merged AABB
    has the least surface area; [iMin] and [jMin] are [int]. *)
Definition minimalPair (nodeIndices : list N) (count : N) : M (Z * Z) :=
  '(iMin, jMin, _) ← mfor 0 count (λ i acc,
    ni ← lift (vget nodeIndices i);
    aabbi ← rd ni aabb;
    mfor (uadd i 1) count (λ j '(iMin, jMin, minCost),
      nj ← lift (vget nodeIndices j);
      aabbj ← rd nj aabb;
      aabb_ ← lift (merge AABB_default aabbi aabbj);
      let cost := getSurfaceArea aabb_ in
      if dlt cost minCost then mret (int_of_uint i, int_of_uint j, cost)
      else mret (iMin, jMin, minCost)) acc) ((-1)%Z, (-1)%Z, DBL_MAX);
  mret (iMin, jMin).

(** An [int] used as an index of a [std::vector] is converted to [size_t]. *)
Definition index_of_int (i : Z) : N := Z.to_N (i mod 2 ^ 64).

(** [while (count > 1) { ... }] of [rebuild]; [count] decreases by one in
    each iteration, so [n = count] iterations are enough. *)
Fixpoint rebuildLoop (n : nat) (nodeIndices : list N) (count : N)
  : M (list N) :=
  if negb (1 <? count) then mret nodeIndices
  else
    match n with
    | O => out_of_fuel
    | S n' =>
      '(iMin, jMin) ← minimalPair nodeIndices count;
      index1 ← lift (vget nodeIndices (index_of_int iMin));
      index2 ← lift (vget nodeIndices (index_of_int jMin));
      parent_ ← allocateNode;
      wr parent_ (set_left index1);;
      wr parent_ (set_right index2);;
      h1 ← rd index1 height;
      h2 ← rd index2 height;
      wr parent_ (set_height (1 + Z.max h1 h2));;
      mergeInto parent_ index1 index2;;
      wr parent_ (set_parent NULL_NODE);;
      wr index1 (set_parent parent_);;
      wr index2 (set_parent parent_);;
      last ← lift (vget nodeIndices (usub count 1));
      nodeIndices ← lift (vset nodeIndices (index_of_int jMin) last);
      nodeIndices ← lift (vset nodeIndices (index_of_int iMin) parent_);
      rebuildLoop n' nodeIndices (usub count 1)
    end.

(** [Tree::rebuild]. *)
Definition rebuild : M unit :=
  nc ← gets nodeCount;
  let nodeIndices := replicate (N.to_nat nc) 0 in
  cap ← gets nodeCapacity;
  '(nodeIndices, count) ← mfor 0 cap (λ i '(nodeIndices, count),
    h ← rd i height;
    (* Free node. *)
    if (h <? 0)%Z then mret (nodeIndices, count)
    else
      leaf ← rd i isLeaf;
      if (leaf : bool) then
        wr i (set_parent NULL_NODE);;
        nodeIndices ← lift (vset nodeIndices count i);
        mret (nodeIndices, uadd count 1)
      else
        freeNode i;;
        mret (nodeIndices, count)) (nodeIndices, 0);
  nodeIndices ← rebuildLoop (N.to_nat count) nodeIndices count;
  r ← lift (vget nodeIndices 0);
  modify (set_root r);;
  validate.

(** * Properties *)

(** ** Reasoning about outcomes *)

Lemma nth_N_lookup {A} (v : list A) (i : N) : nth_N v i = v !! N.to_nat i.
Proof.
  unfold nth_N, vsize. destruct (N.ltb_spec i (N.of_nat (length v))) as [Hlt|Hge].
  - reflexivity.
  - symmetry. apply lookup_ge_None. lia.
Qed.

Lemma nth_N_Some {A} (v : list A) (i : N) (x : A) :
  nth_N v i = Some x → i < vsize v.
Proof.
  rewrite nth_N_lookup. intros H%lookup_lt_Some. unfold vsize. lia.
Qed.

Lemma bind_Ret {A B} (m : M A) (k : A → M B) (t t' : Tree) (b : B) :
  (m ≫= k) t = Ret b t' → ∃ a t1, m t = Ret a t1 ∧ k a t1 = Ret b t'.
Proof.
  unfold mbind, M_bind, bindM. destruct (m t) as [a t1| | |]; try discriminate.
  eauto.
Qed.

Lemma mret_Ret {A} (a b : A) (t t' : Tree) :
  (mret a : M A) t = Ret b t' → b = a ∧ t' = t.
Proof. unfold mret, M_ret. intros [= -> ->]. auto. Qed.

Lemma gets_Ret {A} (f : Tree → A) (t t' : Tree) (a : A) :
  gets f t = Ret a t' → a = f t ∧ t' = t.
Proof. unfold gets. intros [= <- <-]. auto. Qed.

Lemma modify_Ret (f : Tree → Tree) (t t' : Tree) (u : unit) :
  modify f t = Ret u t' → t' = f t.
Proof. unfold modify. intros [= <-]. auto. Qed.

Lemma lift_Ret {A} (c : check A) (t t' : Tree) (a : A) :
  lift c t = Ret a t' → c = Good a ∧ t' = t.
Proof. unfold lift. destruct c; intros [= <- <-]; auto. Qed.

Lemma rd_Ret {A} (i : N) (f : Node → A) (t t' : Tree) (a : A) :
  rd i f t = Ret a t' →
  ∃ nd, nodes t !! N.to_nat i = Some nd ∧ a = f nd ∧ t' = t.
Proof.
  unfold rd. rewrite nth_N_lookup.
  destruct (nodes t !! N.to_nat i) as [nd|]; intros [= <- <-]. eauto.
Qed.

Lemma wrc_Ret (i : N) (f : Node → check Node) (t t' : Tree) (u : unit) :
  wrc i f t = Ret u t' →
  ∃ nd nd', nodes t !! N.to_nat i = Some nd ∧ f nd = Good nd' ∧
            t' = set_nodes (<[N.to_nat i := nd']> (nodes t)) t.
Proof.
  unfold wrc. rewrite nth_N_lookup.
  destruct (nodes t !! N.to_nat i) as [nd|]; [|discriminate].
  destruct (f nd) as [nd'| |] eqn:Hf; intros [= <-]. eauto.
Qed.

Lemma insert_as_alter {A} (f : A → A) (l : list A) (i : nat) (x : A) :
  l !! i = Some x → <[i := f x]> l = alter f i l.
Proof.
  revert i. induction l as [|y l IH]; intros [|i] H; simplify_eq/=; auto.
  f_equal. auto.
Qed.

Lemma wr_Ret (i : N) (f : Node → Node) (t t' : Tree) (u : unit) :
  wr i f t = Ret u t' →
  ∃ nd, nodes t !! N.to_nat i = Some nd ∧
        t' = set_nodes (alter f (N.to_nat i) (nodes t)) t.
Proof.
  intros (nd & nd' & Hnd & [= <-] & ->)%wrc_Ret. exists nd. split; [done|].
  by rewrite (insert_as_alter f _ _ nd).
Qed.

(** Computations that leave the tree as it is whenever they return. *)
Definition readonly {A} (m : M A) : Prop :=
  ∀ t a t', m t = Ret a t' → t' = t.

Lemma readonly_bind {A B} (m : M A) (k : A → M B) :
  readonly m → (∀ a, readonly (k a)) → readonly (m ≫= k).
Proof.
  intros Hm Hk t b t' (a & t1 & H1 & H2)%bind_Ret.
  apply Hm in H1 as ->. by apply Hk in H2.
Qed.

Lemma readonly_mret {A} (a : A) : readonly (mret a : M A).
Proof. by intros t b t' [_ ->]%mret_Ret. Qed.

Lemma readonly_gets {A} (f : Tree → A) : readonly (gets f).
Proof. by intros t b t' [_ ->]%gets_Ret. Qed.

Lemma readonly_lift {A} (c : check A) : readonly (lift c).
Proof. by intros t b t' [_ ->]%lift_Ret. Qed.

Lemma readonly_rd {A} (i : N) (f : Node → A) : readonly (rd i f).
Proof. by intros t b t' (nd & _ & _ & ->)%rd_Ret. Qed.

Lemma readonly_throw {A} (e : exn) : readonly (throw e : M A).
Proof. intros t b t'. discriminate. Qed.

Lemma readonly_out_of_fuel {A} : readonly (out_of_fuel : M A).
Proof. intros t b t'. discriminate. Qed.

Lemma readonly_massert (b : M bool) : readonly b → readonly (massert b).
Proof.
  intros Hb. unfold massert. destruct NDEBUG; [apply readonly_mret|].
  apply readonly_bind; [done|]. intros [|]; [apply readonly_mret|apply readonly_lift].
Qed.

Lemma readonly_mfor_from {A} (body : N → A → M A) :
  (∀ i acc, readonly (body i acc)) →
  ∀ n i acc, readonly (mfor_from n i body acc).
Proof.
  intros Hbody. induction n as [|n IH]; intros i acc; simpl.
  - apply readonly_mret.
  - apply readonly_bind; auto.
Qed.

Lemma readonly_mfor {A} (body : N → A → M A) (lo hi : N) (acc : A) :
  (∀ i acc, readonly (body i acc)) → readonly (mfor lo hi body acc).
Proof. intros. by apply readonly_mfor_from. Qed.

Create HintDb readonly discriminated.
#[local] Hint Resolve readonly_mret readonly_gets readonly_lift readonly_rd
  readonly_throw readonly_out_of_fuel readonly_massert readonly_mfor : readonly.

(** Solves [readonly m] for straight-line code over reads. *)
Ltac solve_readonly :=
  repeat first
    [ progress eauto 2 with readonly
    | apply readonly_bind; [|intros ?]
    | apply readonly_massert
    | apply readonly_mfor; intros ? ?
    | match goal with
      | |- readonly (if ?b then _ else _) => destruct b
      | |- readonly (match ?x with _ => _ end) => destruct x
      | |- readonly (let '(_, _) := ?x in _) => destruct x
      end ].

Lemma massert_Ret (b : M bool) (t t' : Tree) (u : unit) :
  readonly b → massert b t = Ret u t' → t' = t.
Proof. intros Hb H. by apply (readonly_massert b Hb) in H. Qed.

Lemma cbind_Good {A B} (c : check A) (k : A → check B) (b : B) :
  c ≫= k = Good b → ∃ a, c = Good a ∧ k a = Good b.
Proof. destruct c as [a| |]; try discriminate. eauto. Qed.

(** Updates of a node that change nothing but its box. *)
Definition aabb_only (f : Node → check Node) : Prop :=
  ∀ nd nd', f nd = Good nd' → ∃ a, nd' = set_aabb a nd.

Lemma aabb_only_bind {A} (c : Node → check A) (g : A → Node → AABB) :
  aabb_only (λ nd, a ← c nd; Good (set_aabb (g a nd) nd)).
Proof.
  intros nd nd' (a & _ & [= <-])%cbind_Good. eauto.
Qed.

Lemma wrc_aabb_Ret (i : N) (f : Node → check Node) (t t' : Tree) (u : unit) :
  aabb_only f →
  wrc i f t = Ret u t' →
  ∃ nd a, nodes t !! N.to_nat i = Some nd ∧
          t' = set_nodes (alter (set_aabb a) (N.to_nat i) (nodes t)) t.
Proof.
  intros Hf (nd & nd' & Hnd & Hg & ->)%wrc_Ret.
  apply Hf in Hg as [a ->]. exists nd, a. split; [done|].
  by rewrite (insert_as_alter (set_aabb a) _ _ nd).
Qed.

Lemma aabb_only_setLower (i : N) (x : double) : aabb_only (setLower i x).
Proof. apply (aabb_only_bind _ (λ lo nd, set_lowerBound lo (aabb nd))). Qed.

Lemma aabb_only_setUpper (i : N) (x : double) : aabb_only (setUpper i x).
Proof. apply (aabb_only_bind _ (λ up nd, set_upperBound up (aabb nd))). Qed.

Lemma aabb_only_bind_setLower {A} (c : Node → check A) (i : N)
    (g : A → double) :
  aabb_only (λ nd, a ← c nd; setLower i (g a) nd).
Proof.
  intros nd nd' (a & _ & H)%cbind_Good. by apply aabb_only_setLower in H.
Qed.

Lemma aabb_only_bind_setUpper {A} (c : Node → check A) (i : N)
    (g : A → double) :
  aabb_only (λ nd, a ← c nd; setUpper i (g a) nd).
Proof.
  intros nd nd' (a & _ & H)%cbind_Good. by apply aabb_only_setUpper in H.
Qed.

(** Solves [aabb_only f] for the updates that the tree makes. *)
Ltac solve_aabb_only :=
  first
    [ apply aabb_only_setLower
    | apply aabb_only_setUpper
    | apply aabb_only_bind_setLower
    | apply aabb_only_bind_setUpper
    | apply (aabb_only_bind _ (λ a _, a))
    | apply (aabb_only_bind _ (λ a nd, set_surfaceArea a (aabb nd)))
    | apply (aabb_only_bind _ (λ a nd, set_centre a (aabb nd))) ].

Lemma alter_out_of_range {A} (f : A → A) (l : list A) (i : nat) :
  (length l ≤ i)%nat → alter f i l = l.
Proof.
  intros Hge. apply list_eq. intros j. destruct (decide (i = j)) as [->|Hne].
  - by rewrite list_lookup_alter_eq, (lookup_ge_None_2 l j).
  - by rewrite list_lookup_alter_ne.
Qed.

(** The child link of a parent, moved from [node] to [new]. *)
Definition relink (node new : N) (nd : Node) : Node :=
  if left nd =? node then set_left new nd else set_right new nd.

(** The fragment of [balance] that makes the old parent of [node], or the
    root, point to the child that was rotated up. *)
Lemma relink_Ret (rp node new : N) (t t' : Tree) :
  N.of_nat (length (nodes t)) ≤ NULL_NODE →
  (if negb (rp =? NULL_NODE) then
     rpl ← rd rp left;
     if rpl =? node then wr rp (set_left new)
     else
       massert (rpr ← rd rp right; mret (rpr =? node));;
       wr rp (set_right new)
   else modify (set_root new)) t = Ret tt t' →
  t' = set_root (if rp =? NULL_NODE then new else root t)
         (set_nodes (alter (relink node new) (N.to_nat rp) (nodes t)) t) ∧
  (rp ≠ NULL_NODE → is_Some (nodes t !! N.to_nat rp)).
Proof.
  intros Hlen H. destruct (N.eqb_spec rp NULL_NODE) as [->|Hne]; simpl in H.
  - apply modify_Ret in H as ->. split; [|done].
    rewrite alter_out_of_range by lia. by destruct t.
  - apply bind_Ret in H as (rpl & t1 & (nd & Hnd & -> & ->)%rd_Ret & H).
    assert (alter (relink node new) (N.to_nat rp) (nodes t)
            = alter (if left nd =? node then set_left new else set_right new)
                (N.to_nat rp) (nodes t)) as ->.
    { apply list_eq. intros i. destruct (decide (i = N.to_nat rp)) as [->|Hi].
      - rewrite !list_lookup_alter_eq, Hnd. simpl. unfold relink.
        by destruct (left nd =? node).
      - by rewrite !list_lookup_alter_ne. }
    destruct (left nd =? node).
    + apply wr_Ret in H as (? & _ & ->). split; [by destruct t|eauto].
    + apply bind_Ret in H as ([] & t1 & Ha & H).
      apply massert_Ret in Ha as ->; [|solve_readonly].
      apply wr_Ret in H as (? & _ & ->). split; [by destruct t|eauto].
Qed.

(** The fragment of [insertLeaf] and of [removeLeaf] that moves the child
    link of the node [g] from [node] to [new]. *)
Lemma relink_if_Ret (g node new : N) (nd : Node) (t t' : Tree) :
  nodes t !! N.to_nat g = Some nd →
  (if left nd =? node then wr g (set_left new) else wr g (set_right new)) t
  = Ret tt t' →
  t' = set_nodes (alter (relink node new) (N.to_nat g) (nodes t)) t.
Proof.
  intros Hnd H.
  assert (alter (relink node new) (N.to_nat g) (nodes t)
          = alter (if left nd =? node then set_left new else set_right new)
              (N.to_nat g) (nodes t)) as ->.
  { apply list_eq. intros i. destruct (decide (i = N.to_nat g)) as [->|Hi].
    - rewrite !list_lookup_alter_eq, Hnd. simpl. unfold relink.
      by destruct (left nd =? node).
    - by rewrite !list_lookup_alter_ne. }
  destruct (left nd =? node); by apply wr_Ret in H as (? & _ & ->).
Qed.

(** Reduces the projections of a tree that setters have updated. *)
Ltac tsimpl :=
  cbv beta delta [set_root set_nodes set_nodeCount set_nodeCapacity
                  set_freeList set_particleMap] in *;
  cbn [root nodes nodeCount nodeCapacity freeList dimension skinThickness
       particleMap touchIsOverlap] in *.

(** Inverts a hypothesis [m t = Ret a t'] along the structure of [m];
    [minv_frag] inverts the fragments that have a lemma of their own. *)
Ltac minv_frag H := fail.

Ltac minv_step H :=
  first
  [ minv_frag H
  | lazymatch type of H with
    | (_ ≫= _) _ = Ret _ _ =>
      let a := fresh "a" in let t1 := fresh "t" in let Hm := fresh "Hm" in
      apply bind_Ret in H as (a & t1 & Hm & H); cbv beta in H;
      try (lazymatch type of a with unit => destruct a end);
      repeat minv_step Hm
    | mret _ _ = Ret _ _ => apply mret_Ret in H as [? ?]; subst; tsimpl
    | gets _ _ = Ret _ _ => apply gets_Ret in H as [? ?]; subst; tsimpl
    | modify _ _ = Ret _ _ => apply modify_Ret in H; subst; tsimpl
    | lift _ _ = Ret _ _ => apply lift_Ret in H as [H ?]; subst; tsimpl
    | rd _ _ _ = Ret _ _ =>
      let nd := fresh "nd" in
      apply rd_Ret in H as (nd & H & ? & ?); subst; tsimpl
    | wr _ _ _ = Ret _ _ =>
      let nd := fresh "nd" in
      apply wr_Ret in H as (nd & H & ?); subst; tsimpl
    | wrc _ _ _ = Ret _ _ =>
      let nd := fresh "nd" in let a := fresh "box" in
      apply wrc_aabb_Ret in H as (nd & a & H & ?); [subst; tsimpl|solve_aabb_only]
    | mergeInto _ _ _ _ = Ret _ _ => unfold mergeInto in H
    | refreshAABB _ _ = Ret _ _ => unfold refreshAABB in H
    | massert _ _ = Ret _ _ =>
      apply massert_Ret in H; [subst; tsimpl|solve_readonly]
    | throw _ _ = Ret _ _ => discriminate H
    | out_of_fuel _ = Ret _ _ => discriminate H
    | (if negb (_ =? NULL_NODE) then _ else modify _) _ = Ret _ _ =>
      apply relink_Ret in H as [? H];
      [subst; tsimpl|cbn [nodes]; rewrite ?length_alter; assumption]
    | (if left ?nd =? ?p then wr ?g (set_left ?s) else wr ?g (set_right _)) ?t
      = Ret _ ?t' =>
      match goal with
      | Hn : _ !! N.to_nat g = Some nd |- _ =>
        apply (relink_if_Ret g p s nd t t' Hn) in H; subst; tsimpl
      end
    | (if ?b then _ else _) _ = Ret _ _ => destruct b eqn:?
    | (let '(_, _) := ?x in _) _ = Ret _ _ => destruct x
    | _ => fail
    end ].

Ltac minv H := repeat minv_step H.

(** ** The constructor of an AABB from explicit bounds *)

(** C5 (as the code has it).  [AABB(lowerBound_, upperBound_)] never fails:
    whatever the two vectors are, inverted or of different lengths, the
    constructor returns, and the box it returns has no bounds at all. *)
Theorem AABB_of_bounds_never_fails (lowerBound_ upperBound_ : list double) :
  AABB_of_bounds lowerBound_ upperBound_ = Good AABB_default.
Proof. reflexivity. Qed.

(** ** getAABB *)

(** C2 (as the code has it).  For a particle that is not in the map,
    [getAABB] reports nothing: it adds the entry [particle ↦ 0] to the map
    and returns the box of node 0. *)
Theorem getAABB_unknown_particle (t : Tree) (particle_ : N) (nd : Node) :
  particleMap t !! particle_ = None →
  nodes t !! 0%nat = Some nd →
  getAABB particle_ t
  = Ret (aabb nd) (set_particleMap (<[particle_ := 0]> (particleMap t)) t).
Proof.
  intros Hp Hnd. unfold getAABB, mbind, M_bind, bindM, gets. rewrite Hp.
  unfold modify, mret, M_ret, rd. rewrite nth_N_lookup.
  change (nodes (set_particleMap _ t) !! N.to_nat 0) with (nodes t !! 0%nat).
  by rewrite Hnd.
Qed.

(** ** Queries *)

Lemma queryLoop_excludes (particle_ : N) (aabb_ : AABB) :
  ∀ (n : nat) (stack particles : list N) (t t' : Tree) (found : list N),
    queryLoop n particle_ aabb_ stack particles t = Ret found t' →
    particle_ ∉ particles → particle_ ∉ found.
Proof.
  induction n as [|n IH]; intros stack particles t t' found H Hnot;
    destruct stack as [|node stack]; simpl in H.
  - by apply mret_Ret in H as [-> _].
  - discriminate.
  - by apply mret_Ret in H as [-> _].
  - minv H; (eapply IH; [exact H|]); try done.
    rewrite elem_of_app, list_elem_of_singleton. intros [?|Heq]; [done|].
    match goal with
    | Hb : negb (_ =? _) = true |- _ =>
      apply negb_true_iff, N.eqb_neq in Hb; by apply Hb
    end.
Qed.

(** C9.  On a tree whose particle map is not empty, [query(aabb)] is
    [query(0xffffffff, aabb)], and the identifier 4294967295 is never among
    the particles that [query(aabb)] returns. *)
Theorem query_aabb_excludes_UINT_MAX (t : Tree) (aabb_ : AABB) :
  size (particleMap t) ≠ 0%nat →
  query_aabb aabb_ t = query_particle_aabb 4294967295 aabb_ t ∧
  ∀ found t', query_aabb aabb_ t = Ret found t' → 4294967295 ∉ found.
Proof.
  intros Hne.
  assert (query_aabb aabb_ t = query_particle_aabb 4294967295 aabb_ t) as Heq.
  { unfold query_aabb, mbind, M_bind, bindM, gets.
    destruct (Nat.eqb_spec (size (particleMap t)) 0); [done|reflexivity]. }
  split; [done|]. rewrite Heq. intros found t' H.
  unfold query_particle_aabb in H. minv H.
  eapply queryLoop_excludes; [done|]. apply not_elem_of_nil.
Qed.

(** C10.  The loop of [query(particle, aabb)] indexes the pool with the
    index it pops before it compares that index with [NULL_NODE]: an index
    outside the pool is a fault whatever it is; and on an empty tree, whose
    root is [NULL_NODE], the call indexes the pool at 0xffffffff, which is
    outside a pool of [nodeCapacity] nodes. *)
Theorem query_indexes_before_null_check (t : Tree) (particle_ : N) (aabb_ : AABB) :
  vsize (nodes t) = nodeCapacity t →
  nodeCapacity t ≤ UINT_MAX →
  fuel ≠ 0%nat →
  (∀ n node stack particles,
     nodes t !! N.to_nat node = None →
     queryLoop (S n) particle_ aabb_ (node :: stack) particles t
     = Fault (OutOfBounds node)) ∧
  (root t = NULL_NODE →
   nodeCapacity t ≤ NULL_NODE ∧
   query_particle_aabb particle_ aabb_ t = Fault (OutOfBounds 0xffffffff)).
Proof.
  intros Hsize Hcap Hfuel.
  assert (∀ n node stack particles,
            nodes t !! N.to_nat node = None →
            queryLoop (S n) particle_ aabb_ (node :: stack) particles t
            = Fault (OutOfBounds node)) as Hloop.
  { intros n node stack particles Hnone. simpl.
    unfold mbind, M_bind, bindM, rd. by rewrite nth_N_lookup, Hnone. }
  split; [done|]. intros Hroot. split; [done|].
  unfold query_particle_aabb, mbind at 1, M_bind, bindM, gets. rewrite Hroot.
  destruct fuel as [|n]; [done|]. apply Hloop.
  apply lookup_ge_None. unfold vsize, NULL_NODE, UINT_MAX in *. lia.
Qed.

(** ** The descent of insertLeaf *)

Lemma deq_not_dlt (a b : double) : deq a b = true → dlt a b = false.
Proof.
  unfold deq, dlt. rewrite FloatAxioms.eqb_spec, FloatAxioms.ltb_spec.
  unfold SFeqb, SFltb.
  by destruct (SFcompare (Prim2SF a) (Prim2SF b)) as [[]|].
Qed.

Lemma descentCosts_readonly (leafAABB : AABB) (index : N) :
  readonly (descentCosts leafAABB index).
Proof. unfold descentCosts, childCost. solve_readonly. Qed.

(** C6 (amended).  At an internal node where the descent continues, the
    descent goes to the left child exactly when the cost of descending left
    is strictly below the cost of descending right, and to the right child
    in every other case; so equal costs send it to the right child. *)
Theorem descend_tie_goes_right (n : nat) (leafAABB : AABB) (index : N)
    (t : Tree) (nd : Node) (cost costLeft costRight : double) :
  nodes t !! N.to_nat index = Some nd →
  isLeaf nd = false →
  descentCosts leafAABB index t = Ret (cost, costLeft, costRight) t →
  dlt cost costLeft && dlt cost costRight = false →
  descentChoice (left nd) (right nd) cost costLeft costRight
  = Some (if dlt costLeft costRight then left nd else right nd) ∧
  descend (S n) leafAABB index t
  = descend n leafAABB (if dlt costLeft costRight then left nd else right nd) t ∧
  (deq costLeft costRight = true →
   dlt costLeft costRight = false ∧
   descentChoice (left nd) (right nd) cost costLeft costRight
   = Some (right nd) ∧
   descend (S n) leafAABB index t = descend n leafAABB (right nd) t).
Proof.
  intros Hnd Hleaf Hcosts Hcont.
  assert (descentChoice (left nd) (right nd) cost costLeft costRight
          = Some (if dlt costLeft costRight then left nd else right nd))
    as Hchoice.
  { unfold descentChoice. rewrite Hcont. by destruct (dlt costLeft costRight). }
  assert (descend (S n) leafAABB index t
          = descend n leafAABB
              (if dlt costLeft costRight then left nd else right nd) t)
    as Hstep.
  { simpl.
    unfold mbind at 1, M_bind at 1, bindM at 1, rd at 1.
    rewrite nth_N_lookup, Hnd, Hleaf.
    unfold mbind at 1, M_bind at 1, bindM at 1, rd at 1.
    rewrite nth_N_lookup, Hnd.
    unfold mbind at 1, M_bind at 1, bindM at 1, rd at 1.
    rewrite nth_N_lookup, Hnd.
    unfold mbind at 1, M_bind at 1, bindM at 1. rewrite Hcosts.
    by rewrite Hchoice. }
  split; [done|]. split; [done|].
  intros Htie%deq_not_dlt. rewrite Htie in Hchoice, Hstep. done.
Qed.

(** ** The node pool *)

(** Lookups in a pool after updates in place. *)
Lemma lookup_alter_N_eq {A} (f : A → A) (i : N) (l : list A) :
  alter f (N.to_nat i) l !! N.to_nat i = f <$> l !! N.to_nat i.
Proof. apply list_lookup_alter_eq. Qed.

Lemma lookup_alter_N_ne {A} (f : A → A) (i j : N) (l : list A) :
  i ≠ j → alter f (N.to_nat i) l !! N.to_nat j = l !! N.to_nat j.
Proof. intros Hne. apply list_lookup_alter_ne. lia. Qed.

Lemma lookup_insert_N_eq {A} (x y : A) (i : N) (l : list A) :
  l !! N.to_nat i = Some y → <[N.to_nat i := x]> l !! N.to_nat i = Some x.
Proof. intros H%lookup_lt_Some. by apply list_lookup_insert_eq. Qed.

Lemma lookup_insert_N_ne {A} (x : A) (i j : N) (l : list A) :
  i ≠ j → <[N.to_nat i := x]> l !! N.to_nat j = l !! N.to_nat j.
Proof. intros Hne. apply list_lookup_insert_ne. lia. Qed.

Lemma lookup_N_lt {A} (l : list A) (i : N) (x : A) :
  l !! N.to_nat i = Some x → i < vsize l.
Proof. intros H%lookup_lt_Some. unfold vsize. lia. Qed.

(** The free list: the nodes [fl], linked through [next] from [head] to
    [NULL_NODE], each with height [-1]. *)
Fixpoint chain (ns : list Node) (head : N) (fl : list N) : Prop :=
  match fl with
  | [] => head = NULL_NODE
  | i :: fl' =>
    head = i ∧
    ∃ nd, ns !! N.to_nat i = Some nd ∧ height nd = (-1)%Z ∧
          chain ns (next nd) fl'
  end.

Lemma chain_ext (ns ns' : list Node) (head : N) (fl : list N) :
  (∀ j, j ∈ fl → ns' !! N.to_nat j = ns !! N.to_nat j) →
  chain ns head fl → chain ns' head fl.
Proof.
  revert head. induction fl as [|i fl IH]; intros head Hext; simpl; [done|].
  intros (-> & nd & Hnd & Hh & Hc). split; [done|]. exists nd.
  rewrite Hext by apply list_elem_of_here. repeat split; try done.
  apply IH; [|done]. intros j Hj. apply Hext. by apply list_elem_of_further.
Qed.

Lemma chain_lt (ns : list Node) (head : N) (fl : list N) :
  chain ns head fl → ∀ j, j ∈ fl → j < vsize ns.
Proof.
  revert head. induction fl as [|i fl IH]; intros head Hc j Hj.
  - by apply elem_of_nil in Hj.
  - destruct Hc as (-> & nd & Hnd & _ & Hc).
    apply elem_of_cons in Hj as [->|Hj]; [by eapply lookup_N_lt|by eapply IH].
Qed.

Lemma chain_height (ns : list Node) (head : N) (fl : list N) :
  chain ns head fl →
  ∀ j, j ∈ fl → ∃ nd, ns !! N.to_nat j = Some nd ∧ height nd = (-1)%Z.
Proof.
  revert head. induction fl as [|i fl IH]; intros head Hc j Hj.
  - by apply elem_of_nil in Hj.
  - destruct Hc as (-> & nd & Hnd & Hh & Hc).
    apply elem_of_cons in Hj as [->|Hj]; [eauto|by eapply IH].
Qed.

(** The pool of a tree whose live nodes are [live] and whose free list is
    [fl]. *)
Record pool (t : Tree) (live fl : list N) : Prop := mkPool {
  pool_size : vsize (nodes t) = nodeCapacity t;
  pool_cap : nodeCapacity t ≤ UINT_MAX;
  pool_chain : chain (nodes t) (freeList t) fl;
  pool_nodup : NoDup (live ++ fl);
  pool_cover : ∀ i, i < nodeCapacity t → i ∈ live ++ fl;
  pool_bound : ∀ i, i ∈ live → i < nodeCapacity t;
  pool_count : nodeCount t = N.of_nat (length live);
  pool_total : N.of_nat (length live + length fl) = nodeCapacity t
}.

Lemma pool_perm (t : Tree) (live live' fl : list N) :
  live ≡ₚ live' → pool t live fl → pool t live' fl.
Proof.
  intros Hp [Hs Hc Hch Hnd Hcov Hb Hcnt Htot]. split; try done.
  - by rewrite <- Hp.
  - intros i Hi. rewrite <- Hp. by apply Hcov.
  - intros i Hi. apply Hb. by rewrite Hp.
  - by rewrite <- Hp.
  - by rewrite <- Hp.
Qed.

Lemma pool_null_not_node (t : Tree) (live fl : list N) (i : N) (nd : Node) :
  pool t live fl → nodes t !! N.to_nat i = Some nd → i ≠ NULL_NODE.
Proof.
  intros Hp Hnd%lookup_N_lt. rewrite (pool_size _ _ _ Hp) in Hnd.
  pose proof (pool_cap _ _ _ Hp). unfold UINT_MAX, NULL_NODE in *. lia.
Qed.

Lemma uadd_1 (a : N) : a < UINT_MAX → uadd a 1 = a + 1.
Proof.
  unfold uadd, uwrap, UINT_MAX. intros H. apply N.mod_small. lia.
Qed.

Lemma usub_1 (a : N) : 0 < a → a ≤ UINT_MAX → usub a 1 = a - 1.
Proof.
  unfold usub, uwrap, UINT_MAX. intros H1 H2.
  rewrite (N.mod_small 1) by lia.
  replace (a + 2 ^ 32 - 1) with ((a - 1) + 1 * 2 ^ 32) by lia.
  rewrite N.Div0.mod_add. apply N.mod_small. lia.
Qed.

(** What the functions on the pool and on the leaves keep. *)
Record frame (t t' : Tree) : Prop := mkFrame {
  frame_dimension : dimension t' = dimension t;
  frame_skinThickness : skinThickness t' = skinThickness t;
  frame_touchIsOverlap : touchIsOverlap t' = touchIsOverlap t;
  frame_particleMap : particleMap t' = particleMap t
}.

Lemma frame_refl (t : Tree) : frame t t.
Proof. by split. Qed.

Lemma frame_trans (t1 t2 t3 : Tree) : frame t1 t2 → frame t2 t3 → frame t1 t3.
Proof. intros [] []. split; congruence. Qed.

(** Solves a disequality between node indices. *)
Ltac ne_basic := first [ done | congruence | lia ].

(** Normalises lookups in pools that were updated in place; [tac] proves
    that two indices differ. *)
Ltac lk_with tac :=
  repeat first
    [ rewrite lookup_alter_N_eq
    | rewrite lookup_alter_N_ne by tac
    | rewrite lookup_insert_N_ne by tac ].

Ltac lk_in_with tac H :=
  repeat first
    [ rewrite lookup_alter_N_eq in H
    | rewrite lookup_alter_N_ne in H by tac
    | rewrite lookup_insert_N_ne in H by tac ].

Ltac lk := lk_with ne_basic.

Lemma freeNode_spec (t t' : Tree) (live fl : list N) (node : N) :
  pool t (node :: live) fl →
  freeNode node t = Ret tt t' →
  pool t' live (node :: fl) ∧ frame t t' ∧ root t' = root t ∧
  ∀ j, j ≠ node → nodes t' !! N.to_nat j = nodes t !! N.to_nat j.
Proof.
  intros Hp H. unfold freeNode in H. minv H.
  match goal with
  | Hn : nodes t !! N.to_nat node = Some ?x |- _ =>
    rename Hn into Hnode; rename x into nd
  end.
  destruct Hp as [Hs Hc Hch Hnd Hcov Hb Hcnt Htot].
  apply NoDup_cons in Hnd as [Hnotin Hnd]. simpl in Hcnt, Htot.
  split; [|split; [by split|split; [done|intros j Hj; by lk]]].
  split; tsimpl.
  - unfold vsize in *. by rewrite !length_alter.
  - done.
  - split; [done|]. lk. rewrite Hnode. eexists. split; [done|]. simpl.
    split; [done|]. eapply chain_ext; [|done]. intros j Hj.
    assert (node ≠ j) by (intros ->; apply Hnotin, elem_of_app; by right).
    by lk.
  - apply NoDup_app. apply NoDup_app in Hnd as (Hl & Hd & Hf).
    split; [done|]. split.
    + intros x Hx [->|Hx']%elem_of_cons; [|by eapply Hd].
      apply Hnotin, elem_of_app. by left.
    + apply NoDup_cons. split; [|done]. intros Hx. apply Hnotin, elem_of_app.
      by right.
  - intros i Hi. specialize (Hcov i Hi). simpl in Hcov.
    rewrite elem_of_app, elem_of_cons. rewrite elem_of_cons, elem_of_app in Hcov.
    tauto.
  - intros i Hi. apply Hb. by apply list_elem_of_further.
  - rewrite Hcnt, usub_1 by (unfold UINT_MAX in *; lia). lia.
  - simpl. lia.
Qed.

(** The loop that links fresh nodes into a free list, in [Tree::Tree] and in
    [allocateNode]. *)
Lemma thread_loop (n : nat) :
  ∀ (i : N) (t t' : Tree),
    mfor_from n i (λ i (_ : unit),
                     wr i (set_next (uadd i 1));; wr i (set_height (-1))) tt t
    = Ret tt t' →
    ∃ ns', t' = set_nodes ns' t ∧ length ns' = length (nodes t) ∧
      (∀ k, i ≤ k < i + N.of_nat n →
         ∃ nd, ns' !! N.to_nat k = Some nd ∧ next nd = uadd k 1 ∧
               height nd = (-1)%Z) ∧
      (∀ k, k < i ∨ i + N.of_nat n ≤ k →
         ns' !! N.to_nat k = nodes t !! N.to_nat k).
Proof.
  induction n as [|n IH]; intros i t t' H; simpl in H.
  - apply mret_Ret in H as [_ ->]. exists (nodes t).
    split; [by destruct t|]. split; [done|]. split; [lia|done].
  - minv H. apply IH in H as (ns' & -> & Hlen & Hin & Hout). tsimpl.
    exists ns'. split; [done|]. rewrite !length_alter in Hlen.
    split; [done|]. split.
    + intros k Hk. destruct (decide (k = i)) as [->|Hne].
      * rewrite Hout by lia. lk.
        match goal with Hn : nodes t !! N.to_nat i = Some _ |- _ => rewrite Hn end.
        simpl. eexists. split; [done|]. done.
      * apply Hin. lia.
    + intros k Hk. rewrite Hout by lia. by lk.
Qed.

Lemma umul_2_grows (c : N) : c < umul c 2 → umul c 2 = 2 * c ∧ 0 < c.
Proof.
  unfold umul, uwrap. intros H.
  destruct (decide (c * 2 < 2 ^ 32)) as [Hlt|Hge].
  - rewrite N.mod_small in * by done. lia.
  - exfalso. assert (c * 2 mod 2 ^ 32 < 2 ^ 32) by (apply N.mod_lt; lia).
    assert (c * 2 = 2 ^ 32 * (c * 2 / 2 ^ 32) + c * 2 mod 2 ^ 32)
      by (apply N.div_mod; lia).
    assert (1 ≤ c * 2 / 2 ^ 32) by (apply N.div_le_lower_bound; lia).
    nia.
Qed.

Lemma pool_pop (t t' : Tree) (live fl : list N) (node : N) (nd : Node) :
  pool t live fl → freeList t = node →
  nodes t !! N.to_nat node = Some nd →
  length (nodes t') = length (nodes t) →
  nodeCapacity t' = nodeCapacity t →
  freeList t' = next nd →
  nodeCount t' = uadd (nodeCount t) 1 →
  (∀ j, j ≠ node → nodes t' !! N.to_nat j = nodes t !! N.to_nat j) →
  ∃ fl', fl = node :: fl' ∧ pool t' (node :: live) fl' ∧ node ∉ live.
Proof.
  intros Hp Hfl Hnd Hlen Hcap Hfl' Hcnt Hext.
  pose proof (pool_null_not_node _ _ _ _ _ Hp Hnd) as Hnull.
  destruct Hp as [Hs Hc Hch Hnodup Hcov Hb Hcount Htot].
  destruct fl as [|i fl']; simpl in Hch; [congruence|].
  destruct Hch as (Hi & nd' & Hnd' & Hh & Hch). rewrite Hfl in Hi. subst i.
  assert (nd' = nd) as -> by congruence.
  assert (node :: live ++ fl' ≡ₚ live ++ node :: fl') as Hperm
    by apply Permutation_middle.
  assert (NoDup (node :: live ++ fl')) as Hnodup' by (by rewrite Hperm).
  exists fl'. split; [done|]. split.
  - split.
    + unfold vsize. by rewrite Hlen, Hcap.
    + by rewrite Hcap.
    + rewrite Hfl'. eapply chain_ext; [|done]. intros j Hj. apply Hext.
      intros ->. apply NoDup_cons in Hnodup' as [Hn _]. apply Hn, elem_of_app.
      by right.
    + done.
    + intros j Hj. simpl. rewrite Hperm. apply Hcov. by rewrite <- Hcap.
    + intros j [->|Hj]%elem_of_cons; rewrite Hcap.
      * apply lookup_N_lt in Hnd. by rewrite <- Hs.
      * by apply Hb.
    + rewrite Hcnt, Hcount. simpl in *.
      rewrite uadd_1 by (unfold UINT_MAX in *; lia). lia.
    + rewrite Hcap, <- Htot. simpl. lia.
  - apply NoDup_cons in Hnodup' as [Hn _]. intros Hin. apply Hn, elem_of_app.
    by left.
Qed.

Lemma chain_range (ns : list Node) (n : nat) :
  ∀ lo : N,
    (∀ k, lo ≤ k < lo + N.of_nat (S n) →
       ∃ nd, ns !! N.to_nat k = Some nd ∧ height nd = (-1)%Z ∧
             next nd = if decide (k = lo + N.of_nat n) then NULL_NODE
                       else k + 1) →
    chain ns lo (N.of_nat <$> seq (N.to_nat lo) (S n)).
Proof.
  induction n as [|n IH]; intros lo H.
  - simpl. rewrite N2Nat.id. split; [done|].
    destruct (H lo) as (nd & Hnd & Hh & Hn); [lia|].
    rewrite decide_True in Hn by lia. eauto.
  - cbn [seq fmap list_fmap]. rewrite N2Nat.id. split; [done|].
    destruct (H lo) as (nd & Hnd & Hh & Hn); [lia|].
    rewrite decide_False in Hn by lia. exists nd. split; [done|].
    split; [done|]. rewrite Hn.
    replace (S (N.to_nat lo)) with (N.to_nat (lo + 1)) by lia.
    apply IH. intros k Hk. destruct (H k) as (nd' & Hnd' & Hh' & Hn'); [lia|].
    exists nd'. split; [done|]. split; [done|]. rewrite Hn'.
    destruct (decide (k = lo + N.of_nat (S n))), (decide (k = lo + 1 + N.of_nat n));
      try done; lia.
Qed.

Lemma chain_nil_inv (t : Tree) (live fl : list N) :
  pool t live fl → freeList t = NULL_NODE → fl = [].
Proof.
  intros Hp Hnull. destruct fl as [|i fl]; [done|].
  destruct (pool_chain _ _ _ Hp) as (Hi & nd & Hnd & _).
  rewrite Hnull in Hi. subst i. by eapply pool_null_not_node in Hnd.
Qed.

Lemma allocateNode_spec (t t' : Tree) (live fl : list N) (node : N) :
  pool t live fl →
  allocateNode t = Ret node t' →
  ∃ fl', pool t' (node :: live) fl' ∧ (node ∉ live) ∧ frame t t' ∧
    root t' = root t ∧
    (∀ j, j ∈ live → nodes t' !! N.to_nat j = nodes t !! N.to_nat j) ∧
    ∃ nd, nodes t' !! N.to_nat node = Some nd ∧ parent nd = NULL_NODE ∧
          left nd = NULL_NODE ∧ right nd = NULL_NODE ∧ height nd = 0%Z.
Proof.
  intros Hp H. unfold allocateNode in H. minv H.
  - (* The free list is empty: the pool doubles. *)
    apply N.eqb_eq in Heqb.
    pose proof (chain_nil_inv _ _ _ Hp Heqb) as ->.
    unfold mfor in Hm0. apply thread_loop in Hm0 as (ns' & -> & Hlen & Hin & Hout).
    tsimpl. rewrite length_resize in Hlen.
    destruct Hp as [Hs Hc Hch Hnodup Hcov Hb Hcount Htot].
    rewrite app_nil_r in *. rewrite Nat.add_0_r in Htot.
    set (cap := nodeCapacity t) in *. set (cap' := umul cap 2) in *.
    assert (nodeCount t = cap) as Hnc by lia. rewrite Hnc in *.
    assert (cap < cap') as Hgrow.
    { apply lookup_lt_Some in Hm. rewrite !length_alter in Hm. lia. }
    destruct (umul_2_grows _ Hgrow) as [Hcap' Hpos]. fold cap' in Hcap'.
    assert (cap' ≤ UINT_MAX) as Hmax.
    { unfold cap', umul, uwrap, UINT_MAX.
      pose proof (N.mod_lt (cap * 2) (2 ^ 32)). lia. }
    assert (usub cap' 1 = cap' - 1) as Hlast by (apply usub_1; lia).
    rewrite Hlast in *.
    set (ns1 := alter (set_height (-1)) (N.to_nat (cap' - 1))
                  (alter (set_next NULL_NODE) (N.to_nat (cap' - 1)) ns')) in *.
    set (flg := N.of_nat <$> seq (N.to_nat cap) (S (N.to_nat (cap - 1)))).
    assert (∀ j, j < cap → ns1 !! N.to_nat j = nodes t !! N.to_nat j) as Hold.
    { intros j Hj. unfold ns1. lk. rewrite Hout by lia.
      apply lookup_resize; unfold vsize in *; lia. }
    assert (pool {| root := root t; nodes := ns1; nodeCount := cap;
                    nodeCapacity := cap'; freeList := cap;
                    dimension := dimension t;
                    skinThickness := skinThickness t;
                    particleMap := particleMap t;
                    touchIsOverlap := touchIsOverlap t |} live flg) as Hpg.
    { split; tsimpl.
      - unfold vsize, ns1. rewrite !length_alter. lia.
      - done.
      - apply chain_range. intros k Hk.
        destruct (decide (k = cap + N.of_nat (N.to_nat (cap - 1)))) as [->|Hne].
        + replace (cap + N.of_nat (N.to_nat (cap - 1))) with (cap' - 1) by lia.
          unfold ns1. lk. rewrite Hm1. simpl. eauto.
        + destruct (Hin k) as (nd' & Hnd' & Hn' & Hh'); [lia|].
          unfold ns1. lk. rewrite Hnd'. exists nd'. split; [done|].
          split; [done|]. rewrite Hn'. apply uadd_1. lia.
      - apply NoDup_app. split; [done|]. split.
        + intros x Hx (y & -> & Hy%elem_of_seq)%list_elem_of_fmap.
          apply Hb in Hx. lia.
        + apply (NoDup_fmap_2 _). apply NoDup_seq.
      - intros i Hi. apply elem_of_app.
        destruct (decide (i < cap)) as [Hlt|Hge]; [left; by apply Hcov|].
        right. apply list_elem_of_fmap. exists (N.to_nat i).
        split; [lia|]. apply elem_of_seq. lia.
      - intros i Hi. apply Hb in Hi. lia.
      - lia.
      - unfold flg. rewrite length_fmap, length_seq. lia. }
    destruct (pool_pop _
      {| root := root t;
         nodes := alter (set_aabb box) (N.to_nat cap)
                    (alter (set_height 0) (N.to_nat cap)
                       (alter (set_right NULL_NODE) (N.to_nat cap)
                          (alter (set_left NULL_NODE) (N.to_nat cap)
                             (alter (set_parent NULL_NODE) (N.to_nat cap) ns1))));
         nodeCount := uadd cap 1; nodeCapacity := cap'; freeList := next nd1;
         dimension := dimension t; skinThickness := skinThickness t;
         particleMap := particleMap t; touchIsOverlap := touchIsOverlap t |}
      _ _ cap nd1 Hpg) as (fl' & _ & Hp' & Hnot); tsimpl; try done.
    { by rewrite !length_alter. }
    { intros j Hj. by lk. }
    exists fl'. split; [done|]. split; [done|]. split; [by split|].
    split; [done|]. split.
    + intros j Hj. assert (j ≠ cap) by (by intros ->). lk. apply Hold.
      by apply Hb.
    + lk. unfold ns1 in Hm |- *. rewrite Hm. simpl. eauto 10.
  - (* A node is taken from the free list. *)
    destruct (pool_pop _
      {| root := root t;
         nodes := alter (set_aabb box) (N.to_nat (freeList t))
                    (alter (set_height 0) (N.to_nat (freeList t))
                       (alter (set_right NULL_NODE) (N.to_nat (freeList t))
                          (alter (set_left NULL_NODE) (N.to_nat (freeList t))
                             (alter (set_parent NULL_NODE)
                                (N.to_nat (freeList t)) (nodes t)))));
         nodeCount := uadd (nodeCount t) 1; nodeCapacity := nodeCapacity t;
         freeList := next nd; dimension := dimension t;
         skinThickness := skinThickness t; particleMap := particleMap t;
         touchIsOverlap := touchIsOverlap t |}
      _ _ (freeList t) nd Hp) as (fl' & _ & Hp' & Hnot); tsimpl; try done.
    { by rewrite !length_alter. }
    { intros j Hj. by lk. }
    exists fl'. split; [done|]. split; [done|]. split; [by split|].
    split; [done|]. split.
    + intros j Hj. assert (j ≠ freeList t) by (by intros ->). by lk.
    + lk. rewrite Hm. simpl. eauto 10.
Qed.

(** ** The shape of the tree in the pool *)

(** A binary tree of node indices: the tree that the links of the pool
    draw. *)
Inductive shape : Type :=
| Lf (i : N)
| Nd (i : N) (l r : shape).

Definition idx (s : shape) : N :=
  match s with
  | Lf i | Nd i _ _ => i
  end.

Fixpoint ids (s : shape) : list N :=
  match s with
  | Lf i => [i]
  | Nd i l r => i :: ids l ++ ids r
  end.

Fixpoint leaves (s : shape) : list N :=
  match s with
  | Lf i => [i]
  | Nd _ l r => leaves l ++ leaves r
  end.

(** The nodes of [s] are in the pool [ns] with the links of [s]: the root
    of [s] has the parent [par], an inner node points to its two children and
    they point back, a leaf has no left child, and no height is negative. *)
Fixpoint rep (ns : list Node) (par : N) (s : shape) : Prop :=
  match s with
  | Lf i =>
    ∃ nd, ns !! N.to_nat i = Some nd ∧ parent nd = par ∧
          left nd = NULL_NODE ∧ (0 ≤ height nd)%Z
  | Nd i l r =>
    ∃ nd, ns !! N.to_nat i = Some nd ∧ parent nd = par ∧
          left nd = idx l ∧ right nd = idx r ∧ (0 ≤ height nd)%Z ∧
          rep ns i l ∧ rep ns i r
  end.

Lemma idx_in_ids (s : shape) : idx s ∈ ids s.
Proof. destruct s; apply list_elem_of_here. Qed.

Lemma leaves_in_ids (s : shape) (x : N) : x ∈ leaves s → x ∈ ids s.
Proof.
  induction s as [i|i l IHl r IHr]; simpl; [done|].
  rewrite elem_of_app, elem_of_cons, elem_of_app. intros [?|?]; auto.
Qed.

Lemma rep_root (ns : list Node) (par : N) (s : shape) :
  rep ns par s →
  ∃ nd, ns !! N.to_nat (idx s) = Some nd ∧ parent nd = par ∧
        (0 ≤ height nd)%Z.
Proof.
  destruct s; simpl;
    [intros (nd & ? & ? & ? & ?)|intros (nd & ? & ? & ? & ? & ? & ? & ?)];
    eauto.
Qed.

Lemma rep_node (ns : list Node) (par : N) (s : shape) (j : N) :
  rep ns par s → j ∈ ids s →
  ∃ nd, ns !! N.to_nat j = Some nd ∧ (0 ≤ height nd)%Z.
Proof.
  revert par. induction s as [i|i l IHl r IHr]; intros par; simpl.
  - intros (nd & ? & ? & ? & ?) ->%list_elem_of_singleton. eauto.
  - intros (nd & ? & ? & ? & ? & ? & Hl & Hr).
    rewrite elem_of_cons, elem_of_app. intros [->|[?|?]]; eauto.
Qed.

Lemma rep_leaf (ns : list Node) (par : N) (s : shape) (j : N) :
  rep ns par s → j ∈ leaves s →
  ∃ nd, ns !! N.to_nat j = Some nd ∧ left nd = NULL_NODE ∧ (0 ≤ height nd)%Z.
Proof.
  revert par. induction s as [i|i l IHl r IHr]; intros par; simpl.
  - intros (nd & ? & ? & ? & ?) ->%list_elem_of_singleton. eauto.
  - intros (nd & ? & ? & ? & ? & ? & Hl & Hr).
    rewrite elem_of_app. intros [?|?]; eauto.
Qed.

(** [rep] looks at the links and at the sign of the height only. *)
Definition same_links (nd nd' : Node) : Prop :=
  parent nd' = parent nd ∧ left nd' = left nd ∧ right nd' = right nd ∧
  ((0 ≤ height nd)%Z → (0 ≤ height nd')%Z).

Lemma rep_ext (ns ns' : list Node) (par : N) (s : shape) :
  (∀ j nd, j ∈ ids s → ns !! N.to_nat j = Some nd →
     ∃ nd', ns' !! N.to_nat j = Some nd' ∧ same_links nd nd') →
  rep ns par s → rep ns' par s.
Proof.
  revert par. induction s as [i|i l IHl r IHr]; intros par Hext; simpl.
  - intros (nd & Hnd & Hp & Hl & Hh).
    destruct (Hext i nd) as (nd' & Hnd' & Hp' & Hl' & Hr' & Hh');
      [apply list_elem_of_here|done|].
    exists nd'. rewrite Hp', Hl'. auto.
  - intros (nd & Hnd & Hp & Hl & Hr & Hh & Hrl & Hrr).
    destruct (Hext i nd) as (nd' & Hnd' & Hp' & Hl' & Hr' & Hh');
      [apply list_elem_of_here|done|].
    exists nd'. rewrite Hp', Hl', Hr'. repeat split; auto.
    + apply IHl; [|done]. intros j ndj Hj. apply Hext. simpl.
      rewrite elem_of_cons, elem_of_app. auto.
    + apply IHr; [|done]. intros j ndj Hj. apply Hext. simpl.
      rewrite elem_of_cons, elem_of_app. auto.
Qed.

Lemma rep_ext_eq (ns ns' : list Node) (par : N) (s : shape) :
  (∀ j, j ∈ ids s → ns' !! N.to_nat j = ns !! N.to_nat j) →
  rep ns par s → rep ns' par s.
Proof.
  intros Hext. apply rep_ext. intros j nd Hj Hnd. exists nd.
  rewrite Hext by done. by repeat split.
Qed.

(** The root of a shape may be given another parent. *)
Lemma rep_reparent (ns ns' : list Node) (par par' : N) (s : shape) :
  NoDup (ids s) →
  (∀ j, j ∈ ids s → j ≠ idx s → ns' !! N.to_nat j = ns !! N.to_nat j) →
  (∀ nd, ns !! N.to_nat (idx s) = Some nd →
     ∃ nd', ns' !! N.to_nat (idx s) = Some nd' ∧ parent nd' = par' ∧
            left nd' = left nd ∧ right nd' = right nd ∧
            ((0 ≤ height nd)%Z → (0 ≤ height nd')%Z)) →
  rep ns par s → rep ns' par' s.
Proof.
  intros Hnd Hext Hroot. destruct s as [i|i l r]; simpl in *.
  - intros (nd & Hi & Hp & Hl & Hh).
    destruct (Hroot nd Hi) as (nd1 & Hi1 & Hp1 & Hl1 & Hr1 & Hh1).
    exists nd1. rewrite Hl1. auto.
  - intros (nd & Hi & Hp & Hl & Hr & Hh & Hrl & Hrr).
    destruct (Hroot nd Hi) as (nd1 & Hi1 & Hp1 & Hl1 & Hr1 & Hh1).
    apply NoDup_cons in Hnd as [Hnotin Hnd].
    exists nd1. rewrite Hl1, Hr1. repeat split; auto.
    + eapply rep_ext_eq; [|done]. intros j Hj. apply Hext.
      * rewrite elem_of_cons, elem_of_app. auto.
      * intros ->. apply Hnotin, elem_of_app. auto.
    + eapply rep_ext_eq; [|done]. intros j Hj. apply Hext.
      * rewrite elem_of_cons, elem_of_app. auto.
      * intros ->. apply Hnotin, elem_of_app. auto.
Qed.

(** *** Paths *)

(** One step from a node to one of its children, with the sibling that is
    left behind; a path runs from a hole in the tree up to the root. *)
Inductive step : Type :=
| GoL (i : N) (sib : shape)
| GoR (i : N) (sib : shape).

Definition sidx (st : step) : N :=
  match st with
  | GoL i _ | GoR i _ => i
  end.

Definition ssib (st : step) : shape :=
  match st with
  | GoL _ s | GoR _ s => s
  end.

Definition fill (st : step) (s : shape) : shape :=
  match st with
  | GoL i r => Nd i s r
  | GoR i l => Nd i l s
  end.

Fixpoint plug (path : list step) (s : shape) : shape :=
  match path with
  | [] => s
  | st :: path' => plug path' (fill st s)
  end.

Definition hole_parent (path : list step) : N :=
  match path with
  | [] => NULL_NODE
  | st :: _ => sidx st
  end.

Fixpoint pids (path : list step) : list N :=
  match path with
  | [] => []
  | st :: path' => sidx st :: ids (ssib st) ++ pids path'
  end.

Fixpoint pleaves (path : list step) : list N :=
  match path with
  | [] => []
  | st :: path' => leaves (ssib st) ++ pleaves path'
  end.

(** The index of the root of [plug path s] when [i] is the root of [s]. *)
Fixpoint top (path : list step) (i : N) : N :=
  match path with
  | [] => i
  | st :: path' => top path' (sidx st)
  end.

(** The nodes of [path] are in the pool, linked as [path] says, around a
    hole that holds the node [hole]. *)
Fixpoint rep_path (ns : list Node) (path : list step) (hole : N) : Prop :=
  match path with
  | [] => True
  | st :: path' =>
    (∃ nd, ns !! N.to_nat (sidx st) = Some nd ∧
           parent nd = hole_parent path' ∧ (0 ≤ height nd)%Z ∧
           match st with
           | GoL _ r => left nd = hole ∧ right nd = idx r
           | GoR _ l => left nd = idx l ∧ right nd = hole
           end) ∧
    rep ns (sidx st) (ssib st) ∧
    rep_path ns path' (sidx st)
  end.

Lemma idx_fill (st : step) (s : shape) : idx (fill st s) = sidx st.
Proof. by destruct st. Qed.

Lemma idx_plug (path : list step) (s : shape) :
  idx (plug path s) = top path (idx s).
Proof.
  revert s. induction path as [|st path IH]; intros s; simpl; [done|].
  by rewrite IH, idx_fill.
Qed.

Lemma ids_fill (st : step) (s : shape) :
  ids (fill st s) ≡ₚ ids s ++ sidx st :: ids (ssib st).
Proof.
  destruct st as [i r|i l]; simpl.
  - by rewrite Permutation_middle.
  - rewrite <- Permutation_middle. f_equiv. apply Permutation_app_comm.
Qed.

Lemma ids_plug (path : list step) (s : shape) :
  ids (plug path s) ≡ₚ ids s ++ pids path.
Proof.
  revert s. induction path as [|st path IH]; intros s; simpl.
  - by rewrite app_nil_r.
  - rewrite IH, ids_fill. by rewrite <- app_assoc.
Qed.

Lemma leaves_fill (st : step) (s : shape) :
  leaves (fill st s) ≡ₚ leaves s ++ leaves (ssib st).
Proof. destruct st; simpl; [done|apply Permutation_app_comm]. Qed.

Lemma leaves_plug (path : list step) (s : shape) :
  leaves (plug path s) ≡ₚ leaves s ++ pleaves path.
Proof.
  revert s. induction path as [|st path IH]; intros s; simpl.
  - by rewrite app_nil_r.
  - rewrite IH, leaves_fill. by rewrite <- app_assoc.
Qed.

Lemma rep_fill (ns : list Node) (par : N) (st : step) (s : shape) :
  rep ns par (fill st s) ↔
  (∃ nd, ns !! N.to_nat (sidx st) = Some nd ∧ parent nd = par ∧
         (0 ≤ height nd)%Z ∧
         match st with
         | GoL _ r => left nd = idx s ∧ right nd = idx r
         | GoR _ l => left nd = idx l ∧ right nd = idx s
         end) ∧
  rep ns (sidx st) (ssib st) ∧ rep ns (sidx st) s.
Proof.
  destruct st; simpl; split.
  all: first [ intros (nd & ? & ? & ? & ? & ? & ? & ?)
             | intros ((nd & ? & ? & ? & ? & ?) & ? & ?) ];
    eauto 10.
Qed.

Lemma rep_plug (ns : list Node) (path : list step) (s : shape) :
  rep ns NULL_NODE (plug path s) ↔
  rep_path ns path (idx s) ∧ rep ns (hole_parent path) s.
Proof.
  revert s. induction path as [|st path IH]; intros s; simpl.
  - tauto.
  - rewrite IH, rep_fill, idx_fill. tauto.
Qed.

Lemma rep_path_ext_eq (ns ns' : list Node) (path : list step) (hole : N) :
  (∀ j, j ∈ pids path → ns' !! N.to_nat j = ns !! N.to_nat j) →
  rep_path ns path hole → rep_path ns' path hole.
Proof.
  revert hole. induction path as [|st path IH]; intros hole Hext; simpl; [done|].
  intros ((nd & Hnd & Hrest) & Hsib & Hpath). split; [|split].
  - exists nd. rewrite Hext; [done|]. apply list_elem_of_here.
  - eapply rep_ext_eq; [|done]. intros j Hj. apply Hext. simpl.
    rewrite elem_of_cons, elem_of_app. auto.
  - apply IH; [|done]. intros j Hj. apply Hext. simpl.
    rewrite elem_of_cons, elem_of_app. auto.
Qed.

(** A leaf of a shape is a hole of it. *)
Lemma leaf_plug (s : shape) (x : N) :
  x ∈ leaves s → ∃ path, s = plug path (Lf x).
Proof.
  induction s as [i|i l IHl r IHr]; simpl.
  - intros ->%list_elem_of_singleton. by exists [].
  - rewrite elem_of_app. intros [Hx|Hx].
    + destruct (IHl Hx) as [path ->]. exists (path ++ [GoL i r]).
      clear. generalize (Lf x). induction path as [|st path IH]; intros s;
        simpl; [done|]. apply IH.
    + destruct (IHr Hx) as [path ->]. exists (path ++ [GoR i l]).
      clear. generalize (Lf x). induction path as [|st path IH]; intros s;
        simpl; [done|]. apply IH.
Qed.

Lemma NoDup_submseteq_mono (l k : list N) : l ⊆+ k → NoDup k → NoDup l.
Proof.
  intros (k' & Hk)%submseteq_Permutation. rewrite Hk.
  by intros [? _]%NoDup_app.
Qed.

Lemma pool_frame (t t' : Tree) (live live' fl : list N) :
  pool t live fl →
  live' ≡ₚ live →
  length (nodes t') = length (nodes t) →
  nodeCapacity t' = nodeCapacity t →
  nodeCount t' = nodeCount t →
  freeList t' = freeList t →
  (∀ j, j ∈ fl → nodes t' !! N.to_nat j = nodes t !! N.to_nat j) →
  pool t' live' fl.
Proof.
  intros Hp Hperm Hlen Hcap Hcnt Hfl Hext. apply (pool_perm _ live); [done|].
  destruct Hp as [Hs Hc Hch Hnodup Hcov Hb Hcount Htot]. split.
  - unfold vsize. by rewrite Hlen, Hcap.
  - by rewrite Hcap.
  - rewrite Hfl. by eapply chain_ext.
  - done.
  - by rewrite Hcap.
  - by rewrite Hcap.
  - by rewrite Hcnt.
  - by rewrite Hcap.
Qed.


Lemma NoDup_app_ne (l1 l2 : list N) (x y : N) :
  NoDup (l1 ++ l2) → x ∈ l1 → y ∈ l2 → x ≠ y.
Proof. intros (_ & Hd & _)%NoDup_app Hx Hy ->. by eapply Hd. Qed.

(** The part of a duplicate-free list of nodes in which a node is known to
    be: the list of a membership hypothesis, the nodes of the shape of which
    it is the root, or the node alone. *)
Ltac home x :=
  match goal with
  | Hj : x ∈ ?l |- _ => constr:(l)
  | _ =>
    lazymatch x with
    | idx ?s => constr:(ids s)
    | _ => constr:([x])
    end
  end.

Ltac mem_solve :=
  first [ assumption | apply idx_in_ids | apply list_elem_of_here ].

(** Proves [x ≠ y] for two nodes whose homes are parts of the list of [H]. *)
Ltac nodup_ne H :=
  lazymatch goal with
  | |- ?x ≠ ?y =>
    let hx := home x in
    let hy := home y in
    apply (NoDup_app_ne hx hy x y);
    [ refine (NoDup_submseteq_mono (hx ++ hy) _ _ H); solve_submseteq
    | mem_solve | mem_solve ]
  end.

Ltac nodup_auto :=
  match goal with
  | H : NoDup _ |- _ => nodup_ne H
  end.

Ltac ne_solve := first [ assumption | done | nodup_auto ].

Ltac lkn := lk_with ne_solve.

Ltac lkn_in H := lk_in_with ne_solve H.

(** Adds [x ≠ y] and [y ≠ x] to the context. *)
Ltac add_ne x y :=
  assert (x ≠ y) by nodup_auto;
  assert (y ≠ x) by (apply not_eq_sym; assumption).

(** Normalises the lookups of the context, the oldest first: each becomes a
    lookup in the pool [ns] the function started with, and the node it read
    is replaced by its value. *)
Ltac nsimpl_in H :=
  cbv beta delta [set_aabb set_parent set_next set_left set_right set_height
                  set_particle] in H;
  cbn [aabb parent next left right height particle] in H.

Ltac lk_one ns H :=
  lk_in_with assumption H;
  lazymatch type of H with
  | context [ns !! ?k] =>
    match goal with
    | Hb : ns !! k = Some _ |- _ =>
      tryif constr_eq Hb H then fail else rewrite Hb in H
    end
  end;
  cbn [fmap option_fmap option_map] in H;
  nsimpl_in H;
  apply (inj Some) in H;
  subst.

Ltac lk_hyps ns :=
  repeat match reverse goal with
         | H : alter _ _ _ !! N.to_nat _ = Some _ |- _ => lk_one ns H
         end.

Lemma elem_of_mono (x : N) (l k : list N) : x ∈ l → l ⊆+ k → x ∈ k.
Proof. intros Hx Hsub. by eapply elem_of_submseteq. Qed.

(** Proves [x ∈ k] when the home of [x] is a part of [k]. *)
Ltac mem_big :=
  lazymatch goal with
  | |- ?x ∈ ?k =>
    let hx := home x in
    apply (elem_of_mono x hx k); [mem_solve|solve_submseteq]
  end.

Lemma hole_parent_cases (path : list step) :
  hole_parent path = NULL_NODE ∨ hole_parent path ∈ pids path.
Proof. destruct path; simpl; [by left|right; apply list_elem_of_here]. Qed.

(** Adds to the context that the parent of the hole is not the node [x] of
    the pool. *)
Ltac add_hp_ne path x :=
  assert (hole_parent path ≠ x)
    by (let Hhp := fresh in
        destruct (hole_parent_cases path) as [Hhp|Hhp];
        [rewrite Hhp; apply not_eq_sym; assumption|nodup_auto]);
  assert (x ≠ hole_parent path) by (apply not_eq_sym; assumption).

(** *** Replacing the node in the hole of a path *)

Lemma rep_path_hole_parent (ns : list Node) (path : list step) (hole : N) :
  (∀ i nd, ns !! N.to_nat i = Some nd → i ≠ NULL_NODE) →
  rep_path ns path hole →
  path = [] ∨ hole_parent path ≠ NULL_NODE.
Proof.
  intros Hnull. destruct path as [|st path]; simpl; [by left|].
  intros ((nd & Hnd & _) & _). right. by eapply Hnull.
Qed.

Lemma top_rehole (path : list step) (old new r : N) :
  (path = [] ∨ hole_parent path ≠ NULL_NODE) →
  r = top path old →
  (if hole_parent path =? NULL_NODE then new else r) = top path new.
Proof.
  intros [->|Hne] ->; simpl; [done|].
  destruct path as [|st path]; simpl in *; [done|].
  by apply N.eqb_neq in Hne as ->.
Qed.

(** The pool [ns'] is the pool [ns] but for the parent of the hole, whose
    link to [old] has become a link to [new]. *)
Lemma rep_path_rehole (ns ns' : list Node) (path : list step) (old new : N) :
  NoDup (old :: pids path) →
  (∀ j, j ∈ pids path → j ≠ hole_parent path →
     ns' !! N.to_nat j = ns !! N.to_nat j) →
  (∀ nd, ns !! N.to_nat (hole_parent path) = Some nd →
     ns' !! N.to_nat (hole_parent path) = Some (relink old new nd)) →
  rep_path ns path old → rep_path ns' path new.
Proof.
  destruct path as [|st path]; simpl; [done|].
  intros Hnd Hext Hhp ((nd & Hst & Hp & Hh & Hlinks) & Hsib & Hpath).
  apply NoDup_cons in Hnd as [Hold Hnd].
  apply NoDup_cons in Hnd as [Hst_notin Hnd].
  split; [|split].
  - exists (relink old new nd). split; [by apply Hhp|].
    unfold relink. destruct st as [i r|i l]; simpl in *.
    + destruct Hlinks as [Hl Hr]. rewrite Hl, N.eqb_refl. by simpl.
    + destruct Hlinks as [Hl Hr].
      assert (left nd ≠ old) as ->%N.eqb_neq; [|by simpl].
      intros Heq. apply Hold. rewrite <- Heq, Hl.
      apply list_elem_of_further, elem_of_app. left. apply idx_in_ids.
  - eapply rep_ext_eq; [|done]. intros j Hj. apply Hext.
    + apply list_elem_of_further, elem_of_app. by left.
    + intros ->. apply Hst_notin, elem_of_app. by left.
  - eapply rep_path_ext_eq; [|done]. intros j Hj. apply Hext.
    + apply list_elem_of_further, elem_of_app. by right.
    + intros ->. apply Hst_notin, elem_of_app. by right.
Qed.

Lemma pool_ne_null (t : Tree) (live fl : list N) (j : N) :
  pool t live fl → j ∈ live ++ fl → j ≠ NULL_NODE.
Proof.
  intros Hp [Hj|Hj]%elem_of_app.
  - pose proof (pool_bound _ _ _ Hp j Hj). pose proof (pool_cap _ _ _ Hp).
    unfold UINT_MAX, NULL_NODE in *. lia.
  - pose proof (chain_lt _ _ _ (pool_chain _ _ _ Hp) j Hj) as Hlt.
    rewrite (pool_size _ _ _ Hp) in Hlt. pose proof (pool_cap _ _ _ Hp).
    unfold UINT_MAX, NULL_NODE in *. lia.
Qed.

Lemma hole_parent_ne (path : list step) (j : N) :
  j ≠ NULL_NODE → j ∉ pids path → hole_parent path ≠ j.
Proof.
  intros Hnull Hnotin. destruct path as [|st path]; simpl; [done|].
  intros <-. apply Hnotin, list_elem_of_here.
Qed.

Lemma NoDup_app_notin (l1 l2 : list N) (x : N) :
  NoDup (l1 ++ l2) → x ∈ l1 → x ∉ l2.
Proof. intros (_ & Hd & _)%NoDup_app Hx. by apply Hd. Qed.

(** Proves [x ∉ l] for a member [x] of one part of a duplicate-free list
    and another part [l] of it. *)
Ltac nodup_notin :=
  match goal with
  | H : NoDup _ |- ?x ∉ ?l =>
    let hx := home x in
    apply (NoDup_app_notin hx l x);
    [ refine (NoDup_submseteq_mono (hx ++ l) _ _ H); solve_submseteq
    | mem_solve ]
  end.

Lemma lookup_alter_hole_parent (f : Node → Node) (path : list step)
    (l : list Node) (j : N) :
  N.of_nat (length l) ≤ NULL_NODE → j ∉ pids path →
  alter f (N.to_nat (hole_parent path)) l !! N.to_nat j = l !! N.to_nat j.
Proof.
  intros Hlen Hj. destruct path as [|st path]; simpl in *.
  - rewrite alter_out_of_range; [done|lia].
  - apply lookup_alter_N_ne. intros <-. apply Hj, list_elem_of_here.
Qed.

(** Linear arithmetic without the facts that tell nodes apart. *)
Ltac hlia :=
  repeat match goal with
         | H : _ ≠ _ |- _ => clear H
         | H : _ !! _ = _ |- _ => clear H
         end;
  lia.

(** ** Rotations *)

(** A read of the node [NULL_NODE] does not return. *)
Ltac null_read :=
  match goal with
  | Hx : _ !! N.to_nat NULL_NODE = Some _,
    Hlen : N.of_nat (length _) ≤ NULL_NODE |- _ =>
    apply lookup_lt_Some in Hx; rewrite ?length_alter in Hx;
    clear -Hx Hlen; lia
  end.

(** Unfolds [rep] at the root of a shape with two children and names the
    node read there. *)
Ltac rep_open Hs :=
  let x := fresh "nd" in
  let Hx := fresh "Hnode" in
  let HL := fresh "Hrepl" in
  let HR := fresh "Hrepr" in
  destruct Hs as (x & Hx & ? & ? & ? & ? & HL & HR);
  destruct x; simpl in *; simplify_eq.

(** The pool after a rotation that moved the child [c] of [node] up and
    the child [X] of [c] under [node], which now has the children [A] and
    [B]; [Y] is the child that [c] keeps. *)
Ltac rot_finish t path node c A B X Y Hroot :=
  let ns' := fresh "ns" in
  let Hother := fresh "Hother" in
  let Hout := fresh "Hout" in
  let Hlen' := fresh "Hlen" in
  let Hhp := fresh "Hhp" in
  let Hmoved := fresh "Hmoved" in
  let nd1 := fresh "nda" in
  let nd2 := fresh "ndb" in
  let Hnd1 := fresh "Hnda" in
  let Hnd2 := fresh "Hndb" in
  exists (Nd c (Nd node A B) Y);
  split; [done|];
  split; [simpl; solve_Permutation|];
  split; [simpl; solve_Permutation|];
  split;
  [ rewrite idx_plug; simpl; apply (top_rehole path node);
    [ by eapply rep_path_hole_parent | by rewrite Hroot, idx_plug ]
  |];
  match goal with
  | |- rep ?st _ _ ∧ _ => set (ns' := st)
  end;
  assert (∀ j, j ≠ node → j ≠ c → j ≠ idx X → j ≠ hole_parent path →
            ns' !! N.to_nat j = nodes t !! N.to_nat j) as Hother
    by (intros; subst ns';
        by lk_with ltac:(first [assumption | by apply not_eq_sym]));
  assert (∀ j, j ≠ node → j ≠ c → j ≠ idx X → j ∉ pids path →
            ns' !! N.to_nat j = nodes t !! N.to_nat j) as Hout
    by (intros; subst ns';
        by repeat first
             [ rewrite lookup_alter_N_ne by (by apply not_eq_sym)
             | rewrite lookup_alter_hole_parent
                 by (rewrite ?length_alter; assumption) ]);
  assert (length ns' = length (nodes t)) as Hlen'
    by (subst ns'; by rewrite !length_alter);
  assert (∀ nd, nodes t !! N.to_nat (hole_parent path) = Some nd →
            ns' !! N.to_nat (hole_parent path) = Some (relink node c nd))
    as Hhp by (intros ? Hx; subst ns'; lkn; by rewrite Hx);
  assert (∃ nd, ns' !! N.to_nat node = Some nd ∧ parent nd = c ∧
            left nd = idx A ∧ right nd = idx B ∧ (0 ≤ height nd)%Z)
    as (nd1 & Hnd1 & ? & ? & ? & ?)
    by (subst ns'; lkn;
        match goal with
        | Hb : nodes t !! N.to_nat node = Some _ |- _ => rewrite Hb
        end;
        eexists; split; [done|]; simpl; repeat split; hlia);
  assert (∃ nd, ns' !! N.to_nat c = Some nd ∧
            parent nd = hole_parent path ∧
            left nd = node ∧ right nd = idx Y ∧ (0 ≤ height nd)%Z)
    as (nd2 & Hnd2 & ? & ? & ? & ?)
    by (subst ns'; lkn;
        match goal with
        | Hb : nodes t !! N.to_nat c = Some _ |- _ => rewrite Hb
        end;
        eexists; split; [done|]; simpl; repeat split; hlia);
  assert (∀ nd, nodes t !! N.to_nat (idx X) = Some nd →
            ∃ nd', ns' !! N.to_nat (idx X) = Some nd' ∧
              parent nd' = node ∧ left nd' = left nd ∧
              right nd' = right nd ∧
              ((0 ≤ height nd)%Z → (0 ≤ height nd')%Z)) as Hmoved
    by (intros nd Hx; subst ns'; lkn; rewrite Hx; eexists;
        split; [done|]; by simpl);
  clearbody ns';
  match goal with
  | Hnd : NoDup _ |- _ =>
    split;
    [ apply rep_plug; split;
      [ apply (rep_path_rehole (nodes t) ns' path node c);
        [ refine (NoDup_submseteq_mono _ _ _ Hnd); solve_submseteq
        | intros j Hj Hne; apply Hother; [nodup_auto..|done]
        | done.. ]
      | simpl; exists nd2; repeat split; try done;
        [ exists nd1; repeat split; try done;
          first
            [ eapply rep_ext_eq; [|eassumption]; intros j Hj;
              apply Hout; [nodup_auto..|nodup_notin]
            | eapply rep_reparent; [| |exact Hmoved|eassumption];
              [ refine (NoDup_submseteq_mono _ _ _ Hnd); solve_submseteq
              | intros j Hj Hne;
                apply Hout; [nodup_auto..|done|nodup_notin] ] ]
        | eapply rep_ext_eq; [|eassumption]; intros j Hj;
          apply Hout; [nodup_auto..|nodup_notin] ] ]
    | split;
      [ eapply pool_frame; [eassumption| |done..|];
        [ rewrite !ids_plug; simpl; solve_Permutation
        | simpl; intros j Hj; apply Hout; [nodup_auto..|nodup_notin] ]
      | split; [by split|];
        simpl; intros j Hj; apply Hout; [nodup_auto..|nodup_notin] ] ]
  end.

(** The nodes that a rotation of [c], a child of [node], reads: [node], [c]
    and the roots of the three shapes below them; they are five nodes of
    the pool, none of them the parent of the hole. *)
Ltac rot_setup t path node c P Q R :=
  let root_of S :=
    match goal with
    | HS : rep _ _ S |- _ => destruct (rep_root _ _ _ HS) as ([] & ? & ? & ?)
    end in
  root_of P; root_of Q; root_of R;
  simpl in *; simplify_eq;
  assert (node ≠ NULL_NODE) by eauto;
  assert (c ≠ NULL_NODE) by eauto;
  assert (idx P ≠ NULL_NODE) by eauto;
  assert (idx Q ≠ NULL_NODE) by eauto;
  assert (idx R ≠ NULL_NODE) by eauto;
  add_ne node c; add_ne node (idx P); add_ne node (idx Q);
  add_ne node (idx R); add_ne c (idx P); add_ne c (idx Q); add_ne c (idx R);
  add_ne (idx P) (idx Q); add_ne (idx P) (idx R); add_ne (idx Q) (idx R);
  add_hp_ne path node; add_hp_ne path c; add_hp_ne path (idx P);
  add_hp_ne path (idx Q); add_hp_ne path (idx R);
  lk_hyps (nodes t);
  cbn [aabb parent next left right height particle] in *.

(** A leaf has no child to rotate up. *)
Ltac rot_leaf t Hrep :=
  let x := fresh "nd" in
  destruct Hrep as (x & ? & ? & ? & ?); destruct x; simpl in *;
  simplify_eq; lk_hyps (nodes t);
  cbn [aabb parent next left right height particle] in *;
  null_read.

(** [balance] returns a leaf as it is. *)
Ltac bal_leaf Hs :=
  let Hl := fresh in
  destruct Hs as (? & ? & ? & Hl & ?); simplify_eq; unfold isLeaf in *;
  rewrite Hl in *; done.

Lemma balance_spec (t t' : Tree) (path : list step) (s : shape)
    (det fl : list N) (r : N) :
  pool t (ids (plug path s) ++ det) fl →
  root t = idx (plug path s) →
  rep (nodes t) NULL_NODE (plug path s) →
  balance (idx s) t = Ret r t' →
  ∃ s', idx s' = r ∧ ids s' ≡ₚ ids s ∧ leaves s' ≡ₚ leaves s ∧
    root t' = idx (plug path s') ∧
    rep (nodes t') NULL_NODE (plug path s') ∧
    pool t' (ids (plug path s') ++ det) fl ∧ frame t t' ∧
    ∀ j, j ∈ det → nodes t' !! N.to_nat j = nodes t !! N.to_nat j.
Proof.
  intros Hp Hroot Hrep H.
  assert (NoDup (ids s ++ pids path ++ det ++ fl)) as Hnd.
  { pose proof (pool_nodup _ _ _ Hp) as Hnd.
    rewrite ids_plug in Hnd. by rewrite <- !app_assoc in Hnd. }
  assert (N.of_nat (length (nodes t)) ≤ NULL_NODE) as Hlen.
  { pose proof (pool_size _ _ _ Hp). pose proof (pool_cap _ _ _ Hp).
    unfold vsize, UINT_MAX, NULL_NODE in *. lia. }
  assert (∀ i nd, nodes t !! N.to_nat i = Some nd → i ≠ NULL_NODE) as Hnull
    by (intros i nd; by eapply pool_null_not_node).
  pose proof Hrep as Hrep0.
  apply rep_plug in Hrep as [Hpath Hs].
  unfold balance in H. minv H.
  - (* A leaf, or a node of height less than 2. *)
    exists s. by split_and!.
  - (* The right child goes up, its right child goes under the node. *)
    destruct s as [i|node L R]; simpl in *; [bal_leaf Hs|].
    rep_open Hs.
    destruct R as [ri|right_ RL RR]; simpl in *; [rot_leaf t Hrepr|].
    rep_open Hrepr.
    rot_setup t path node right_ L RL RR.
    rot_finish t path node right_ L RR RR RL Hroot.
  - (* The right child goes up, its left child goes under the node. *)
    destruct s as [i|node L R]; simpl in *; [bal_leaf Hs|].
    rep_open Hs.
    destruct R as [ri|right_ RL RR]; simpl in *; [rot_leaf t Hrepr|].
    rep_open Hrepr.
    rot_setup t path node right_ L RL RR.
    rot_finish t path node right_ L RL RL RR Hroot.
  - (* The left child goes up, its right child goes under the node. *)
    destruct s as [i|node L R]; simpl in *; [bal_leaf Hs|].
    rep_open Hs.
    destruct L as [li|left_ LL LR]; simpl in *; [rot_leaf t Hrepl|].
    rep_open Hrepl.
    rot_setup t path node left_ LL LR R.
    rot_finish t path node left_ LR R LR LL Hroot.
  - (* The left child goes up, its left child goes under the node. *)
    destruct s as [i|node L R]; simpl in *; [bal_leaf Hs|].
    rep_open Hs.
    destruct L as [li|left_ LL LR]; simpl in *; [rot_leaf t Hrepl|].
    rep_open Hrepl.
    rot_setup t path node left_ LL LR R.
    rot_finish t path node left_ LL R LL LR Hroot.
  - (* No rotation. *)
    exists s. by split_and!.
Qed.

(** ** Updates that keep the links *)

Lemma same_links_set_height (h : Z) (nd : Node) :
  (0 ≤ h)%Z → same_links nd (set_height h nd).
Proof. by repeat split. Qed.

Lemma same_links_set_aabb (a : AABB) (nd : Node) :
  same_links nd (set_aabb a nd).
Proof. by repeat split. Qed.

Lemma same_links_set_particle (p : N) (nd : Node) :
  same_links nd (set_particle p nd).
Proof. by repeat split. Qed.

Lemma rep_alter (ns : list Node) (par : N) (s : shape) (f : Node → Node)
    (i : N) :
  (∀ nd, same_links nd (f nd)) →
  rep ns par s → rep (alter f (N.to_nat i) ns) par s.
Proof.
  intros Hf. apply rep_ext. intros j nd _ Hj.
  destruct (decide (i = j)) as [->|Hne].
  - exists (f nd). by rewrite lookup_alter_N_eq, Hj.
  - exists nd. rewrite lookup_alter_N_ne by done. by repeat split.
Qed.

(** An update of a live node that keeps its links keeps the tree. *)
Lemma tree_touch (t : Tree) (s : shape) (det fl : list N) (f : Node → Node)
    (i : N) :
  i ∈ ids s ++ det →
  (∀ nd, same_links nd (f nd)) →
  pool t (ids s ++ det) fl →
  rep (nodes t) NULL_NODE s →
  pool (set_nodes (alter f (N.to_nat i) (nodes t)) t) (ids s ++ det) fl ∧
  rep (alter f (N.to_nat i) (nodes t)) NULL_NODE s.
Proof.
  intros Hi Hf Hp Hrep. split; [|by apply rep_alter].
  eapply pool_frame; [exact Hp|done|simpl; by rewrite length_alter|done..|].
  simpl. intros j Hj. apply lookup_alter_N_ne.
  eapply NoDup_app_ne; [apply (pool_nodup _ _ _ Hp)|done..].
Qed.

(** ** The walks back up the tree *)

Lemma fixAfterInsert_spec (n : nat) :
  ∀ (t t' : Tree) (path : list step) (s : shape) (det fl : list N),
  pool t (ids (plug path s) ++ det) fl →
  root t = idx (plug path s) →
  rep (nodes t) NULL_NODE (plug path s) →
  fixAfterInsert n (hole_parent path) t = Ret tt t' →
  ∃ s', ids s' ≡ₚ ids (plug path s) ∧ leaves s' ≡ₚ leaves (plug path s) ∧
    root t' = idx s' ∧ rep (nodes t') NULL_NODE s' ∧
    pool t' (ids s' ++ det) fl ∧ frame t t' ∧
    ∀ j, j ∈ det → nodes t' !! N.to_nat j = nodes t !! N.to_nat j.
Proof.
  induction n as [|n IH]; intros t t' path s det fl Hp Hroot Hrep H.
  all: destruct path as [|st path]; simpl in H.
  1,3: apply mret_Ret in H as [_ ->]; exists s; by split_and!.
  all: assert (sidx st ≠ NULL_NODE) as Hst
    by (eapply (pool_ne_null _ _ _ _ Hp); rewrite ids_plug; simpl;
        rewrite !elem_of_app, elem_of_cons; auto).
  all: apply N.eqb_neq in Hst; rewrite Hst in H.
  1: done.
  apply bind_Ret in H as (r & t1 & Hbal & H).
  rewrite <- (idx_fill st s) in Hbal.
  destruct (balance_spec t t1 path (fill st s) det fl r Hp Hroot Hrep Hbal)
    as (s1 & <- & Hids & Hlv & Hroot1 & Hrep1 & Hp1 & Hf1 & Hdet1).
  assert (N.of_nat (length (nodes t1)) ≤ NULL_NODE) as Hlen.
  { pose proof (pool_size _ _ _ Hp1). pose proof (pool_cap _ _ _ Hp1).
    unfold vsize, UINT_MAX, NULL_NODE in *. lia. }
  pose proof Hrep1 as Hrep1'.
  apply rep_plug in Hrep1' as [Hpath1 Hs1].
  minv H.
  destruct s1 as [i|i l r]; simpl in *.
  { rot_leaf t1 Hs1. }
  rep_open Hs1.
  destruct (rep_root _ _ _ Hrepl) as ([] & ? & ? & ?).
  destruct (rep_root _ _ _ Hrepr) as ([] & ? & ? & ?).
  simpl in *. simplify_eq.
  assert (NoDup (i :: (ids l ++ ids r) ++ pids path ++ det ++ fl)) as Hnd.
  { pose proof (pool_nodup _ _ _ Hp1) as Hnd.
    rewrite ids_plug in Hnd. by rewrite <- !app_assoc in Hnd. }
  add_ne i (idx l). add_ne i (idx r).
  lk_hyps (nodes t1).
  cbn [aabb parent next left right height particle] in *.
  assert (i ∈ ids (plug path (Nd i l r)) ++ det) as Hi
    by (rewrite ids_plug; apply elem_of_app; left; apply list_elem_of_here).
  match type of H with
  | _ _ _ {| nodes := alter ?f2 _ (alter ?f1 _ _) |} = _ =>
    destruct (tree_touch t1 _ det fl f1 i Hi) as [Hp2 Hrep2];
      [intros; first [apply same_links_set_aabb
                     |apply same_links_set_height; hlia]
      |done..|];
    destruct (tree_touch (set_nodes (alter f1 (N.to_nat i) (nodes t1)) t1)
                _ det fl f2 i Hi) as [Hp3 Hrep3];
      [intros; first [apply same_links_set_aabb
                     |apply same_links_set_height; hlia]
      |exact Hp2|exact Hrep2|]
  end.
  destruct (IH _ t' path (Nd i l r) det fl Hp3 Hroot1 Hrep3 H)
    as (s' & Hids' & Hlv' & Hroot' & Hrep' & Hp' & Hf' & Hdet').
  exists s'. split_and!; try done.
  - by rewrite Hids', !ids_plug, Hids.
  - by rewrite Hlv', !leaves_plug, Hlv.
  - eapply frame_trans; [exact Hf1|]. by destruct Hf'.
  - intros j Hj. rewrite Hdet' by done. simpl.
    pose proof (pool_nodup _ _ _ Hp1) as [Hnd1 _]%NoDup_app.
    rewrite !lookup_alter_N_ne; [by apply Hdet1| |].
    all: eapply (NoDup_app_ne _ _ i j Hnd1); [|done].
    all: rewrite ids_plug; apply list_elem_of_here.
Qed.

Lemma fixAfterRemove_spec (n : nat) :
  ∀ (t t' : Tree) (path : list step) (s : shape) (det fl : list N),
  pool t (ids (plug path s) ++ det) fl →
  root t = idx (plug path s) →
  rep (nodes t) NULL_NODE (plug path s) →
  fixAfterRemove n (hole_parent path) t = Ret tt t' →
  ∃ s', ids s' ≡ₚ ids (plug path s) ∧ leaves s' ≡ₚ leaves (plug path s) ∧
    root t' = idx s' ∧ rep (nodes t') NULL_NODE s' ∧
    pool t' (ids s' ++ det) fl ∧ frame t t' ∧
    ∀ j, j ∈ det → nodes t' !! N.to_nat j = nodes t !! N.to_nat j.
Proof.
  induction n as [|n IH]; intros t t' path s det fl Hp Hroot Hrep H.
  all: destruct path as [|st path]; simpl in H.
  1,3: apply mret_Ret in H as [_ ->]; exists s; by split_and!.
  all: assert (sidx st ≠ NULL_NODE) as Hst
    by (eapply (pool_ne_null _ _ _ _ Hp); rewrite ids_plug; simpl;
        rewrite !elem_of_app, elem_of_cons; auto).
  all: apply N.eqb_neq in Hst; rewrite Hst in H.
  1: done.
  apply bind_Ret in H as (r & t1 & Hbal & H).
  rewrite <- (idx_fill st s) in Hbal.
  destruct (balance_spec t t1 path (fill st s) det fl r Hp Hroot Hrep Hbal)
    as (s1 & <- & Hids & Hlv & Hroot1 & Hrep1 & Hp1 & Hf1 & Hdet1).
  assert (N.of_nat (length (nodes t1)) ≤ NULL_NODE) as Hlen.
  { pose proof (pool_size _ _ _ Hp1). pose proof (pool_cap _ _ _ Hp1).
    unfold vsize, UINT_MAX, NULL_NODE in *. lia. }
  pose proof Hrep1 as Hrep1'.
  apply rep_plug in Hrep1' as [Hpath1 Hs1].
  minv H.
  destruct s1 as [i|i l r]; simpl in *.
  { rot_leaf t1 Hs1. }
  rep_open Hs1.
  destruct (rep_root _ _ _ Hrepl) as ([] & ? & ? & ?).
  destruct (rep_root _ _ _ Hrepr) as ([] & ? & ? & ?).
  simpl in *. simplify_eq.
  assert (NoDup (i :: (ids l ++ ids r) ++ pids path ++ det ++ fl)) as Hnd.
  { pose proof (pool_nodup _ _ _ Hp1) as Hnd.
    rewrite ids_plug in Hnd. by rewrite <- !app_assoc in Hnd. }
  add_ne i (idx l). add_ne i (idx r).
  lk_hyps (nodes t1).
  cbn [aabb parent next left right height particle] in *.
  assert (i ∈ ids (plug path (Nd i l r)) ++ det) as Hi
    by (rewrite ids_plug; apply elem_of_app; left; apply list_elem_of_here).
  match type of H with
  | _ _ _ {| nodes := alter ?f2 _ (alter ?f1 _ _) |} = _ =>
    destruct (tree_touch t1 _ det fl f1 i Hi) as [Hp2 Hrep2];
      [intros; first [apply same_links_set_aabb
                     |apply same_links_set_height; hlia]
      |done..|];
    destruct (tree_touch (set_nodes (alter f1 (N.to_nat i) (nodes t1)) t1)
                _ det fl f2 i Hi) as [Hp3 Hrep3];
      [intros; first [apply same_links_set_aabb
                     |apply same_links_set_height; hlia]
      |exact Hp2|exact Hrep2|]
  end.
  destruct (IH _ t' path (Nd i l r) det fl Hp3 Hroot1 Hrep3 H)
    as (s' & Hids' & Hlv' & Hroot' & Hrep' & Hp' & Hf' & Hdet').
  exists s'. split_and!; try done.
  - by rewrite Hids', !ids_plug, Hids.
  - by rewrite Hlv', !leaves_plug, Hlv.
  - eapply frame_trans; [exact Hf1|]. by destruct Hf'.
  - intros j Hj. rewrite Hdet' by done. simpl.
    pose proof (pool_nodup _ _ _ Hp1) as [Hnd1 _]%NoDup_app.
    rewrite !lookup_alter_N_ne; [by apply Hdet1| |].
    all: eapply (NoDup_app_ne _ _ i j Hnd1); [|done].
    all: rewrite ids_plug; apply list_elem_of_here.
Qed.

(** ** The descent *)

Lemma descend_spec (leafAABB : AABB) (n : nat) :
  ∀ (t t' : Tree) (path : list step) (s : shape) (par sib : N),
  rep (nodes t) par s →
  descend n leafAABB (idx s) t = Ret sib t' →
  t' = t ∧ ∃ path' s', plug path' s' = plug path s ∧ idx s' = sib.
Proof.
  induction n as [|n IH]; intros t t' path s par sib Hrep H; simpl in H.
  - minv H. split; [done|]. by exists path, s.
  - apply bind_Ret in H as (leaf & t1 & (nd & Hnd & -> & ->)%rd_Ret & H).
    destruct (isLeaf nd) eqn:Hleaf.
    { apply mret_Ret in H as [-> ->]. split; [done|]. by exists path, s. }
    apply bind_Ret in H as (l_ & t1 & (nd1 & Hnd1 & -> & ->)%rd_Ret & H).
    apply bind_Ret in H as (r_ & t1 & (nd2 & Hnd2 & -> & ->)%rd_Ret & H).
    apply bind_Ret in H as ([[cost costLeft] costRight] & t1 & Hc & H).
    apply descentCosts_readonly in Hc as ->.
    simplify_eq.
    destruct s as [i|i l r]; simpl in *.
    { destruct Hrep as (x & ? & ? & Hl & ?). simplify_eq.
      unfold isLeaf in Hleaf. by rewrite Hl in Hleaf. }
    destruct Hrep as (x & ? & ? & Hl & Hr & ? & Hrepl & Hrepr). simplify_eq.
    unfold descentChoice in H.
    destruct (dlt cost costLeft && dlt cost costRight).
    { apply mret_Ret in H as [-> ->]. split; [done|].
      by exists path, (Nd i l r). }
    destruct (dlt costLeft costRight).
    + rewrite Hl in H.
      apply (IH _ _ (GoL i r :: path) _ _ _ Hrepl) in H. done.
    + rewrite Hr in H.
      apply (IH _ _ (GoR i l :: path) _ _ _ Hrepr) in H. done.
Qed.

Lemma ids_head (s : shape) : ∃ tl, ids s = idx s :: tl.
Proof. destruct s; simpl; eauto. Qed.

Lemma NoDup_idx_cons (s : shape) (l : list N) :
  NoDup (ids s ++ l) → NoDup (idx s :: l).
Proof.
  destruct (ids_head s) as [tl ->]. simpl.
  apply NoDup_submseteq_mono. solve_submseteq.
Qed.

(** ** Insertion and removal of leaves *)

Definition oids (o : option shape) : list N := from_option ids [] o.

Definition oleaves (o : option shape) : list N := from_option leaves [] o.

(** The links of the pool draw the tree [o]. *)
Definition tree_at (t : Tree) (o : option shape) : Prop :=
  match o with
  | None => root t = NULL_NODE
  | Some s => root t = idx s ∧ rep (nodes t) NULL_NODE s
  end.

(** The fragment of [insertLeaf] that puts the new parent between the
    sibling and its old parent, or at the root. *)
Lemma link_Ret (oldParent sibling newParent leaf : N) (t t' : Tree) :
  (if negb (oldParent =? NULL_NODE) then
     opl ← rd oldParent left;
     (if opl =? sibling then wr oldParent (set_left newParent)
      else wr oldParent (set_right newParent));;
     wr newParent (set_left sibling);;
     wr newParent (set_right leaf);;
     wr sibling (set_parent newParent);;
     wr leaf (set_parent newParent)
   else
     wr newParent (set_left sibling);;
     wr newParent (set_right leaf);;
     wr sibling (set_parent newParent);;
     wr leaf (set_parent newParent);;
     modify (set_root newParent)) t = Ret tt t' →
  t' = set_root (if oldParent =? NULL_NODE then newParent else root t)
         (set_nodes
            (alter (set_parent newParent) (N.to_nat leaf)
               (alter (set_parent newParent) (N.to_nat sibling)
                  (alter (set_right leaf) (N.to_nat newParent)
                     (alter (set_left sibling) (N.to_nat newParent)
                        (alter (if oldParent =? NULL_NODE then id
                                else relink sibling newParent)
                           (N.to_nat oldParent) (nodes t)))))) t).
Proof.
  intros H. destruct (oldParent =? NULL_NODE); simpl in H; minv H.
  - by rewrite (list_alter_id id) by done.
  - done.
Qed.

Ltac minv_frag H ::=
  lazymatch type of H with
  | (if negb (_ =? NULL_NODE) then _ else (wr _ (set_left _) ≫= _)) _
    = Ret _ _ =>
    apply link_Ret in H; subst; tsimpl
  end.

Lemma insertLeaf_spec (t t' : Tree) (o : option shape) (det fl : list N)
    (leaf : N) :
  pool t (oids o ++ leaf :: det) fl →
  tree_at t o →
  (∃ nd, nodes t !! N.to_nat leaf = Some nd ∧ left nd = NULL_NODE ∧
         (0 ≤ height nd)%Z) →
  insertLeaf leaf t = Ret tt t' →
  ∃ s' fl', pool t' (ids s' ++ det) fl' ∧ tree_at t' (Some s') ∧
    leaves s' ≡ₚ leaf :: oleaves o ∧ frame t t' ∧
    ∀ j, j ∈ det → nodes t' !! N.to_nat j = nodes t !! N.to_nat j.
Proof.
  intros Hp Ht (ndl & Hleaf & Hll & Hlh) H.
  pose proof (pool_nodup _ _ _ Hp) as Hnd.
  unfold insertLeaf in H. minv H.
  - (* The tree is empty. *)
    apply N.eqb_eq in Heqb. destruct o as [s|]; simpl in *.
    { destruct Ht as [Hroot _]. rewrite Hroot in Heqb.
      exfalso. eapply (pool_ne_null t _ _ (idx s) Hp); [|done].
      rewrite !elem_of_app. left. left. apply idx_in_ids. }
    assert (nd = ndl) as -> by congruence.
    exists (Lf leaf), fl. split_and!; try done.
    + eapply pool_frame; [exact Hp|done|simpl; by rewrite length_alter|done..|].
      simpl. intros j Hj. apply lookup_alter_N_ne. nodup_auto.
    + simpl. exists (set_parent NULL_NODE ndl).
      by rewrite lookup_alter_N_eq, Hleaf.
    + intros j Hj. apply lookup_alter_N_ne. nodup_auto.
  - (* The new parent goes between the sibling and its parent. *)
    destruct o as [s|]; simpl in *; [|by rewrite Ht in Heqb].
    destruct Ht as [Hroot Hrep].
    match goal with
    | Hd : descend _ _ _ _ = Ret ?x _ |- _ =>
      rewrite Hroot in Hd;
      apply (descend_spec _ _ _ _ [] _ _ _ Hrep) in Hd
        as (-> & path & s1 & Hplug & Hsib);
      simpl in Hplug; subst s x
    end.
    match goal with
    | Ha : allocateNode _ = Ret ?x _ |- _ =>
      destruct (allocateNode_spec _ _ _ _ _ Hp Ha)
        as (fl' & Hp1 & Hnew & Hf1 & Hroot1 & Hlive & ndn & Hndn & ? & ? & ? & ?);
      set (newParent := x) in *
    end.
    pose proof (pool_nodup _ _ _ Hp1) as Hnd1.
    rewrite ids_plug in Hnd1. simpl in Hnd1. rewrite <- !app_assoc in Hnd1.
    assert (N.of_nat (length (nodes t1)) ≤ NULL_NODE) as Hlen.
    { pose proof (pool_size _ _ _ Hp1). pose proof (pool_cap _ _ _ Hp1).
      unfold vsize, UINT_MAX, NULL_NODE in *. lia. }
    assert (∀ i nd, nodes t1 !! N.to_nat i = Some nd → i ≠ NULL_NODE) as Hnull
      by (intros ? ?; by eapply pool_null_not_node).
    assert (rep (nodes t1) NULL_NODE (plug path s1)) as Hrep1.
    { eapply rep_ext_eq; [|exact Hrep]. intros j Hj. apply Hlive.
      apply elem_of_app. by left. }
    pose proof Hrep1 as [Hpath1 Hs1]%rep_plug.
    destruct (rep_root _ _ _ Hs1) as ([] & ? & ? & ?).
    assert (nodes t1 !! N.to_nat leaf = Some ndl) as Hleaf1.
    { rewrite Hlive; [done|]. rewrite elem_of_app, elem_of_cons. auto. }
    match goal with
    | Hx : nodes t !! N.to_nat (idx s1) = Some _ |- _ =>
      rewrite <- Hlive in Hx
        by (rewrite ids_plug, !elem_of_app; left; left; apply idx_in_ids)
    end.
    destruct ndl, ndn. simpl in *. simplify_eq.
    assert (newParent ≠ NULL_NODE) by eauto.
    assert (leaf ≠ NULL_NODE) by eauto.
    assert (idx s1 ≠ NULL_NODE) by eauto.
    add_ne newParent leaf. add_ne newParent (idx s1). add_ne leaf (idx s1).
    add_hp_ne path newParent. add_hp_ne path leaf. add_hp_ne path (idx s1).
    lk_hyps (nodes t1).
    cbn [aabb parent next left right height particle] in *.
    match type of H with
    | fixAfterInsert _ _ ?st = _ => set (t2 := st) in *
    end.
    assert (∀ j, j ≠ newParent → j ≠ idx s1 → j ≠ leaf →
              j ≠ hole_parent path →
              nodes t2 !! N.to_nat j = nodes t1 !! N.to_nat j) as Hother
      by (intros; subst t2; cbn [nodes];
          by lk_with ltac:(first [assumption | by apply not_eq_sym])).
    assert (∀ j, j ≠ newParent → j ≠ idx s1 → j ≠ leaf → j ∉ pids path →
              nodes t2 !! N.to_nat j = nodes t1 !! N.to_nat j) as Hout
      by (intros; subst t2; cbn [nodes];
          by repeat first
               [ rewrite lookup_alter_N_ne by (by apply not_eq_sym)
               | rewrite lookup_alter_hole_parent
                   by (rewrite ?length_alter; assumption) ]).
    assert (∀ nd, nodes t1 !! N.to_nat (hole_parent path) = Some nd →
              nodes t2 !! N.to_nat (hole_parent path)
              = Some (relink (idx s1) newParent nd)) as Hhp.
    { intros nd Hx. pose proof (Hnull _ _ Hx) as Hne%N.eqb_neq.
      subst t2. cbn [nodes]. rewrite Hne. lkn. by rewrite Hx. }
    assert (∃ nd, nodes t2 !! N.to_nat newParent = Some nd ∧
              parent nd = hole_parent path ∧ left nd = idx s1 ∧
              right nd = leaf ∧ (0 ≤ height nd)%Z)
      as (ndp & Hndp & ? & ? & ? & ?).
    { subst t2. cbn [nodes]. lkn.
      match goal with
      | Hb : nodes t1 !! N.to_nat newParent = Some _ |- _ => rewrite Hb
      end.
      eexists. split; [done|]. simpl. repeat split; hlia. }
    assert (∃ nd, nodes t2 !! N.to_nat leaf = Some nd ∧
              parent nd = newParent ∧ left nd = NULL_NODE ∧
              (0 ≤ height nd)%Z) as Hleaf2.
    { subst t2. cbn [nodes]. lkn. rewrite Hleaf1.
      eexists. split; [done|]. simpl. repeat split; hlia. }
    assert (∀ nd, nodes t1 !! N.to_nat (idx s1) = Some nd →
              ∃ nd', nodes t2 !! N.to_nat (idx s1) = Some nd' ∧
                parent nd' = newParent ∧ left nd' = left nd ∧
                right nd' = right nd ∧
                ((0 ≤ height nd)%Z → (0 ≤ height nd')%Z)) as Hmoved.
    { intros nd Hx. subst t2. cbn [nodes]. lkn. rewrite Hx. eexists.
      split; [done|]. by simpl. }
    assert (root t2 = top path newParent) as Hroot2.
    { subst t2. cbn [root]. apply (top_rehole path (idx s1)).
      - by eapply rep_path_hole_parent.
      - by rewrite Hroot1, Hroot, idx_plug. }
    assert (length (nodes t2) = length (nodes t1)) as Hlen2
      by (subst t2; cbn [nodes]; by rewrite !length_alter).
    assert (frame t1 t2) as Hf2 by (by split).
    assert (nodeCapacity t2 = nodeCapacity t1 ∧ nodeCount t2 = nodeCount t1 ∧
            freeList t2 = freeList t1) as (Hcap2 & Hcnt2 & Hfl2) by done.
    clearbody t2.
    assert (rep (nodes t2) NULL_NODE (plug path (Nd newParent s1 (Lf leaf))))
      as Hrep2.
    { apply rep_plug. split.
      - apply (rep_path_rehole (nodes t1) _ path (idx s1) newParent);
          [|intros j Hj Hne; apply Hother; [nodup_auto..|done]|done..].
        apply NoDup_idx_cons.
        refine (NoDup_submseteq_mono _ _ _ Hnd1). solve_submseteq.
      - simpl. exists ndp. split_and!; try done.
        eapply rep_reparent; [| |exact Hmoved|exact Hs1].
        + refine (NoDup_submseteq_mono _ _ _ Hnd1). solve_submseteq.
        + intros j Hj Hne. apply Hout; [nodup_auto|done|nodup_auto|nodup_notin]. }
    assert (pool t2 (ids (plug path (Nd newParent s1 (Lf leaf))) ++ det) fl')
      as Hp2.
    { eapply pool_frame; [exact Hp1| |done..|].
      - rewrite !ids_plug. simpl. solve_Permutation.
      - intros j Hj. apply Hout; [nodup_auto..|nodup_notin]. }
    assert (root t2 = idx (plug path (Nd newParent s1 (Lf leaf)))) as Hroot2'
      by (by rewrite idx_plug).
    destruct (fixAfterInsert_spec fuel t2 t' (GoR newParent s1 :: path)
                (Lf leaf) det fl' Hp2 Hroot2' Hrep2 H)
      as (s' & Hids' & Hlv' & Hroot' & Hrep' & Hp' & Hf' & Hdet').
    exists s', fl'. split_and!; try done.
    + rewrite Hlv'. simpl. rewrite !leaves_plug. simpl. solve_Permutation.
    + eapply frame_trans; [exact Hf1|]. by eapply frame_trans.
    + intros j Hj. rewrite Hdet' by done.
      rewrite Hout; [|nodup_auto..|nodup_notin].
      apply Hlive. rewrite elem_of_app, elem_of_cons. auto.
Qed.

Lemma top_in_pids (st : step) (path : list step) (i : N) :
  top (st :: path) i ∈ pids (st :: path).
Proof.
  revert st i. induction path as [|st' path IH]; intros st i; simpl.
  - apply list_elem_of_here.
  - apply list_elem_of_further, elem_of_app. right. apply (IH st' (sidx st)).
Qed.

(** The fragment of [removeLeaf] that reads the sibling of [leaf]. *)
Lemma sibling_Ret (x leaf parent_ sibling : N) (t t' : Tree) :
  (if x =? leaf then rd parent_ right else rd parent_ left) t
  = Ret sibling t' →
  ∃ nd, nodes t !! N.to_nat parent_ = Some nd ∧
        sibling = (if x =? leaf then right nd else left nd) ∧ t' = t.
Proof. intros H. destruct (x =? leaf); minv H; eauto. Qed.

Lemma fixAfterRemove_null (n : nat) : fixAfterRemove n NULL_NODE = mret tt.
Proof. by destruct n. Qed.

(** The fragment of [removeLeaf] that puts the sibling in the place of the
    parent. *)
Lemma unlink_Ret (n : nat) (grandParent parent_ sibling : N) (t t' : Tree) :
  (if negb (grandParent =? NULL_NODE) then
     gl ← rd grandParent left;
     (if gl =? parent_ then wr grandParent (set_left sibling)
      else wr grandParent (set_right sibling));;
     wr sibling (set_parent grandParent);;
     freeNode parent_;;
     fixAfterRemove n grandParent
   else
     modify (set_root sibling);;
     wr sibling (set_parent NULL_NODE);;
     freeNode parent_) t = Ret tt t' →
  (freeNode parent_;; fixAfterRemove n grandParent)
    (set_root (if grandParent =? NULL_NODE then sibling else root t)
       (set_nodes
          (alter (set_parent grandParent) (N.to_nat sibling)
             (alter (if grandParent =? NULL_NODE then id
                     else relink parent_ sibling)
                (N.to_nat grandParent) (nodes t))) t)) = Ret tt t'.
Proof.
  intros H. destruct (N.eqb_spec grandParent NULL_NODE) as [->|Hne];
    simpl in H.
  - rewrite fixAfterRemove_null.
    apply bind_Ret in H as ([] & t1 & ->%modify_Ret & H).
    apply bind_Ret in H as ([] & t2 & (nd & _ & ->)%wr_Ret & H).
    rewrite (list_alter_id id) by done.
    rewrite <- H. unfold mbind, M_bind, bindM. tsimpl.
    by destruct (freeNode parent_ _) as [[] ?| | |].
  - apply bind_Ret in H as (gl & t1 & (nd & Hnd & -> & ->)%rd_Ret & H).
    apply bind_Ret in H as ([] & t2 & ->%(relink_if_Ret _ _ _ _ _ _ Hnd) & H).
    apply bind_Ret in H as ([] & t3 & (nd' & _ & ->)%wr_Ret & H).
    done.
Qed.

Ltac minv_frag H ::=
  lazymatch type of H with
  | (if negb (_ =? NULL_NODE) then _ else (wr _ (set_left _) ≫= _)) _
    = Ret _ _ =>
    apply link_Ret in H; subst; tsimpl
  | (if negb (_ =? NULL_NODE) then _ else (modify _ ≫= _)) _ = Ret _ _ =>
    apply unlink_Ret in H; tsimpl
  | (if _ =? _ then rd ?p right else rd ?p left) _ = Ret _ _ =>
    let nd := fresh "nd" in
    apply sibling_Ret in H as (nd & H & ? & ?); subst; tsimpl
  end.

(** [removeLeaf] of a leaf of the tree.  When the leaf is the root the tree
    becomes empty and no node is freed; otherwise the parent of the leaf, and
    no other node, goes to the head of the free list. *)
Lemma removeLeaf_full (t t' : Tree) (s : shape) (det fl : list N) (leaf : N) :
  pool t (ids s ++ det) fl →
  tree_at t (Some s) →
  leaf ∈ leaves s →
  removeLeaf leaf t = Ret tt t' →
  ∃ o' fl', pool t' (oids o' ++ leaf :: det) fl' ∧ tree_at t' o' ∧
    leaf :: oleaves o' ≡ₚ leaves s ∧ frame t t' ∧
    (∀ j, j ∈ det → nodes t' !! N.to_nat j = nodes t !! N.to_nat j) ∧
    (∃ nd, nodes t' !! N.to_nat leaf = Some nd ∧ left nd = NULL_NODE ∧
           (0 ≤ height nd)%Z) ∧
    ((leaf = root t ∧ o' = None ∧ fl' = fl ∧ freeList t' = freeList t) ∨
     (leaf ≠ root t ∧
      ∃ nd, nodes t !! N.to_nat leaf = Some nd ∧
        fl' = parent nd :: fl ∧ freeList t' = parent nd ∧
        leaf :: parent nd :: oids o' ≡ₚ ids s)).
Proof.
  intros Hp [Hroot Hrep] Hleaf H.
  destruct (leaf_plug _ _ Hleaf) as [path0 ->]. clear Hleaf.
  pose proof (pool_nodup _ _ _ Hp) as Hnd.
  rewrite ids_plug in Hnd. simpl in Hnd. rewrite <- !app_assoc in Hnd.
  unfold removeLeaf in H. minv H.
  - (* The leaf is the root. *)
    apply N.eqb_eq in Heqb. rewrite Hroot, idx_plug in Heqb.
    destruct path0 as [|st path].
    2:{ exfalso. apply NoDup_cons in Hnd as [Hnotin _]. apply Hnotin.
        apply elem_of_app. left. rewrite Heqb at 1. apply top_in_pids. }
    simpl in *. destruct Hrep as (nd & ? & ? & ? & ?).
    exists None, fl. split_and!; try done; [|by eauto|].
    { eapply pool_frame; [exact Hp|done..]. }
    left. by rewrite Hroot.
  - (* The sibling takes the place of the parent. *)
    destruct path0 as [|st path]; simpl in Hroot.
    { rewrite Hroot, N.eqb_refl in Heqb. done. }
    assert (N.of_nat (length (nodes t)) ≤ NULL_NODE) as Hlen.
    { pose proof (pool_size _ _ _ Hp). pose proof (pool_cap _ _ _ Hp).
      unfold vsize, UINT_MAX, NULL_NODE in *. lia. }
    assert (∀ i nd, nodes t !! N.to_nat i = Some nd → i ≠ NULL_NODE) as Hnull
      by (intros ? ?; by eapply pool_null_not_node).
    pose proof Hrep as [Hpath0 Hl]%rep_plug.
    simpl in Hl, Hpath0.
    destruct Hl as (ndl & Hndl & Hlp & Hll & Hlh).
    destruct Hpath0 as ((ndp & Hndp & Hpp & Hph & Hlinks) & Hsib & Hpath).
    simpl in Hnd.
    assert ((if left ndp =? leaf then right ndp else left ndp)
            = idx (ssib st)) as Hsibling.
    { destruct st as [i r|i l]; simpl in *; destruct Hlinks as [Hl Hr].
      - by rewrite Hl, N.eqb_refl.
      - assert (left ndp ≠ leaf) as ->%N.eqb_neq; [|done].
        rewrite Hl. apply not_eq_sym. nodup_auto. }
    clear Hlinks.
    set (p := sidx st) in *. set (sib := ssib st) in *.
    simplify_eq. rewrite Hlp in *. simplify_eq. rewrite Hsibling, Hpp in *.
    set (p := sidx st) in *.
    match goal with
    | Hfree : freeNode _ ?st = _ |- _ => set (t2 := st) in *
    end.
    destruct (rep_root _ _ _ Hsib) as (nds & Hnds & ? & ?).
    assert (p ≠ NULL_NODE) by eauto.
    assert (idx sib ≠ NULL_NODE) by eauto.
    assert (leaf ≠ NULL_NODE) by eauto.
    add_ne p (idx sib). add_ne p leaf. add_ne leaf (idx sib).
    add_hp_ne path p. add_hp_ne path (idx sib). add_hp_ne path leaf.
    assert (∀ j, j ≠ idx sib → j ≠ hole_parent path →
              nodes t2 !! N.to_nat j = nodes t !! N.to_nat j) as Hother
      by (intros; subst t2; cbn [nodes];
          by lk_with ltac:(first [assumption | by apply not_eq_sym])).
    assert (∀ j, j ≠ idx sib → j ∉ pids path →
              nodes t2 !! N.to_nat j = nodes t !! N.to_nat j) as Hout
      by (intros; subst t2; cbn [nodes];
          by repeat first
               [ rewrite lookup_alter_N_ne by (by apply not_eq_sym)
               | rewrite lookup_alter_hole_parent
                   by (rewrite ?length_alter; assumption) ]).
    assert (∀ nd, nodes t !! N.to_nat (hole_parent path) = Some nd →
              nodes t2 !! N.to_nat (hole_parent path)
              = Some (relink p (idx sib) nd)) as Hhp.
    { intros x Hx. pose proof (Hnull _ _ Hx) as Hne%N.eqb_neq.
      subst t2. cbn [nodes]. rewrite Hne. lkn. by rewrite Hx. }
    assert (∀ nd, nodes t !! N.to_nat (idx sib) = Some nd →
              ∃ nd', nodes t2 !! N.to_nat (idx sib) = Some nd' ∧
                parent nd' = hole_parent path ∧ left nd' = left nd ∧
                right nd' = right nd ∧
                ((0 ≤ height nd)%Z → (0 ≤ height nd')%Z)) as Hmoved.
    { intros x Hx. subst t2. cbn [nodes]. lkn. rewrite Hx. eexists.
      split; [done|]. by simpl. }
    assert (root t2 = top path (idx sib)) as Hroot2.
    { subst t2. cbn [root]. apply (top_rehole path p).
      - by eapply rep_path_hole_parent.
      - by rewrite Hroot, idx_plug, idx_fill. }
    assert (length (nodes t2) = length (nodes t)) as Hlen2
      by (subst t2; cbn [nodes]; by rewrite !length_alter).
    assert (frame t t2) as Hf2 by (by split).
    assert (nodeCapacity t2 = nodeCapacity t ∧ nodeCount t2 = nodeCount t ∧
            freeList t2 = freeList t) as (Hcap2 & Hcnt2 & Hfl2) by done.
    clearbody t2.
    assert (rep (nodes t2) NULL_NODE (plug path sib)) as Hrep2.
    { apply rep_plug. split.
      - apply (rep_path_rehole (nodes t) _ path p (idx sib));
          [|intros j Hj Hne; apply Hother; [nodup_auto|done]|done..].
        refine (NoDup_submseteq_mono _ _ _ Hnd). solve_submseteq.
      - eapply rep_reparent; [| |exact Hmoved|exact Hsib].
        + refine (NoDup_submseteq_mono _ _ _ Hnd). solve_submseteq.
        + intros j Hj Hne. apply Hout; [done|nodup_notin]. }
    assert (pool t2 (p :: ids (plug path sib) ++ leaf :: det) fl) as Hp2.
    { eapply pool_frame; [exact Hp| |done..|].
      - simpl. rewrite !ids_plug, ids_fill. simpl. fold p sib.
        solve_Permutation.
      - intros j Hj. apply Hout; [nodup_auto|nodup_notin]. }
    match goal with
    | Hfree : freeNode _ _ = _ |- _ =>
      destruct (freeNode_spec _ _ _ _ _ Hp2 Hfree)
        as (Hp0 & Hf0 & Hroot0 & Hkeep)
    end.
    assert (rep (nodes t0) NULL_NODE (plug path sib)) as Hrep0.
    { eapply rep_ext_eq; [|exact Hrep2]. intros j Hj. apply Hkeep.
      rewrite ids_plug in Hj. apply not_eq_sym. nodup_auto. }
    assert (root t0 = idx (plug path sib)) as Hroot0'
      by (by rewrite Hroot0, idx_plug).
    destruct (fixAfterRemove_spec fuel t0 t' path sib (leaf :: det) (p :: fl)
                Hp0 Hroot0' Hrep0 H)
      as (s' & Hids' & Hlv' & Hroot' & Hrep' & Hp' & Hf' & Hdet').
    assert (∀ j, j ∈ leaf :: det →
              nodes t' !! N.to_nat j = nodes t !! N.to_nat j) as Hdet.
    { intros j Hj. rewrite Hdet' by done.
      rewrite Hkeep by (apply not_eq_sym; nodup_auto).
      apply Hout; [nodup_auto|nodup_notin]. }
    exists (Some s'), (p :: fl). split_and!; try done.
    + simpl. rewrite Hlv', !leaves_plug, leaves_fill. simpl. fold sib.
      solve_Permutation.
    + eapply frame_trans; [exact Hf2|]. by eapply frame_trans.
    + intros j Hj. apply Hdet. by apply list_elem_of_further.
    + match goal with
      | Hx : nodes t !! N.to_nat leaf = Some ?x |- _ => exists x
      end.
      rewrite Hdet by apply list_elem_of_here. done.
    + right. split; [by apply N.eqb_neq in Heqb|].
      exists nd. rewrite Hlp. split_and!; try done.
      * by destruct (pool_chain _ _ _ Hp') as [? _].
      * simpl. rewrite Hids', !ids_plug, ids_fill. simpl. fold p sib.
        solve_Permutation.
Qed.

Lemma removeLeaf_spec (t t' : Tree) (s : shape) (det fl : list N) (leaf : N) :
  pool t (ids s ++ det) fl →
  tree_at t (Some s) →
  leaf ∈ leaves s →
  removeLeaf leaf t = Ret tt t' →
  ∃ o' fl', pool t' (oids o' ++ leaf :: det) fl' ∧ tree_at t' o' ∧
    leaf :: oleaves o' ≡ₚ leaves s ∧ frame t t' ∧
    (∀ j, j ∈ det → nodes t' !! N.to_nat j = nodes t !! N.to_nat j) ∧
    ∃ nd, nodes t' !! N.to_nat leaf = Some nd ∧ left nd = NULL_NODE ∧
          (0 ≤ height nd)%Z.
Proof.
  intros Hp Ht Hleaf H.
  destruct (removeLeaf_full t t' s det fl leaf Hp Ht Hleaf H)
    as (o' & fl' & ? & ? & ? & ? & ? & ? & _).
  by exists o', fl'.
Qed.

(** ** Updates of one node that keep its links *)

(** The tree [t'] is the tree [t] but for the node [i], which has kept its
    links. *)
Record touched (i : N) (t t' : Tree) : Prop := mkTouched {
  touched_root : root t' = root t;
  touched_nodeCount : nodeCount t' = nodeCount t;
  touched_nodeCapacity : nodeCapacity t' = nodeCapacity t;
  touched_freeList : freeList t' = freeList t;
  touched_frame : frame t t';
  touched_length : length (nodes t') = length (nodes t);
  touched_other :
    ∀ j, j ≠ i → nodes t' !! N.to_nat j = nodes t !! N.to_nat j;
  touched_node :
    ∀ nd, nodes t !! N.to_nat i = Some nd →
      ∃ nd', nodes t' !! N.to_nat i = Some nd' ∧ same_links nd nd'
}.

Lemma same_links_refl (nd : Node) : same_links nd nd.
Proof. by repeat split. Qed.

Lemma same_links_trans (nd1 nd2 nd3 : Node) :
  same_links nd1 nd2 → same_links nd2 nd3 → same_links nd1 nd3.
Proof.
  intros (? & ? & ? & ?) (? & ? & ? & ?). repeat split; try congruence. auto.
Qed.

Lemma touched_refl (i : N) (t : Tree) : touched i t t.
Proof.
  split; try done. intros nd Hnd. exists nd.
  split; [done|apply same_links_refl].
Qed.

Lemma touched_trans (i : N) (t1 t2 t3 : Tree) :
  touched i t1 t2 → touched i t2 t3 → touched i t1 t3.
Proof.
  intros [] []. split; try congruence.
  - by eapply frame_trans.
  - intros j Hj. rewrite touched_other1 by done. auto.
  - intros nd Hnd. destruct (touched_node0 nd Hnd) as (nd2 & Hnd2 & ?).
    destruct (touched_node1 nd2 Hnd2) as (nd3 & Hnd3 & ?).
    exists nd3. split; [done|]. by eapply same_links_trans.
Qed.

Lemma touched_alter (i : N) (f : Node → Node) (t : Tree) :
  (∀ nd, same_links nd (f nd)) →
  touched i t (set_nodes (alter f (N.to_nat i) (nodes t)) t).
Proof.
  intros Hf. split; try done; simpl.
  - by rewrite length_alter.
  - intros j Hj. by apply lookup_alter_N_ne.
  - intros nd Hnd. exists (f nd). by rewrite lookup_alter_N_eq, Hnd.
Qed.

Lemma touched_pool (i : N) (t t' : Tree) (live fl : list N) :
  touched i t t' → i ∈ live → pool t live fl → pool t' live fl.
Proof.
  intros [] Hi Hp. eapply pool_frame; [exact Hp|done..|].
  intros j Hj. apply touched_other0. intros ->.
  by eapply (NoDup_app_ne _ _ i i (pool_nodup _ _ _ Hp)).
Qed.

Lemma touched_rep (i : N) (t t' : Tree) (par : N) (s : shape) :
  touched i t t' → rep (nodes t) par s → rep (nodes t') par s.
Proof.
  intros [] Hrep. eapply rep_ext; [|exact Hrep]. intros j nd _ Hnd.
  destruct (decide (j = i)) as [->|Hne]; [by apply touched_node0|].
  exists nd. rewrite touched_other0 by done. split; [done|].
  apply same_links_refl.
Qed.

Lemma touched_tree_at (i : N) (t t' : Tree) (o : option shape) :
  touched i t t' → tree_at t o → tree_at t' o.
Proof.
  intros Ht. destruct o as [s|]; simpl.
  - intros [Hroot Hrep]. split; [by rewrite (touched_root _ _ _ Ht)|].
    by eapply touched_rep.
  - intros Hroot. by rewrite (touched_root _ _ _ Ht).
Qed.

Lemma mfor_from_inv {A} (P : Tree → Tree → Prop) (body : N → A → M A) :
  (∀ t, P t t) →
  (∀ t1 t2 t3, P t1 t2 → P t2 t3 → P t1 t3) →
  (∀ i acc t a t', body i acc t = Ret a t' → P t t') →
  ∀ n i acc t a t', mfor_from n i body acc t = Ret a t' → P t t'.
Proof.
  intros Hrefl Htrans Hbody. induction n as [|n IH]; intros i acc t a t' H;
    simpl in H.
  - apply mret_Ret in H as [_ ->]. apply Hrefl.
  - apply bind_Ret in H as (acc' & t1 & H1 & H2).
    eapply Htrans; [by eapply Hbody|by eapply IH].
Qed.

Lemma mfor_touched {A} (node : N) (body : N → A → M A) (lo hi : N) (acc a : A)
    (t t' : Tree) :
  (∀ i acc t a t', body i acc t = Ret a t' → touched node t t') →
  mfor lo hi body acc t = Ret a t' → touched node t t'.
Proof.
  intros Hbody. unfold mfor.
  apply (mfor_from_inv (touched node));
    [apply touched_refl|apply touched_trans|done].
Qed.

(** Proves that a tree given by updates of the node [i] in place is
    [touched i]. *)
Ltac solve_touched :=
  repeat first
    [ apply touched_refl
    | match goal with
      | |- touched ?i ?t {| nodes := alter ?f (N.to_nat ?i) ?ns |} =>
        apply (touched_trans i t (set_nodes ns t));
        [unfold set_nodes
        |apply (touched_alter i f (set_nodes ns t)); intros;
          first [ apply same_links_set_aabb | apply same_links_set_particle
                | by apply same_links_set_height ]]
      end
    | match goal with
      | |- touched _ ?t {| nodes := nodes ?t |} =>
        destruct t; apply touched_refl
      end ].

(** ** The invariant of the tree *)

(** The pool is split between the nodes of the tree and the free list, the
    links draw the tree, and the particle map sends the particles to the
    leaves, one particle to each leaf. *)
Definition wf (t : Tree) : Prop :=
  ∃ o fl, pool t (oids o) fl ∧ tree_at t o ∧
    (map_to_list (particleMap t)).*2 ≡ₚ oleaves o ∧ 0 < dimension t.

Lemma tree_at_ext (t t' : Tree) (o : option shape) :
  root t' = root t →
  (∀ j, j ∈ oids o → nodes t' !! N.to_nat j = nodes t !! N.to_nat j) →
  tree_at t o → tree_at t' o.
Proof.
  intros Hroot Hext. destruct o as [s|]; simpl in *; [|congruence].
  intros [? Hrep]. split; [congruence|]. by eapply rep_ext_eq.
Qed.

Lemma frame_dim (t t' : Tree) : frame t t' → dimension t' = dimension t.
Proof. by intros []. Qed.

Lemma insertParticle_spec (t t' : Tree) (particle_ : N)
    (lowerBound_ upperBound_ : list double) :
  wf t →
  insertParticle particle_ lowerBound_ upperBound_ t = Ret tt t' →
  wf t' ∧ particleMap t !! particle_ = None ∧
  ∃ node, particleMap t' = <[particle_ := node]> (particleMap t).
Proof.
  intros (o & fl & Hp & Ht & Hmap & Hdim) H.
  unfold insertParticle in H. minv H.
  apply bool_decide_eq_false, eq_None_not_Some in Heqb.
  match goal with
  | Ha : allocateNode _ = Ret ?x _ |- _ =>
    destruct (allocateNode_spec _ _ _ _ _ Hp Ha)
      as (fl0 & Hp0 & Hnew & Hf0 & Hroot0 & Hlive0 & ndn & Hndn & _ & Hnl & _ & Hnh);
    set (node := x) in *
  end.
  assert (tree_at t0 o) as Ht0 by (by eapply tree_at_ext).
  assert (touched node t0 t1) as Ht01.
  { eapply mfor_touched; [|eassumption]. intros i acc u b u' Hb. cbv beta in Hb.
    minv Hb. solve_touched. }
  assert (touched node t1 t2) as Ht12.
  { eapply mfor_touched; [|eassumption]. intros i acc u b u' Hb. cbv beta in Hb.
    minv Hb. solve_touched. }
  match goal with
  | Hi : insertLeaf _ ?st = _ |- _ =>
    assert (touched node t2 st) as Ht23 by solve_touched;
    set (t4 := st) in *
  end.
  assert (touched node t0 t4) as Ht04
    by (eapply touched_trans; [|exact Ht23]; by eapply touched_trans).
  clearbody t4.
  assert (pool t4 (oids o ++ [node]) fl0) as Hp4.
  { eapply pool_perm; [|eapply (touched_pool node t0 t4); [done| |exact Hp0]].
    - by rewrite Permutation_app_comm.
    - apply list_elem_of_here. }
  destruct (touched_node _ _ _ Ht04 _ Hndn) as (nd4 & Hnd4 & _ & Hl4 & _ & Hh4).
  destruct (insertLeaf_spec t4 t3 o [] fl0 node Hp4
              (touched_tree_at _ _ _ _ Ht04 Ht0))
    as (s' & fl' & Hp3 & Ht3 & Hlv & Hf3 & _); [|done|].
  { exists nd4. split_and!; [done|congruence|]. apply Hh4. by rewrite Hnh. }
  assert (particleMap t3 = particleMap t) as Hpm.
  { rewrite (frame_particleMap _ _ Hf3).
    rewrite (frame_particleMap _ _ (touched_frame _ _ _ Ht04)).
    by rewrite (frame_particleMap _ _ Hf0). }
  assert (dimension t3 = dimension t) as Hd.
  { rewrite (frame_dim _ _ Hf3), (frame_dim _ _ (touched_frame _ _ _ Ht04)).
    by rewrite (frame_dim _ _ Hf0). }
  rewrite Hpm, Heqb, Hd.
  rewrite app_nil_r in Hp3.
  assert (node ∈ ids s') as Hin.
  { apply leaves_in_ids. rewrite Hlv. apply list_elem_of_here. }
  split; [|by eauto].
  exists (Some s'), fl'. split_and!; simpl.
  - eapply pool_frame; [exact Hp3|done|simpl; by rewrite length_alter|done..|].
    simpl. intros j Hj. apply lookup_alter_N_ne.
    by eapply (NoDup_app_ne _ _ _ _ (pool_nodup _ _ _ Hp3)).
  - destruct Ht3 as [Hroot3 Hrep3]. split; [done|].
    apply rep_alter; [|done]. apply same_links_set_particle.
  - rewrite map_to_list_insert by done. simpl. by rewrite Hlv, Hmap.
  - done.
Qed.

Lemma assertLeafIndex_readonly (node : N) : readonly (assertLeafIndex node).
Proof. unfold assertLeafIndex. solve_readonly. Qed.

(** [removeLeaf] and [freeNode] of a leaf of the tree, as [removeParticle]
    and [removeAll] run them. *)
Lemma remove_free_spec (t t' : Tree) (s : shape) (fl : list N) (node : N) :
  pool t (ids s) fl →
  tree_at t (Some s) →
  node ∈ leaves s →
  (removeLeaf node;; freeNode node) t = Ret tt t' →
  ∃ o' fl', pool t' (oids o') fl' ∧ tree_at t' o' ∧
    node :: oleaves o' ≡ₚ leaves s ∧ frame t t'.
Proof.
  intros Hp Ht Hnode H.
  apply bind_Ret in H as ([] & t1 & Hrem & Hfree).
  rewrite <- (app_nil_r (ids s)) in Hp.
  destruct (removeLeaf_spec _ _ _ _ _ _ Hp Ht Hnode Hrem)
    as (o' & fl' & Hp1 & Ht1 & Hlv & Hf1 & _ & _).
  assert (pool t1 (node :: oids o') fl') as Hp1'.
  { eapply pool_perm; [|exact Hp1]. by rewrite Permutation_app_comm. }
  destruct (freeNode_spec _ _ _ _ _ Hp1' Hfree) as (Hp2 & Hf2 & Hroot2 & Hkeep).
  exists o', (node :: fl'). split_and!; try done.
  - eapply tree_at_ext; [done| |exact Ht1]. intros j Hj. apply Hkeep.
    intros ->. pose proof (pool_nodup _ _ _ Hp1') as Hnd.
    apply NoDup_app in Hnd as [Hnd _]. by apply NoDup_cons in Hnd as [? _].
  - by eapply frame_trans.
Qed.

Lemma removeParticle_spec (t t' : Tree) (particle_ : N) :
  wf t →
  removeParticle particle_ t = Ret tt t' →
  wf t' ∧ is_Some (particleMap t !! particle_) ∧
  particleMap t' = delete particle_ (particleMap t).
Proof.
  intros (o & fl & Hp & Ht & Hmap & Hdim) H.
  unfold removeParticle in H.
  apply bind_Ret in H as (pm & t1 & [-> ->]%gets_Ret & H).
  destruct (particleMap t !! particle_) as [node|] eqn:Hnode; [|done].
  apply bind_Ret in H as ([] & t1 & ->%modify_Ret & H).
  apply bind_Ret in H as ([] & t2 & Ha & H).
  apply assertLeafIndex_readonly in Ha as ->.
  pose proof (map_to_list_delete _ _ _ Hnode) as Hdel.
  assert (node ∈ oleaves o) as Hin.
  { rewrite <- Hmap, <- Hdel. simpl. apply list_elem_of_here. }
  destruct o as [s|]; simpl in *; [|by apply elem_of_nil in Hin].
  set (t1 := set_particleMap (delete particle_ (particleMap t)) t) in *.
  assert (pool t1 (ids s) fl) as Hp1
    by (eapply pool_frame; [exact Hp|done..]).
  destruct (remove_free_spec t1 t' s fl node Hp1 Ht Hin H)
    as (o' & fl' & Hp' & Ht' & Hlv & Hf').
  split; [|split; [done|by rewrite (frame_particleMap _ _ Hf')]].
  exists o', fl'. split_and!; try done.
  - rewrite (frame_particleMap _ _ Hf'). simpl.
    apply (Permutation_cons_inv (a := node)).
    by rewrite Hlv, <- Hmap, <- Hdel.
  - by rewrite (frame_dim _ _ Hf').
Qed.

Lemma leaves_not_nil (s : shape) : leaves s ≠ [].
Proof.
  induction s as [i|i l IHl r IHr]; simpl; [done|].
  by intros [? ?]%app_eq_nil.
Qed.

Lemma removeEntries_spec (entries : list (N * N)) :
  ∀ (t t' : Tree) (o : option shape) (fl : list N),
  pool t (oids o) fl →
  tree_at t o →
  entries.*2 ≡ₚ oleaves o →
  removeEntries entries t = Ret tt t' →
  ∃ fl', pool t' [] fl' ∧ root t' = NULL_NODE ∧ frame t t'.
Proof.
  induction entries as [|[p node] entries IH]; intros t t' o fl Hp Ht Hperm H;
    simpl in *.
  - apply mret_Ret in H as [_ ->].
    destruct o as [s|]; simpl in *.
    + apply Permutation_nil_l in Hperm. symmetry in Hperm.
      by apply leaves_not_nil in Hperm.
    + exists fl. split_and!; try done.
  - apply bind_Ret in H as ([] & t1 & Ha & H).
    apply assertLeafIndex_readonly in Ha as ->.
    assert (node ∈ oleaves o) as Hin
      by (rewrite <- Hperm; apply list_elem_of_here).
    destruct o as [s|]; simpl in *; [|by apply elem_of_nil in Hin].
    assert (∃ t2, (removeLeaf node;; freeNode node) t = Ret tt t2 ∧
                  removeEntries entries t2 = Ret tt t') as (t2 & H1 & H2).
    { apply bind_Ret in H as ([] & u1 & Hr & H).
      apply bind_Ret in H as ([] & u2 & Hf & H).
      exists u2. split; [|done].
      unfold mbind, M_bind, bindM. by rewrite Hr. }
    destruct (remove_free_spec _ _ s fl node Hp Ht Hin H1)
      as (o' & fl' & Hp' & Ht' & Hlv & Hf').
    destruct (IH t2 t' o' fl' Hp' Ht') as (fl'' & ? & ? & ?); [|done|].
    + apply (Permutation_cons_inv (a := node)). by rewrite Hlv.
    + exists fl''. split_and!; try done. by eapply frame_trans.
Qed.

Lemma removeAll_spec (t t' : Tree) (order : list (N * N)) :
  wf t →
  order ≡ₚ map_to_list (particleMap t) →
  removeAll order t = Ret tt t' →
  wf t' ∧ particleMap t' = ∅ ∧ root t' = NULL_NODE ∧ nodeCount t' = 0.
Proof.
  intros (o & fl & Hp & Ht & Hmap & Hdim) Horder H.
  unfold removeAll in H.
  apply bind_Ret in H as ([] & t1 & H & ->%modify_Ret).
  destruct (removeEntries_spec order t t1 o fl Hp Ht) as (fl' & Hp' & Hroot & Hf);
    [by rewrite Horder|done|].
  split_and!; try done.
  - exists None, fl'. split_and!; try done.
    + eapply pool_frame; [exact Hp'|done..].
    + simpl. by rewrite (frame_dim _ _ Hf).
  - simpl. by rewrite (pool_count _ _ _ Hp').
Qed.

(** ** The constructor *)

Lemma Tree_new_spec (dimension_ : N) (skinThickness_ : double) (nParticles : N)
    (touchIsOverlap_ : bool) (t : Tree) :
  nParticles ≤ UINT_MAX →
  Tree_new dimension_ skinThickness_ nParticles touchIsOverlap_ = Ret tt t →
  wf t ∧ 2 ≤ dimension_ ∧ 0 < nParticles ∧
  root t = NULL_NODE ∧ nodeCount t = 0 ∧ nodeCapacity t = nParticles ∧
  particleMap t = ∅ ∧ dimension t = dimension_ ∧
  skinThickness t = skinThickness_ ∧ touchIsOverlap t = touchIsOverlap_.
Proof.
  intros Hmax H. unfold Tree_new, Tree_body, Tree_members in H. minv H.
  unfold mfor in Hm. apply thread_loop in Hm as (ns' & -> & Hlen & Hin & Hout).
  tsimpl. rewrite length_resize in Hlen.
  assert (0 < nParticles) as Hpos.
  { destruct (decide (nParticles = 0)) as [->|]; [|lia].
    apply lookup_lt_Some in Hm0. simpl in *. lia. }
  assert (usub nParticles 1 = nParticles - 1) as Hlast by (by apply usub_1).
  rewrite Hlast in *. apply N.ltb_ge in Heqb.
  split_and!; try done.
  set (ns1 := alter _ _ _).
  exists None, (N.of_nat <$> seq (N.to_nat 0) (S (N.to_nat (nParticles - 1)))).
  split_and!; try done; [|simpl; lia].
  split; tsimpl; unfold oids; cbn [from_option app length].
  - unfold vsize, ns1. rewrite !length_alter. lia.
  - done.
  - apply chain_range. intros k Hk.
    destruct (decide (k = 0 + N.of_nat (N.to_nat (nParticles - 1)))) as [->|Hne].
    + replace (0 + N.of_nat (N.to_nat (nParticles - 1))) with (nParticles - 1)
        by lia.
      unfold ns1. lk. rewrite Hm0. simpl. eauto.
    + destruct (Hin k) as (nd' & Hnd' & Hn' & Hh'); [lia|].
      unfold ns1. lk. rewrite Hnd'. exists nd'. split; [done|].
      split; [done|]. rewrite Hn'. apply uadd_1. unfold UINT_MAX in *. lia.
  - apply (NoDup_fmap_2 _). apply NoDup_seq.
  - intros i Hi. apply list_elem_of_fmap. exists (N.to_nat i).
    split; [lia|]. apply elem_of_seq. lia.
  - intros i Hi. by apply elem_of_nil in Hi.
  - done.
  - rewrite length_fmap, length_seq. lia.
Qed.

(** ** What never changes the tree *)

Lemma queryLoop_readonly (particle_ : N) (aabb_ : AABB) (n : nat) :
  ∀ stack particles, readonly (queryLoop n particle_ aabb_ stack particles).
Proof.
  induction n as [|n IH]; intros [|node stack] particles; simpl;
    solve_readonly.
Qed.

Lemma query_particle_aabb_readonly (particle_ : N) (aabb_ : AABB) :
  readonly (query_particle_aabb particle_ aabb_).
Proof.
  unfold query_particle_aabb. apply readonly_bind; [solve_readonly|].
  intros r. apply queryLoop_readonly.
Qed.

Lemma query_particle_readonly (particle_ : N) :
  readonly (query_particle particle_).
Proof.
  unfold query_particle. apply readonly_bind; [solve_readonly|]. intros pm.
  destruct (pm !! particle_); [|solve_readonly].
  apply readonly_bind; [solve_readonly|]. intros a.
  apply query_particle_aabb_readonly.
Qed.

Lemma query_aabb_readonly (aabb_ : AABB) : readonly (query_aabb aabb_).
Proof.
  unfold query_aabb. apply readonly_bind; [solve_readonly|]. intros sz.
  destruct (Nat.eqb sz 0); [solve_readonly|].
  apply query_particle_aabb_readonly.
Qed.

Lemma computeHeight_at_readonly (n : nat) :
  ∀ node, readonly (computeHeight_at n node).
Proof.
  induction n as [|n IH]; intros node; simpl; solve_readonly.
Qed.

Lemma validateStructure_readonly (n : nat) :
  ∀ node, readonly (validateStructure n node).
Proof.
  induction n as [|n IH]; intros node; simpl; solve_readonly.
Qed.

Lemma validateMetrics_readonly (n : nat) :
  ∀ node, readonly (validateMetrics n node).
Proof.
  induction n as [|n IH]; intros node; simpl; solve_readonly.
Qed.

Lemma countFree_readonly (n : nat) :
  ∀ freeIndex freeCount, readonly (countFree n freeIndex freeCount).
Proof.
  induction n as [|n IH]; intros freeIndex freeCount; simpl; solve_readonly.
Qed.

Lemma validate_readonly : readonly validate.
Proof.
  unfold validate, getHeight, computeHeight.
  pose proof computeHeight_at_readonly. pose proof validateStructure_readonly.
  pose proof validateMetrics_readonly. pose proof countFree_readonly.
  solve_readonly.
Qed.

(** ** updateParticle *)

Lemma vget_nil {A} (i : N) (x : A) : vget [] i ≠ Good x.
Proof. unfold vget. by rewrite nth_N_lookup, lookup_nil. Qed.

Lemma contains_from_empty (this : AABB) (n : nat) (i : N) (b : bool) :
  contains_from this AABB_default n i = Good b → n = 0%nat ∧ b = true.
Proof.
  destruct n; simpl; [by intros [= <-]|].
  intros (al & Hal & _)%cbind_Good. by apply vget_nil in Hal.
Qed.

Lemma updateParticle_spec (t t' : Tree) (particle_ : N)
    (lowerBound_ upperBound_ : list double) (alwaysReinsert b : bool) :
  0 < dimension t →
  updateParticle particle_ lowerBound_ upperBound_ alwaysReinsert t
  = Ret b t' →
  b = false ∧ t' = t ∧ alwaysReinsert = false ∧
  ∃ node nd, particleMap t !! particle_ = Some node ∧
    nodes t !! N.to_nat node = Some nd ∧ lowerBound (aabb nd) = [].
Proof.
  intros Hdim H. unfold updateParticle in H.
  apply bind_Ret in H as (d & t1 & [-> ->]%gets_Ret & H).
  destruct (negb _ && negb _); [done|].
  apply bind_Ret in H as (pm & t1 & [-> ->]%gets_Ret & H).
  destruct (particleMap t !! particle_) as [node|] eqn:Hnode; [|done].
  apply bind_Ret in H as ([] & t1 & Ha & H).
  apply assertLeafIndex_readonly in Ha as ->.
  apply bind_Ret in H as (size_ & t1 & Hs & H).
  assert (t1 = t) as ->.
  { revert Hs. apply readonly_mfor. intros i acc. solve_readonly. }
  apply bind_Ret in H as (aabb_ & t1 & [Hbox ->]%lift_Ret & H).
  change (AABB_of_bounds lowerBound_ upperBound_) with (Good AABB_default) in Hbox.
  injection Hbox as <-.
  apply bind_Ret in H as (within & t1 & Hw & H).
  destruct within.
  - apply mret_Ret in H as [-> ->].
    destruct alwaysReinsert; simpl in Hw; [by apply mret_Ret in Hw as [? _]|].
    apply bind_Ret in Hw as (na & t2 & (nd & Hnd & -> & ->)%rd_Ret & Hw).
    apply lift_Ret in Hw as [Hc ->]. split_and!; try done.
    exists node, nd. split_and!; try done.
    unfold contains in Hc. apply cbind_Good in Hc as ([] & _ & Hc).
    apply contains_from_empty in Hc as [Hc _].
    by destruct (lowerBound (aabb nd)).
  - exfalso.
    apply bind_Ret in H as ([] & t2 & _ & H).
    apply bind_Ret in H as (aabb' & t3 & H & _).
    unfold mfor in H. rewrite N.sub_0_r in H.
    destruct (N.to_nat (dimension t)) as [|n] eqn:Hn; [lia|].
    simpl in H. apply bind_Ret in H as (acc & t4 & H & _).
    apply bind_Ret in H as (s & t5 & _ & H).
    apply bind_Ret in H as (sz & t6 & _ & H).
    apply bind_Ret in H as (x & t7 & [Hx _]%lift_Ret & _).
    by apply vget_nil in Hx.
Qed.

(** ** Counting the nodes *)

Lemma ids_leaves_length (s : shape) :
  length (ids s) = (2 * length (leaves s) - 1)%nat.
Proof.
  induction s as [i|i l IHl r IHr]; simpl; [done|].
  rewrite !length_app, IHl, IHr.
  pose proof (leaves_not_nil l). pose proof (leaves_not_nil r).
  destruct (leaves l), (leaves r); simpl in *; try done. lia.
Qed.

Lemma pool_count_free (t : Tree) (live fl : list N) :
  pool t live fl → nodeCount t + N.of_nat (length fl) = nodeCapacity t.
Proof. intros [_ _ _ _ _ _ Hcount Htot]. lia. Qed.

Lemma chain_unique (ns : list Node) (head : N) (fl1 fl2 : list N) :
  chain ns head fl1 → chain ns head fl2 →
  (∀ i nd, ns !! N.to_nat i = Some nd → i ≠ NULL_NODE) →
  fl1 = fl2.
Proof.
  intros H1 H2 Hnull. revert head fl2 H1 H2.
  induction fl1 as [|i fl1 IH]; intros head [|j fl2]; simpl.
  - done.
  - intros -> (<- & nd & Hnd & _). by apply Hnull in Hnd.
  - intros (-> & nd & Hnd & _) ->. by apply Hnull in Hnd.
  - intros (-> & nd1 & Hnd1 & _ & Hc1) (<- & nd2 & Hnd2 & _ & Hc2).
    simplify_eq. f_equal. by eapply IH.
Qed.

(** In a well-formed tree the live nodes and the free list fill the pool,
    and a tree of [n] particles has [2 n - 1] nodes. *)
Lemma wf_counts (t : Tree) :
  wf t →
  ∃ fl, chain (nodes t) (freeList t) fl ∧ NoDup fl ∧
    nodeCount t + N.of_nat (length fl) = nodeCapacity t ∧
    nodeCount t = N.of_nat (2 * size (particleMap t) - 1).
Proof.
  intros (o & fl & Hp & Ht & Hmap & _). exists fl. split_and!.
  - apply (pool_chain _ _ _ Hp).
  - by pose proof (pool_nodup _ _ _ Hp) as (_ & _ & ?)%NoDup_app.
  - by eapply pool_count_free.
  - rewrite (pool_count _ _ _ Hp). f_equal.
    rewrite <- length_map_to_list, <- (length_fmap snd), Hmap.
    destruct o as [s|]; simpl; [apply ids_leaves_length|done].
Qed.

(** ** Checking a concrete tree *)

Fixpoint chain_check (ns : list Node) (head : N) (fl : list N) : bool :=
  match fl with
  | [] => head =? NULL_NODE
  | i :: fl' =>
    (head =? i) &&
    match ns !! N.to_nat i with
    | Some nd => (height nd =? -1)%Z && chain_check ns (next nd) fl'
    | None => false
    end
  end.

Fixpoint rep_check (ns : list Node) (par : N) (s : shape) : bool :=
  match s with
  | Lf i =>
    match ns !! N.to_nat i with
    | Some nd =>
      (parent nd =? par) && (left nd =? NULL_NODE) && (0 <=? height nd)%Z
    | None => false
    end
  | Nd i l r =>
    match ns !! N.to_nat i with
    | Some nd =>
      (parent nd =? par) && (left nd =? idx l) && (right nd =? idx r) &&
      (0 <=? height nd)%Z && rep_check ns i l && rep_check ns i r
    | None => false
    end
  end.

Definition pool_check (t : Tree) (live fl : list N) : bool :=
  (vsize (nodes t) =? nodeCapacity t) && (nodeCapacity t <=? UINT_MAX) &&
  chain_check (nodes t) (freeList t) fl &&
  bool_decide (NoDup (live ++ fl)) &&
  forallb (λ i, bool_decide (N.of_nat i ∈ live ++ fl))
    (seq 0 (N.to_nat (nodeCapacity t))) &&
  forallb (λ i, i <? nodeCapacity t) live &&
  (nodeCount t =? N.of_nat (length live)) &&
  (N.of_nat (length live + length fl) =? nodeCapacity t).

Definition tree_check (t : Tree) (o : option shape) : bool :=
  match o with
  | None => root t =? NULL_NODE
  | Some s => (root t =? idx s) && rep_check (nodes t) NULL_NODE s
  end.

Definition wf_check (t : Tree) (o : option shape) (fl : list N) : bool :=
  pool_check t (oids o) fl && tree_check t o &&
  bool_decide ((map_to_list (particleMap t)).*2 ≡ₚ oleaves o) &&
  (0 <? dimension t).

Lemma chain_check_sound (ns : list Node) (fl : list N) :
  ∀ head, chain_check ns head fl = true → chain ns head fl.
Proof.
  induction fl as [|i fl IH]; intros head; simpl.
  - by intros ?%N.eqb_eq.
  - intros [?%N.eqb_eq H]%andb_prop. split; [done|].
    destruct (ns !! N.to_nat i) as [nd|]; [|done].
    apply andb_prop in H as [?%Z.eqb_eq ?]. eauto.
Qed.

Lemma rep_check_sound (ns : list Node) (s : shape) :
  ∀ par, rep_check ns par s = true → rep ns par s.
Proof.
  induction s as [i|i l IHl r IHr]; intros par; simpl;
    destruct (ns !! N.to_nat i) as [nd|]; try done; intros H;
    repeat match goal with
           | H : _ && _ = true |- _ => apply andb_prop in H as [? ?]
           end;
    exists nd; rewrite ?N.eqb_eq, ?Z.leb_le in *; split_and!; auto.
Qed.

Lemma pool_check_sound (t : Tree) (live fl : list N) :
  pool_check t live fl = true → pool t live fl.
Proof.
  unfold pool_check. intros H.
  repeat match goal with
         | H : _ && _ = true |- _ => apply andb_prop in H as [? ?]
         end.
  split.
  - by apply N.eqb_eq.
  - by apply N.leb_le.
  - by apply chain_check_sound.
  - by eapply bool_decide_eq_true_1.
  - intros i Hi.
    match goal with
    | Hf : forallb _ (seq _ _) = true |- _ =>
      rewrite forallb_forall in Hf;
      specialize (Hf (N.to_nat i)); rewrite N2Nat.id in Hf;
      eapply bool_decide_eq_true_1; apply Hf; apply in_seq; lia
    end.
  - intros i Hi.
    match goal with
    | Hf : forallb _ live = true |- _ =>
      rewrite forallb_forall in Hf; apply N.ltb_lt, Hf;
      by apply list_elem_of_In
    end.
  - by apply N.eqb_eq.
  - by apply N.eqb_eq.
Qed.

Lemma tree_check_sound (t : Tree) (o : option shape) :
  tree_check t o = true → tree_at t o.
Proof.
  destruct o as [s|]; simpl.
  - intros [?%N.eqb_eq ?%rep_check_sound]%andb_prop. done.
  - by intros ?%N.eqb_eq.
Qed.

Lemma wf_check_sound (t : Tree) (o : option shape) (fl : list N) :
  wf_check t o fl = true → wf t.
Proof.
  unfold wf_check. intros H.
  repeat match goal with
         | H : _ && _ = true |- _ => apply andb_prop in H as [? ?]
         end.
  exists o, fl. split_and!.
  - by apply pool_check_sound.
  - by apply tree_check_sound.
  - by eapply bool_decide_eq_true_1.
  - by apply N.ltb_lt.
Qed.

(** ** Rebuilding the tree *)

(** A node of a tree is a leaf, with no left child, or an inner node, whose
    left child is a node of the pool. *)
Lemma rep_cases (ns : list Node) (s : shape) :
  ∀ (par j : N), NoDup (ids s) → rep ns par s → j ∈ ids s →
  ∃ nd, ns !! N.to_nat j = Some nd ∧ (0 ≤ height nd)%Z ∧
    ((j ∈ leaves s ∧ left nd = NULL_NODE) ∨
     ((j ∉ leaves s) ∧ is_Some (ns !! N.to_nat (left nd)))).
Proof.
  induction s as [i|i l IHl r IHr]; intros par j Hnd; simpl.
  - intros (nd & ? & ? & ? & ?) ->%list_elem_of_singleton.
    exists nd. split_and!; try done. left. split; [apply list_elem_of_here|done].
  - intros (nd & Hi & Hp & Hl & Hr & Hh & Hrl & Hrr).
    apply NoDup_cons in Hnd as [Hnotin Hnd].
    apply NoDup_app in Hnd as (Hndl & Hdisj & Hndr).
    rewrite elem_of_cons, elem_of_app. intros [->|[Hj|Hj]].
    + exists nd. split_and!; try done. right. split.
      * rewrite elem_of_app. intros [?%leaves_in_ids|?%leaves_in_ids];
          apply Hnotin, elem_of_app; auto.
      * rewrite Hl. destruct (rep_root _ _ _ Hrl) as (x & ? & _). eauto.
    + destruct (IHl _ j Hndl Hrl Hj) as (x & ? & ? & Hc). exists x.
      split_and!; try done. destruct Hc as [[? ?]|[? ?]]; [left|right].
      * split; [|done]. apply elem_of_app. by left.
      * split; [|done]. rewrite elem_of_app.
        intros [?|Hx%leaves_in_ids]; [done|]. by eapply Hdisj.
    + destruct (IHr _ j Hndr Hrr Hj) as (x & ? & ? & Hc). exists x.
      split_and!; try done. destruct Hc as [[? ?]|[? ?]]; [left|right].
      * split; [|done]. apply elem_of_app. by right.
      * split; [|done]. rewrite elem_of_app.
        intros [Hx%leaves_in_ids|?]; [|done]. by eapply Hdisj.
Qed.

Lemma take_S_insert {A} (l : list A) (c : nat) (x : A) :
  (c < length l)%nat → take (S c) (<[c := x]> l) = take c l ++ [x].
Proof.
  revert c. induction l as [|y l IH]; intros [|c] Hc; simpl in *; try lia.
  - by rewrite take_0.
  - f_equal. apply IH. lia.
Qed.

(** The body of the first loop of [rebuild]. *)
Definition collectBody (i : N) (acc : list N * N) : M (list N * N) :=
  let '(nodeIndices, count) := acc in
  h ← rd i height;
  if (h <? 0)%Z then mret (nodeIndices, count)
  else
    leaf ← rd i isLeaf;
    if (leaf : bool) then
      wr i (set_parent NULL_NODE);;
      nodeIndices ← lift (vset nodeIndices count i);
      mret (nodeIndices, uadd count 1)
    else
      freeNode i;;
      mret (nodeIndices, count).

(** The state of the first loop of [rebuild] on the tree [s] of [t0] before
    it looks at the node [i]: the leaves below [i] are collected, the inner
    nodes below [i] are free, the other nodes are as they were. *)
Definition collecting (t0 : Tree) (s : shape) (i : N) (t : Tree)
    (nodeIndices : list N) (count : N) : Prop :=
  ∃ pend fl,
    pool t (take (N.to_nat count) nodeIndices ++ pend) fl ∧
    (N.to_nat count ≤ length nodeIndices)%nat ∧
    N.of_nat (length nodeIndices) = nodeCount t0 ∧
    (∀ j, j ∈ pend →
       i ≤ j ∧ j ∈ ids s ∧ nodes t !! N.to_nat j = nodes t0 !! N.to_nat j) ∧
    (∀ j, j ∈ take (N.to_nat count) nodeIndices →
       j < i ∧ j ∈ leaves s ∧ rep (nodes t) NULL_NODE (Lf j)) ∧
    (∀ j, j ∈ leaves s →
       j ∈ take (N.to_nat count) nodeIndices ∨ j ∈ pend) ∧
    frame t0 t ∧ nodeCapacity t = nodeCapacity t0.

Lemma vset_Good {A} (v v' : list A) (i : N) (x : A) :
  vset v i x = Good v' → i < vsize v ∧ v' = <[N.to_nat i := x]> v.
Proof.
  unfold vset. destruct (nth_N v i) as [y|] eqn:Hy; [|done].
  intros [= <-]. split; [by eapply nth_N_Some|done].
Qed.

Lemma vget_Good {A} (v : list A) (i : N) (x : A) :
  vget v i = Good x → v !! N.to_nat i = Some x.
Proof.
  unfold vget. rewrite nth_N_lookup. by destruct (v !! N.to_nat i); intros [= ->].
Qed.

Lemma pool_count_max (t : Tree) (live fl : list N) :
  pool t live fl → nodeCount t ≤ UINT_MAX.
Proof. intros [_ ? _ _ _ _ ? ?]. lia. Qed.

Lemma collectBody_spec (t0 : Tree) (s : shape) (fl0 : list N) (i : N) (t t' : Tree)
    (nodeIndices nodeIndices' : list N) (count count' : N) :
  pool t0 (ids s) fl0 →
  rep (nodes t0) NULL_NODE s →
  i < nodeCapacity t0 →
  collecting t0 s i t nodeIndices count →
  collectBody i (nodeIndices, count) t = Ret (nodeIndices', count') t' →
  collecting t0 s (N.succ i) t' nodeIndices' count'.
Proof.
  intros Hp0 Hrep0 Hi
    (pend & fl & Hp & Hc & Hlen & Hpend & Hdone & Hlv & Hf & Hcap) H.
  pose proof (pool_nodup _ _ _ Hp) as Hnd.
  pose proof (pool_nodup _ _ _ Hp0) as [Hnds _]%NoDup_app.
  assert (∀ j nd, nodes t0 !! N.to_nat j = Some nd → j ≠ NULL_NODE) as Hnull0
    by (intros ? ?; by eapply pool_null_not_node).
  assert (i ∉ take (N.to_nat count) nodeIndices) as Hnotdone.
  { intros [? _]%Hdone. lia. }
  assert (i ∈ pend ∨ i ∈ fl) as Hwhere.
  { pose proof (pool_cover _ _ _ Hp i) as Hcov. rewrite Hcap in Hcov.
    specialize (Hcov Hi). rewrite !elem_of_app in Hcov. tauto. }
  assert (i ∈ fl → ∀ nd, nodes t !! N.to_nat i = Some nd →
          height nd = (-1)%Z) as Hfree.
  { intros Hin nd Hnd'.
    destruct (chain_height _ _ _ (pool_chain _ _ _ Hp) i Hin) as (x & ? & ?).
    congruence. }
  assert (i ∈ pend → ∀ nd, nodes t !! N.to_nat i = Some nd →
          (0 ≤ height nd)%Z ∧
          ((i ∈ leaves s ∧ left nd = NULL_NODE) ∨
           ((i ∉ leaves s) ∧ left nd ≠ NULL_NODE))) as Hlive.
  { intros Hin nd Hnd'. destruct (Hpend i Hin) as (_ & Hids & Heq).
    destruct (rep_cases _ _ _ i Hnds Hrep0 Hids) as (x & Hx & ? & Hcases).
    assert (x = nd) as -> by congruence. split; [done|].
    destruct Hcases as [?|[? [y Hy]]]; [by left|right]. split; [done|].
    by eapply Hnull0. }
  assert (∀ j, j ∈ pend → j ≠ i → N.succ i ≤ j) as Hnext.
  { intros j [? _]%Hpend ?. lia. }
  simpl in H. minv H.
  - (* A free node. *)
    injection H as -> ->. destruct Hwhere as [Hin|Hin].
    { destruct (Hlive Hin _ Hm) as [? _]. apply Z.ltb_lt in Heqb. lia. }
    exists pend, fl. split_and!; try done.
    + intros j Hj. destruct (Hpend j Hj) as (? & ? & ?). split_and!; try done.
      apply Hnext; [done|]. intros ->.
      by apply (NoDup_app_ne _ _ i i Hnd); [apply elem_of_app; right|..].
    + intros j Hj. destruct (Hdone j Hj) as (? & ? & ?). split_and!; try done.
      lia.
  - (* A leaf. *)
    injection H as -> ->.
    repeat match goal with
           | Hx : nodes t !! N.to_nat i = Some ?x,
             Hy : nodes t !! N.to_nat i = Some ?y |- _ =>
             assert (y = x) as -> by congruence; clear Hy
           end.
    apply Z.ltb_ge in Heqb.
    destruct Hwhere as [Hin|Hin]; [|rewrite (Hfree Hin _ Hm) in Heqb; lia].
    destruct (Hlive Hin _ Hm) as [Hh [[Hleaf Hl]|[_ Hl]]];
      [|by apply N.eqb_eq in Heqb0].
    apply vset_Good in Hm2 as [Hlt ->]. unfold vsize in Hlt.
    assert (uadd count 1 = count + 1) as ->.
    { apply uadd_1. pose proof (pool_count_max _ _ _ Hp0). lia. }
    unfold collecting.
    replace (N.to_nat (count + 1)) with (S (N.to_nat count)) by lia.
    rewrite take_S_insert by lia.
    apply elem_of_Permutation in Hin as [pend' Hperm].
    assert (i ∉ pend') as Hipend.
    { apply NoDup_app in Hnd as [Hnd _]. apply NoDup_app in Hnd as (_ & _ & Hnd).
      rewrite Hperm in Hnd. by apply NoDup_cons in Hnd as [? _]. }
    assert (i ∉ fl) as Hifl.
    { intros Hx. apply (NoDup_app_ne _ _ i i Hnd); [|done..].
      apply elem_of_app. right. rewrite Hperm. apply list_elem_of_here. }
    exists pend', fl. split_and!; try done.
    + eapply pool_frame; [exact Hp| |simpl; by rewrite length_alter|done..|].
      * rewrite Hperm. by rewrite <- app_assoc.
      * simpl. intros j Hj. apply lookup_alter_N_ne. by intros ->.
    + rewrite length_insert. lia.
    + by rewrite length_insert.
    + intros j Hj. assert (j ≠ i) by (by intros ->).
      destruct (Hpend j) as (? & ? & ?); [rewrite Hperm; by right|].
      split_and!; try done.
      * apply Hnext; [|done]. rewrite Hperm. by right.
      * simpl. by rewrite lookup_alter_N_ne.
    + intros j [Hj| ->%list_elem_of_singleton]%elem_of_app.
      * destruct (Hdone j Hj) as (? & ? & (x & ? & ? & ? & ?)).
        split_and!; [lia|done|]. exists x. simpl.
        rewrite lookup_alter_N_ne by lia. done.
      * split_and!; [lia|done|]. exists (set_parent NULL_NODE nd). simpl.
        by rewrite lookup_alter_N_eq, Hm.
    + intros j Hj. rewrite elem_of_app, list_elem_of_singleton.
      destruct (Hlv j Hj) as [?|Hx]; [by auto|]. rewrite Hperm in Hx.
      apply elem_of_cons in Hx as [->|?]; auto.
    + by destruct Hf.
  - (* An inner node. *)
    injection H as -> ->.
    repeat match goal with
           | Hx : nodes t !! N.to_nat i = Some ?x,
             Hy : nodes t !! N.to_nat i = Some ?y |- _ =>
             assert (y = x) as -> by congruence; clear Hy
           end.
    apply Z.ltb_ge in Heqb.
    destruct Hwhere as [Hin|Hin]; [|rewrite (Hfree Hin _ Hm) in Heqb; lia].
    destruct (Hlive Hin _ Hm) as [Hh [[_ Hl]|[Hleaf _]]].
    { unfold isLeaf in Heqb0. by rewrite Hl in Heqb0. }
    apply elem_of_Permutation in Hin as [pend' Hperm].
    assert (i ∉ pend') as Hipend.
    { apply NoDup_app in Hnd as [Hnd _]. apply NoDup_app in Hnd as (_ & _ & Hnd).
      rewrite Hperm in Hnd. by apply NoDup_cons in Hnd as [? _]. }
    assert (pool t (i :: take (N.to_nat count) nodeIndices ++ pend') fl) as Hp'.
    { eapply pool_perm; [|exact Hp]. rewrite Hperm. solve_Permutation. }
    match goal with
    | Hfr : freeNode _ _ = _ |- _ =>
      destruct (freeNode_spec _ _ _ _ _ Hp' Hfr) as (Hp1 & Hf1 & _ & Hkeep)
    end.
    exists pend', (i :: fl). split_and!; try done.
    + intros j Hj. assert (j ≠ i) by (by intros ->).
      destruct (Hpend j) as (? & ? & ?); [rewrite Hperm; by right|].
      split_and!; try done.
      * apply Hnext; [|done]. rewrite Hperm. by right.
      * by rewrite Hkeep.
    + intros j Hj.
      destruct (Hdone j Hj) as (? & ? & (x & ? & ? & ? & ?)).
      split_and!; [lia|done|]. exists x. rewrite Hkeep by lia. done.
    + intros j Hj. destruct (Hlv j Hj) as [?|Hx]; [by auto|].
      rewrite Hperm in Hx. apply elem_of_cons in Hx as [->|?]; [done|auto].
    + by eapply frame_trans.
    + pose proof (pool_total _ _ _ Hp1) as H1.
      pose proof (pool_total _ _ _ Hp') as H2. simpl in H1, H2. lia.
Qed.

Lemma collect_loop (t0 : Tree) (s : shape) (fl0 : list N) (n : nat) :
  pool t0 (ids s) fl0 →
  rep (nodes t0) NULL_NODE s →
  ∀ (i : N) (t t' : Tree) (nodeIndices nodeIndices' : list N) (count count' : N),
  i + N.of_nat n = nodeCapacity t0 →
  collecting t0 s i t nodeIndices count →
  mfor_from n i collectBody (nodeIndices, count) t
  = Ret (nodeIndices', count') t' →
  collecting t0 s (nodeCapacity t0) t' nodeIndices' count'.
Proof.
  intros Hp0 Hrep0. induction n as [|n IH];
    intros i t t' nodeIndices nodeIndices' count count' Hi Hcol H; simpl in H.
  - apply mret_Ret in H as [[= -> ->] ->]. by replace (nodeCapacity t0) with i by lia.
  - apply bind_Ret in H as ([idxs c] & t1 & Hbody & H).
    eapply (IH (N.succ i)); [lia| |exact H].
    eapply collectBody_spec; [done..|lia|done|done].
Qed.

(** What a loop keeps of its accumulator. *)
Lemma mfor_from_range {A} (P : A → Prop) (body : N → A → M A) (n : nat) :
  ∀ (i : N) (acc acc' : A) (t t' : Tree),
  (∀ k a u a' u', i ≤ k < i + N.of_nat n → P a →
     body k a u = Ret a' u' → P a') →
  P acc → mfor_from n i body acc t = Ret acc' t' → P acc'.
Proof.
  induction n as [|n IH]; intros i acc acc' t t' Hbody Hacc H; simpl in H.
  - by apply mret_Ret in H as [-> _].
  - apply bind_Ret in H as (a & t1 & H1 & H2).
    eapply (IH (N.succ i)); [|by eapply (Hbody i); [lia|..]|exact H2].
    intros k a0 u a' u' Hk. apply Hbody. lia.
Qed.

Lemma minimalPair_readonly (nodeIndices : list N) (count : N) :
  readonly (minimalPair nodeIndices count).
Proof. unfold minimalPair. solve_readonly. Qed.

(** The pair that [minimalPair] returns is [(-1, -1)] or two positions
    [i < j] of the working set. *)
Definition pair_ok (count : N) (acc : Z * Z * double) : Prop :=
  let '(iMin, jMin, _) := acc in
  (iMin = (-1)%Z ∧ jMin = (-1)%Z) ∨
  ∃ i j, i < j ∧ j < count ∧ iMin = int_of_uint i ∧ jMin = int_of_uint j.

Lemma minimalPair_spec (nodeIndices : list N) (count : N) (t t' : Tree)
    (iMin jMin : Z) :
  count ≤ UINT_MAX →
  minimalPair nodeIndices count t = Ret (iMin, jMin) t' →
  t' = t ∧
  ((iMin = (-1)%Z ∧ jMin = (-1)%Z) ∨
   ∃ i j, i < j ∧ j < count ∧ iMin = int_of_uint i ∧ jMin = int_of_uint j).
Proof.
  intros Hmax H. split; [by eapply minimalPair_readonly|].
  unfold minimalPair in H.
  apply bind_Ret in H as ([[i0 j0] c0] & t1 & H & [[= -> ->] _]%mret_Ret).
  change (pair_ok count (i0, j0, c0)).
  unfold mfor in H. revert H.
  apply (mfor_from_range (pair_ok count)); [|by left].
  intros i acc u acc' u' Hi Hacc Hbody.
  apply bind_Ret in Hbody as (ni & u1 & _ & Hbody).
  apply bind_Ret in Hbody as (aabbi & u2 & _ & Hbody).
  unfold mfor in Hbody. revert Hbody.
  apply (mfor_from_range (pair_ok count)); [|done].
  intros j [[iM jM] mc] v [[iM' jM'] mc'] v' Hj Hacc' Hin.
  minv Hin; simplify_eq; [|done].
  right. exists i, j. split_and!; try done.
  - assert (uadd i 1 = i + 1) as Hu by (apply uadd_1; unfold UINT_MAX in *; lia).
    rewrite Hu in Hj. lia.
  - assert (uadd i 1 = i + 1) as Hu by (apply uadd_1; unfold UINT_MAX in *; lia).
    rewrite Hu in Hj. lia.
Qed.

Lemma index_of_int_of_uint (i : N) (len : N) :
  len ≤ 2 ^ 32 → index_of_int (int_of_uint i) < len → i < 2 ^ 32 →
  index_of_int (int_of_uint i) = i.
Proof.
  unfold index_of_int, int_of_uint. intros Hlen Hlt Hi.
  destruct (N.ltb_spec i (2 ^ 31)) as [Hsmall|Hbig].
  - rewrite Z.mod_small by lia. lia.
  - exfalso.
    replace ((Z.of_N i - 2 ^ 32) mod 2 ^ 64)%Z
      with (Z.of_N i - 2 ^ 32 + 2 ^ 64)%Z in Hlt.
    + lia.
    + symmetry. rewrite <- (Z.mod_add _ 1) by lia. apply Z.mod_small. lia.
Qed.

Lemma index_of_minus_one (len : N) :
  len ≤ 2 ^ 32 → ¬ index_of_int (-1) < len.
Proof. unfold index_of_int. intros Hlen. vm_compute (Z.to_N _). lia. Qed.

(** *** The working set *)

Lemma insert_Permutation {A} (l : list A) (i : nat) (x y : A) :
  l !! i = Some x → <[i:=y]> l ≡ₚ y :: delete i l.
Proof.
  revert i. induction l as [|z l IH]; intros [|i]; simpl; try done.
  intros Hi. rewrite (IH i Hi). apply perm_swap.
Qed.

(** [W[j] = W[count - 1]; W[i] = S; count--] takes two members out of the
    working set and puts [S] in. *)
Lemma swap_remove {A} (F : list A) (i j : nat) (S Fi Fj Fl : A) :
  (i < j < length F)%nat →
  F !! i = Some Fi → F !! j = Some Fj → F !! (length F - 1)%nat = Some Fl →
  ∃ D, F ≡ₚ Fi :: Fj :: D ∧
       take (length F - 1) (<[i:=S]> (<[j:=Fl]> F)) ≡ₚ S :: D.
Proof.
  intros Hij Hi Hj Hl.
  destruct (decide (j = (length F - 1)%nat)) as [->|Hne].
  - rewrite (list_insert_id F _ Fl Hl).
    rewrite take_insert_lt by lia.
    assert (take (length F - 1) F !! i = Some Fi) as Hi'
      by (rewrite lookup_take_lt by lia; done).
    exists (delete i (take (length F - 1) F)). split.
    + etrans; [|apply perm_swap].
      rewrite <- (delete_Permutation _ _ _ Hi').
      rewrite <- (take_drop (length F - 1) F) at 1.
      rewrite (drop_S F Fj (length F - 1)) by done.
      rewrite drop_ge by lia. rewrite Permutation_app_comm. done.
    + by apply (insert_Permutation _ _ Fi).
  - set (G := take (length F - 1) (<[j:=Fl]> F)).
    assert (G !! i = Some Fi) as Hi'.
    { unfold G. rewrite lookup_take_lt by lia.
      rewrite list_lookup_insert_ne by lia. done. }
    exists (delete i G). split.
    + etrans; [|apply perm_swap].
      rewrite <- (delete_Permutation _ _ _ Hi').
      unfold G. rewrite take_insert_lt by lia.
      assert (take (length F - 1) F !! j = Some Fj) as Hj'
        by (rewrite lookup_take_lt by lia; done).
      rewrite (insert_Permutation _ _ _ _ Hj').
      rewrite <- (take_drop (length F - 1) F) at 1.
      rewrite (drop_S F Fl (length F - 1)) by done.
      rewrite drop_ge by lia.
      rewrite (delete_Permutation _ _ _ Hj') at 1.
      rewrite Permutation_app_comm. simpl. apply perm_swap.
    + fold G. rewrite take_insert_lt by lia. fold G.
      by apply (insert_Permutation _ _ Fi).
Qed.

(** The state of the second loop of [rebuild]: the first [count] entries
    of [nodeIndices] are the roots of the trees of a forest [F] that holds
    the live nodes and the leaves of [s]. *)
Definition merging (t0 : Tree) (s : shape) (t : Tree) (nodeIndices : list N)
    (count : N) : Prop :=
  ∃ F fl,
    pool t (F ≫= ids) fl ∧
    (∀ G, G ∈ F → rep (nodes t) NULL_NODE G) ∧
    idx <$> F = take (N.to_nat count) nodeIndices ∧
    (N.to_nat count ≤ length nodeIndices)%nat ∧
    N.of_nat (length nodeIndices) = nodeCount t0 ∧
    nodeCount t0 ≤ UINT_MAX ∧
    F ≫= leaves ≡ₚ leaves s ∧
    frame t0 t.

Lemma rebuildLoop_step (t0 : Tree) (s : shape) (n : nat) (t t' : Tree)
    (nodeIndices nodeIndices' : list N) (count : N) :
  (∀ u u' idxs idxs' c,
     merging t0 s u idxs c → rebuildLoop n idxs c u = Ret idxs' u' →
     merging t0 s u' idxs' (N.min c 1)) →
  merging t0 s t nodeIndices count →
  rebuildLoop (S n) nodeIndices count t = Ret nodeIndices' t' →
  merging t0 s t' nodeIndices' (N.min count 1).
Proof.
  intros IH (F & fl & Hp & HF & Hidx & Hc & Hlen & Hmax & Hlv & Hf) H.
  simpl in H. destruct (N.ltb_spec 1 count) as [Hgt|Hle]; simpl in H.
  2:{ apply mret_Ret in H as [-> ->]. rewrite N.min_l by lia.
      by exists F, fl. }
  apply bind_Ret in H as ([iMin jMin] & t1 & Hmin & H).
  apply minimalPair_spec in Hmin as [-> Hmin];
    [|lia].
  assert (length F = N.to_nat count) as HlenF.
  { rewrite <- (length_fmap idx), Hidx, length_take. lia. }
  assert (∀ k x, (k < N.to_nat count)%nat → nodeIndices !! k = Some x →
            ∃ G, F !! k = Some G ∧ idx G = x) as Hmember.
  { intros k x Hk Hx.
    assert ((idx <$> F) !! k = Some x) as HG
      by (rewrite Hidx, lookup_take_lt by done; done).
    apply list_lookup_fmap_Some in HG as (G & -> & ?). eauto. }
  assert (N.of_nat (length nodeIndices) ≤ 2 ^ 32) as Hlen32
    by (unfold UINT_MAX in *; lia).
  minv H.
  destruct Hmin as [[-> ->]|(i & j & Hij & Hj & -> & ->)].
  { apply vget_Good, lookup_lt_Some in Hm.
    exfalso. apply (index_of_minus_one _ Hlen32). lia. }
  match goal with
  | H1 : vget _ _ = Good ?x, H2 : vget _ _ = Good ?y,
    H3 : vget _ (usub _ _) = Good ?z |- _ =>
    rename H1 into Hgi; rename H2 into Hgj; rename H3 into Hgl;
    rename x into index1; rename y into index2; rename z into last_
  end.
  apply vget_Good in Hgi, Hgj, Hgl.
  assert (index_of_int (int_of_uint i) = i) as Ei.
  { apply (index_of_int_of_uint i (N.of_nat (length nodeIndices)));
      [done|apply lookup_lt_Some in Hgi; lia|unfold UINT_MAX in *; lia]. }
  assert (index_of_int (int_of_uint j) = j) as Ej.
  { apply (index_of_int_of_uint j (N.of_nat (length nodeIndices)));
      [done|apply lookup_lt_Some in Hgj; lia|unfold UINT_MAX in *; lia]. }
  rewrite Ei, Ej in *.
  assert (usub count 1 = count - 1) as Hlast.
  { apply usub_1; [lia|]. clear -Hc Hlen Hmax. lia. }
  rewrite Hlast in *.
  destruct (Hmember (N.to_nat i) _ ltac:(lia) Hgi) as (Fi & HFi & <-).
  destruct (Hmember (N.to_nat j) _ ltac:(lia) Hgj) as (Fj & HFj & <-).
  destruct (Hmember (N.to_nat (count - 1)) _ ltac:(lia) Hgl) as (Fl & HFl & <-).
  repeat match goal with
         | Hv : vset _ _ _ = Good _ |- _ => apply vset_Good in Hv as [_ ->]
         end.
  match goal with
  | Ha : allocateNode _ = Ret ?x _ |- _ =>
    destruct (allocateNode_spec _ _ _ _ _ Hp Ha)
      as (fl' & Hp1 & Hnew & Hf1 & Hroot1 & Hlive & ndn & Hndn & ? & ? & ? & ?);
    set (newParent := x) in *
  end.
  destruct (swap_remove F (N.to_nat i) (N.to_nat j) (Nd newParent Fi Fj)
              Fi Fj Fl) as (D & HpermF & HpermF'); [lia|done|done| |].
  { rewrite HlenF. by replace (N.to_nat count - 1)%nat
      with (N.to_nat (count - 1)) by lia. }
  set (F' := take (length F - 1) (<[N.to_nat i:=Nd newParent Fi Fj]>
                                    (<[N.to_nat j:=Fl]> F))) in *.
  pose proof (pool_nodup _ _ _ Hp1) as Hnd1.
  rewrite HpermF in Hnd1. simpl in Hnd1. rewrite <- !app_assoc in Hnd1.
  assert (N.of_nat (length (nodes t1)) ≤ NULL_NODE) as Hlen1.
  { pose proof (pool_size _ _ _ Hp1). pose proof (pool_cap _ _ _ Hp1).
    unfold vsize, UINT_MAX, NULL_NODE in *. lia. }
  assert (∀ k x, nodes t1 !! N.to_nat k = Some x → k ≠ NULL_NODE) as Hnull
    by (intros ? ?; by eapply pool_null_not_node).
  assert (∀ G x, G ∈ F → x ∈ ids G → x ∈ F ≫= ids) as Hin_live.
  { intros G x HG Hx. apply list_elem_of_bind. eauto. }
  assert (∀ G, G ∈ F → rep (nodes t1) NULL_NODE G) as HF1.
  { intros G HG. eapply rep_ext_eq; [|by apply HF]. intros x Hx.
    apply Hlive. by eapply Hin_live. }
  assert (Fi ∈ F) as HiF by (by eapply list_elem_of_lookup_2).
  assert (Fj ∈ F) as HjF by (by eapply list_elem_of_lookup_2).
  pose proof (HF1 _ HiF) as Hrepi. pose proof (HF1 _ HjF) as Hrepj.
  destruct (rep_root _ _ _ Hrepi) as ([] & ? & ? & ?).
  destruct (rep_root _ _ _ Hrepj) as ([] & ? & ? & ?).
  destruct ndn. simpl in *. simplify_eq.
  assert (newParent ≠ NULL_NODE) by eauto.
  assert (idx Fi ≠ NULL_NODE) by eauto.
  assert (idx Fj ≠ NULL_NODE) by eauto.
  add_ne newParent (idx Fi). add_ne newParent (idx Fj).
  add_ne (idx Fi) (idx Fj).
  lk_hyps (nodes t1).
  cbn [aabb parent next left right height particle] in *.
  match type of H with
  | rebuildLoop _ _ _ ?st = _ => set (t2 := st) in *
  end.
  assert (∀ x, x ≠ newParent → x ≠ idx Fi → x ≠ idx Fj →
            nodes t2 !! N.to_nat x = nodes t1 !! N.to_nat x) as Hother
    by (intros; subst t2; cbn [nodes];
        by lk_with ltac:(first [assumption | by apply not_eq_sym])).
  assert (∃ nd, nodes t2 !! N.to_nat newParent = Some nd ∧
            parent nd = NULL_NODE ∧ left nd = idx Fi ∧ right nd = idx Fj ∧
            (0 ≤ height nd)%Z) as (ndp & Hndp & ? & ? & ? & ?).
  { subst t2. cbn [nodes]. lkn.
    match goal with
    | Hb : nodes t1 !! N.to_nat newParent = Some _ |- _ => rewrite Hb
    end.
    eexists. split; [done|]. simpl. repeat split; hlia. }
  assert (∀ G, G = Fi ∨ G = Fj → ∀ nd, nodes t1 !! N.to_nat (idx G) = Some nd →
            ∃ nd', nodes t2 !! N.to_nat (idx G) = Some nd' ∧
              parent nd' = newParent ∧ left nd' = left nd ∧
              right nd' = right nd ∧
              ((0 ≤ height nd)%Z → (0 ≤ height nd')%Z)) as Hmoved.
  { intros G [->| ->] x Hx; subst t2; cbn [nodes]; lkn; rewrite Hx; eexists;
      (split; [done|]); by simpl. }
  assert (length (nodes t2) = length (nodes t1)) as Hlen2
    by (subst t2; cbn [nodes]; by rewrite !length_alter).
  assert (frame t1 t2) as Hf2 by (by split).
  assert (nodeCapacity t2 = nodeCapacity t1 ∧ nodeCount t2 = nodeCount t1 ∧
          freeList t2 = freeList t1) as (Hcap2 & Hcnt2 & Hfl2) by done.
  clearbody t2.
  replace (count `min` 1) with ((count - 1) `min` 1) by lia.
  eapply IH; [|exact H].
  assert (∀ G x, G ∈ D → x ∈ ids G → x ∈ D ≫= ids) as Hin_D.
  { intros G x HG Hx. apply list_elem_of_bind. eauto. }
  exists F', fl'. split_and!; try done.
  - eapply pool_frame; [exact Hp1| |done..|].
    + rewrite HpermF', HpermF. simpl. solve_Permutation.
    + intros x Hx. apply Hother; nodup_auto.
  - intros G HG. rewrite HpermF' in HG.
    apply elem_of_cons in HG as [->|HG].
    + simpl. exists ndp. split_and!; try done.
      * eapply rep_reparent; [| |by apply Hmoved; left|exact Hrepi].
        -- refine (NoDup_submseteq_mono _ _ _ Hnd1). solve_submseteq.
        -- intros x Hx Hne. apply Hother; [nodup_auto|done|nodup_auto].
      * eapply rep_reparent; [| |by apply Hmoved; right|exact Hrepj].
        -- refine (NoDup_submseteq_mono _ _ _ Hnd1). solve_submseteq.
        -- intros x Hx Hne. apply Hother; [nodup_auto|nodup_auto|done].
    + eapply rep_ext_eq; [|apply HF1; rewrite HpermF; by do 2 right].
      intros x Hx. pose proof (Hin_D _ _ HG Hx). apply Hother; nodup_auto.
  - unfold F'. rewrite fmap_take, !list_fmap_insert, Hidx, HlenF. simpl.
    replace (N.to_nat (count - 1)) with (N.to_nat count - 1)%nat by lia.
    rewrite !(take_insert_lt _ _ (N.to_nat i)) by lia.
    destruct (decide (N.to_nat j < N.to_nat count - 1)%nat).
    + rewrite !(take_insert_lt _ _ (N.to_nat j)) by lia.
      rewrite take_take. by rewrite Nat.min_l by lia.
    + rewrite !(take_insert_ge _ _ (N.to_nat j)) by lia.
      rewrite take_take. by rewrite Nat.min_l by lia.
  - rewrite !length_insert. lia.
  - by rewrite !length_insert.
  - rewrite HpermF', <- Hlv, HpermF. simpl. solve_Permutation.
  - eapply frame_trans; [exact Hf|]. by eapply frame_trans.
Qed.

Lemma rebuildLoop_spec (t0 : Tree) (s : shape) (n : nat) :
  ∀ (t t' : Tree) (nodeIndices nodeIndices' : list N) (count : N),
  merging t0 s t nodeIndices count →
  rebuildLoop n nodeIndices count t = Ret nodeIndices' t' →
  merging t0 s t' nodeIndices' (N.min count 1).
Proof.
  induction n as [|n IH]; intros t t' nodeIndices nodeIndices' count Hm H.
  - simpl in H. destruct (N.ltb_spec 1 count); simpl in H; [done|].
    apply mret_Ret in H as [-> ->]. by rewrite N.min_l by lia.
  - by eapply rebuildLoop_step.
Qed.

Lemma NoDup_leaves (s : shape) : NoDup (ids s) → NoDup (leaves s).
Proof.
  induction s as [i|i l IHl r IHr]; simpl; [done|].
  intros [_ (Hl & Hd & Hr)%NoDup_app]%NoDup_cons.
  apply NoDup_app. split_and!; auto.
  intros x Hx%leaves_in_ids Hx'%leaves_in_ids. by eapply Hd.
Qed.

Lemma bind_Lf_ids (l : list N) : (Lf <$> l) ≫= ids = l.
Proof.
  induction l as [|x l IH]; [done|]. by rewrite fmap_cons, bind_cons, IH.
Qed.

Lemma bind_Lf_leaves (l : list N) : (Lf <$> l) ≫= leaves = l.
Proof.
  induction l as [|x l IH]; [done|]. by rewrite fmap_cons, bind_cons, IH.
Qed.

Lemma fmap_idx_Lf (l : list N) : idx <$> (Lf <$> l) = l.
Proof.
  induction l as [|x l IH]; [done|]. by rewrite !fmap_cons, IH.
Qed.

(** [rebuild] on a well-formed tree that holds a particle: the tree it
    leaves is well formed, with the same particles on the same leaves. *)
Lemma rebuild_spec (t t' : Tree) :
  wf t →
  rebuild t = Ret tt t' →
  wf t' ∧ particleMap t' = particleMap t ∧ nodeCount t' = nodeCount t ∧
  particleMap t ≠ ∅.
Proof.
  intros Hwf H. pose proof Hwf as (o & fl & Hp & Ht & Hmap & Hdim).
  unfold rebuild in H.
  apply bind_Ret in H as (nc & t1 & [-> ->]%gets_Ret & H).
  apply bind_Ret in H as (cap & t1 & [-> ->]%gets_Ret & H).
  apply bind_Ret in H as ([idxs count] & t1 & Hloop & H).
  apply bind_Ret in H as (idxs' & t2 & Hmerge & H).
  apply bind_Ret in H as (r & t3 & [Hr ->]%lift_Ret & H).
  apply bind_Ret in H as ([] & t3 & ->%modify_Ret & H).
  apply validate_readonly in H as ->.
  apply vget_Good in Hr.
  destruct o as [s|]; simpl in *.
  2:{ exfalso.
      assert (nodeCount t = 0) as Hnc by (destruct Hp; simpl in *; lia).
      rewrite Hnc in Hloop. simpl in Hloop.
      assert ((idxs, count) = ([], 0)) as [= -> ->].
      { unfold mfor in Hloop.
        eapply (mfor_from_range (λ a, a = ([], 0))); [|reflexivity|exact Hloop].
        intros k a u a' u' _ -> Hb. cbv beta iota in Hb.
        apply bind_Ret in Hb as (h & u1 & _ & Hb).
        destruct (h <? 0)%Z; [by apply mret_Ret in Hb as [-> _]|].
        apply bind_Ret in Hb as (leaf & u2 & _ & Hb).
        destruct leaf.
        - apply bind_Ret in Hb as ([] & u3 & _ & Hb).
          apply bind_Ret in Hb as (v & u4 & [Hv _]%lift_Ret & _).
          by apply vset_Good in Hv as [? _].
        - apply bind_Ret in Hb as ([] & u3 & _ & Hb).
          by apply mret_Ret in Hb as [-> _]. }
      simpl in Hmerge. apply mret_Ret in Hmerge as [-> _]. done. }
  destruct Ht as [Hroot Hrep].
  unfold mfor in Hloop. rewrite N.sub_0_r in Hloop.
  apply (collect_loop t s fl _ Hp Hrep 0) in Hloop; [|lia|].
  2:{ exists (ids s), fl. simpl. split_and!; try done.
      - lia.
      - rewrite length_replicate. lia.
      - intros j Hj. split_and!; [lia|done|done].
      - intros j Hj. by apply elem_of_nil in Hj.
      - intros j Hj. right. by apply leaves_in_ids. }
  destruct Hloop as (pend & fl1 & Hp1 & Hlen & Hnc & Hpend & Hdone & Hleaves & Hfr1 & Hcap1).
  assert (pend = []) as ->.
  { destruct pend as [|j pend]; [done|]. exfalso.
    destruct (Hpend j) as (Hge & Hin & _); [left|].
    apply (pool_bound _ _ _ Hp) in Hin. lia. }
  rewrite app_nil_r in Hp1.
  assert (merging t s t1 idxs count) as Hm.
  { exists (Lf <$> take (N.to_nat count) idxs), fl1.
    rewrite bind_Lf_ids, bind_Lf_leaves, fmap_idx_Lf. split_and!; try done.
    - intros G (j & -> & Hj)%list_elem_of_fmap. by apply Hdone.
    - by eapply pool_count_max.
    - apply NoDup_Permutation.
      + by destruct (proj1 (NoDup_app _ _) (pool_nodup _ _ _ Hp1)) as (? & _ & _).
      + apply NoDup_leaves.
        by destruct (proj1 (NoDup_app _ _) (pool_nodup _ _ _ Hp)) as (? & _ & _).
      + intros j. split; [intros Hj; by apply Hdone|].
        intros Hj. destruct (Hleaves j Hj) as [?|Hn]; [done|].
        by apply elem_of_nil in Hn. }
  apply (rebuildLoop_spec t s _ _ _ _ _ _ Hm) in Hmerge.
  destruct Hmerge as (F & fl2 & Hp2 & Hrep2 & Hidx & Hlen2 & Hnc2 & Hmax & Hlv & Hfr2).
  assert (particleMap t ≠ ∅) as Hne.
  { intros He. rewrite He, map_to_list_empty in Hmap.
    apply Permutation_nil in Hmap. by apply leaves_not_nil in Hmap. }
  destruct F as [|S [|S' F]].
  - exfalso. change ([] ≫= leaves) with (@nil N) in Hlv.
    apply Permutation_nil in Hlv. by eapply leaves_not_nil.
  - rewrite bind_cons in Hp2, Hlv.
    change ([] ≫= ids) with (@nil N) in Hp2. change ([] ≫= leaves) with (@nil N) in Hlv.
    rewrite app_nil_r in Hp2, Hlv.
    assert (N.to_nat (count `min` 1) = 1%nat) as E.
    { apply (f_equal length) in Hidx. rewrite length_fmap, length_take in Hidx.
      simpl in Hidx. lia. }
    rewrite E in Hidx. destruct idxs' as [|x idxs']; [done|].
    simpl in Hidx, Hr. injection Hidx as <-. injection Hr as <-.
    destruct Hfr2 as [? ? ? Hpm].
    split_and!; try done.
    + exists (Some S), fl2. simpl. split_and!.
      * by eapply pool_frame.
      * done.
      * apply Hrep2. left.
      * by rewrite Hpm, Hlv.
      * lia.
    + rewrite (pool_count _ _ _ Hp2), (pool_count _ _ _ Hp), !ids_leaves_length.
      by rewrite Hlv.
  - exfalso. apply (f_equal length) in Hidx.
    rewrite !length_fmap, length_take in Hidx. simpl in Hidx. lia.
Qed.

(** ** Comparisons of doubles *)

Lemma SFcompare_refl_not_Lt (x : SpecFloat.spec_float) :
  SpecFloat.SFcompare x x ≠ Some Lt.
Proof.
  destruct x as [s|s| |s m e]; unfold SpecFloat.SFcompare; try done; try by destruct s.
  change (PosDef.Pos.compare_cont Eq m m) with (Pos.compare m m).
  rewrite Z.compare_refl, Pos.compare_refl. by destruct s.
Qed.

Lemma SFcompare_Lt_asym (x y : SpecFloat.spec_float) :
  SpecFloat.SFcompare x y = Some Lt → SpecFloat.SFcompare y x ≠ Some Lt.
Proof.
  destruct x as [s|s| |s m e], y as [s'|s'| |s' m' e'];
    unfold SpecFloat.SFcompare;
    try done; try (by destruct s); try (by destruct s'); try (by destruct s, s').
  change (PosDef.Pos.compare_cont Eq m m') with (Pos.compare m m').
  change (PosDef.Pos.compare_cont Eq m' m) with (Pos.compare m' m).
  rewrite (Z.compare_antisym e' e), (Pos.compare_antisym m' m).
  destruct s, s'; try done.
  - destruct (e' ?= e)%Z; simpl; try done. by destruct (m' ?= m)%positive.
  - destruct (e' ?= e)%Z; simpl; try done. by destruct (m' ?= m)%positive.
Qed.

Lemma dlt_irrefl (x : double) : dlt x x = false.
Proof.
  unfold dlt. rewrite FloatAxioms.ltb_spec. unfold SpecFloat.SFltb.
  pose proof (SFcompare_refl_not_Lt (Prim2SF x)).
  by destruct (SpecFloat.SFcompare _ _) as [[]|].
Qed.

Lemma dlt_asym (x y : double) : dlt x y = true → dlt y x = false.
Proof.
  unfold dlt. rewrite !FloatAxioms.ltb_spec. unfold SpecFloat.SFltb.
  pose proof (SFcompare_Lt_asym (Prim2SF x) (Prim2SF y)) as H.
  destruct (SpecFloat.SFcompare (Prim2SF x) _) as [[]|]; try done.
  intros _. by destruct (SpecFloat.SFcompare _ _) as [[]|]; try done; destruct H.
Qed.

(** ** Boxes of one dimension *)

Lemma vget_lookup {A} (v : list A) (i : N) (x : A) :
  v !! N.to_nat i = Some x → vget v i = Good x.
Proof.
  intros H. unfold vget, nth_N. pose proof (lookup_lt_Some _ _ _ H).
  destruct (N.ltb_spec i (vsize v)) as [_|Hn]; [by rewrite H|].
  unfold vsize in Hn. lia.
Qed.

Lemma vset_lookup {A} (v : list A) (i : N) (x y : A) :
  v !! N.to_nat i = Some y → vset v i x = Good (<[N.to_nat i := x]> v).
Proof.
  intros H. unfold vset, nth_N. pose proof (lookup_lt_Some _ _ _ H).
  destruct (N.ltb_spec i (vsize v)) as [_|Hn]; [by rewrite H|].
  unfold vsize in Hn. lia.
Qed.

Lemma cassert_true : cassert true = Good tt.
Proof. unfold cassert. by destruct NDEBUG. Qed.

(** A loop whose body keeps [P] and does not fail ends, and [P] holds at the
    end. *)
Lemma cfor_from_inv {A} (P : N → A → Prop) (body : N → A → check A) (n : nat) :
  ∀ (i : N) (acc : A),
  (∀ k a, i ≤ k < i + N.of_nat n → P k a →
     ∃ a', body k a = Good a' ∧ P (N.succ k) a') →
  P i acc →
  ∃ acc', cfor_from n i body acc = Good acc' ∧ P (i + N.of_nat n) acc'.
Proof.
  induction n as [|n IH]; intros i acc Hbody Hacc; simpl.
  - exists acc. split; [done|]. by rewrite N.add_0_r.
  - destruct (Hbody i acc) as (a' & Ha & HP); [lia|done|].
    rewrite Ha. simpl.
    destruct (IH (N.succ i) a') as (acc' & Hr & HP'); [|done|].
    { intros k a Hk. apply Hbody. lia. }
    exists acc'. split; [done|].
    by replace (i + N.of_nat (S n)) with (N.succ i + N.of_nat n) by lia.
Qed.

Lemma overlaps_from_comm (touch : bool) (a b : AABB) (n : nat) :
  ∀ i : N,
  length (lowerBound b) = length (lowerBound a) →
  length (upperBound a) = length (lowerBound a) →
  length (upperBound b) = length (lowerBound a) →
  (N.to_nat i + n ≤ length (lowerBound a))%nat →
  overlaps_from touch a b n i = overlaps_from touch b a n i.
Proof.
  induction n as [|n IH]; intros i Hlb Hua Hub Hn; simpl; [done|].
  destruct (lookup_lt_is_Some_2 (lowerBound a) (N.to_nat i)) as [al Hal]; [lia|].
  destruct (lookup_lt_is_Some_2 (lowerBound b) (N.to_nat i)) as [bl Hbl]; [lia|].
  destruct (lookup_lt_is_Some_2 (upperBound a) (N.to_nat i)) as [au Hau]; [lia|].
  destruct (lookup_lt_is_Some_2 (upperBound b) (N.to_nat i)) as [bu Hbu]; [lia|].
  rewrite (vget_lookup _ _ _ Hal), (vget_lookup _ _ _ Hbl),
    (vget_lookup _ _ _ Hau), (vget_lookup _ _ _ Hbu). simpl.
  rewrite IH by (try done; lia).
  unfold dgt, dge, dlt, dle. by destruct touch; repeat case_match.
Qed.

Lemma contains_from_true (this aabb : AABB) (n : nat) :
  ∀ i : N,
  (∀ k, (N.to_nat i ≤ k < N.to_nat i + n)%nat →
     ∃ al tl au tu,
       lowerBound aabb !! k = Some al ∧ lowerBound this !! k = Some tl ∧
       upperBound aabb !! k = Some au ∧ upperBound this !! k = Some tu ∧
       dlt al tl = false ∧ dlt tu au = false) →
  contains_from this aabb n i = Good true.
Proof.
  induction n as [|n IH]; intros i H; simpl; [done|].
  destruct (H (N.to_nat i)) as (al & tl & au & tu & Hal & Htl & Hau & Htu & Hl & Hu);
    [lia|].
  rewrite (vget_lookup _ _ _ Hal), (vget_lookup _ _ _ Htl),
    (vget_lookup _ _ _ Hau), (vget_lookup _ _ _ Htu). simpl.
  unfold dgt, dlt in *. rewrite Hl, Hu. apply IH. intros k Hk. apply H. lia.
Qed.

Ltac cfor_inv P H :=
  match goal with
  | |- context [@cfor_from ?A ?n ?i ?body ?acc] =>
    pose proof (@cfor_from_inv A P body n i acc) as H
  end.

Lemma computeSurfaceArea_Good (a : AABB) :
  length (upperBound a) = length (lowerBound a) →
  ∃ x, computeSurfaceArea a = Good x.
Proof.
  intros Hu. unfold computeSurfaceArea, cfor. rewrite N.sub_0_r. cbv zeta.
  cfor_inv (λ (_ : N) (_ : double), True) Hloop.
  destruct Hloop as (sum & Hsum & _); [|done|].
  - intros d1 s _ _. cbv beta.
    cfor_inv (λ (_ : N) (_ : double), True) Hloop.
    destruct Hloop as (p & Hp & _); [|done|].
    + intros d2 p Hd2 _. cbv beta. destruct (d1 =? d2); [by eexists|].
      unfold vsize in Hd2.
      destruct (lookup_lt_is_Some_2 (lowerBound a) (N.to_nat d2)) as [l Hl]; [lia|].
      destruct (lookup_lt_is_Some_2 (upperBound a) (N.to_nat d2)) as [u Hu']; [lia|].
      rewrite (vget_lookup _ _ _ Hl), (vget_lookup _ _ _ Hu'). by eexists.
    + rewrite Hp. by eexists.
  - rewrite Hsum. by eexists.
Qed.

Lemma computeCentre_Good (a : AABB) :
  length (upperBound a) = length (lowerBound a) →
  ∃ c, computeCentre a = Good c ∧ length c = length (lowerBound a).
Proof.
  intros Hu. unfold computeCentre, cfor. rewrite N.sub_0_r.
  set (n := length (lowerBound a)).
  cfor_inv (λ (_ : N) (p : list double), length p = n) Hloop.
  destruct Hloop as (c & Hc & Hlen); [|by rewrite length_replicate|by exists c].
  intros k p Hk Hp. cbv beta in *. unfold vsize in Hk. rewrite length_replicate in Hk.
  subst n.
  destruct (lookup_lt_is_Some_2 (lowerBound a) (N.to_nat k)) as [l Hl]; [lia|].
  destruct (lookup_lt_is_Some_2 (upperBound a) (N.to_nat k)) as [u Hu']; [lia|].
  destruct (lookup_lt_is_Some_2 p (N.to_nat k)) as [y Hy]; [unfold double in *; lia|].
  rewrite (vget_lookup _ _ _ Hl), (vget_lookup _ _ _ Hu'). simpl.
  rewrite (vset_lookup _ _ _ _ Hy). eexists. split; [done|].
  by rewrite length_insert.
Qed.

(** The loop of [merge] fills the bounds of [this] with the smaller lower
    and the larger upper bound of each axis. *)
Lemma merge_loop (this a b : AABB) :
  length (lowerBound this) = length (lowerBound a) →
  length (upperBound this) = length (lowerBound a) →
  length (lowerBound b) = length (lowerBound a) →
  length (upperBound a) = length (lowerBound a) →
  length (upperBound b) = length (lowerBound a) →
  ∃ r,
    cfor 0 (vsize (lowerBound this)) (λ i this,
      l1 ← vget (lowerBound a) i;
      l2 ← vget (lowerBound b) i;
      lo ← vset (lowerBound this) i (dmin l1 l2);
      let this := set_lowerBound lo this in
      u1 ← vget (upperBound a) i;
      u2 ← vget (upperBound b) i;
      up ← vset (upperBound this) i (dmax u1 u2);
      Good (set_upperBound up this)) this = Good r ∧
    lowerBound r = zip_with dmin (lowerBound a) (lowerBound b) ∧
    upperBound r = zip_with dmax (upperBound a) (upperBound b).
Proof.
  intros Htl Htu Hlb Hua Hub. unfold cfor. rewrite N.sub_0_r.
  set (n := length (lowerBound a)) in *.
  cfor_inv
    (λ k (r : AABB),
       length (lowerBound r) = n ∧ length (upperBound r) = n ∧
       take (N.to_nat k) (lowerBound r)
       = take (N.to_nat k) (zip_with dmin (lowerBound a) (lowerBound b)) ∧
       take (N.to_nat k) (upperBound r)
       = take (N.to_nat k) (zip_with dmax (upperBound a) (upperBound b))) Hloop.
  destruct Hloop
    as (r & Hr & Hrl & Hru & Hl & Hu).
  - intros k r Hk (Hrl & Hru & Hl & Hu). cbv beta in *. unfold vsize in Hk. subst n.
    destruct (lookup_lt_is_Some_2 (lowerBound a) (N.to_nat k)) as [l1 Hl1]; [lia|].
    destruct (lookup_lt_is_Some_2 (lowerBound b) (N.to_nat k)) as [l2 Hl2]; [lia|].
    destruct (lookup_lt_is_Some_2 (upperBound a) (N.to_nat k)) as [u1 Hu1]; [lia|].
    destruct (lookup_lt_is_Some_2 (upperBound b) (N.to_nat k)) as [u2 Hu2]; [lia|].
    destruct (lookup_lt_is_Some_2 (lowerBound r) (N.to_nat k)) as [y1 Hy1]; [lia|].
    destruct (lookup_lt_is_Some_2 (upperBound r) (N.to_nat k)) as [y2 Hy2]; [lia|].
    rewrite (vget_lookup _ _ _ Hl1), (vget_lookup _ _ _ Hl2). simpl.
    rewrite (vset_lookup _ _ _ _ Hy1). simpl.
    rewrite (vget_lookup _ _ _ Hu1), (vget_lookup _ _ _ Hu2). simpl.
    rewrite (vset_lookup _ _ _ _ Hy2). simpl.
    eexists. split; [done|]. unfold set_upperBound, set_lowerBound; simpl.
    rewrite !length_insert, N2Nat.inj_succ.
    rewrite !take_S_insert by lia. rewrite Hl, Hu. split_and!; try done.
    + symmetry. apply take_S_r. by rewrite lookup_zip_with, Hl1, Hl2.
    + symmetry. apply take_S_r. by rewrite lookup_zip_with, Hu1, Hu2.
  - split_and!; done.
  - exists r. split; [done|]. subst n.
    unfold vsize in Hl, Hu. rewrite N.add_0_l, Nat2N.id in Hl, Hu.
    rewrite !take_ge in Hl, Hu by (rewrite ?length_zip_with; lia).
    done.
Qed.

(** X1.  A box whose two bound vectors have one length contains itself:
    [a.contains(a)] is [true], also when a bound is NaN. *)
Theorem contains_reflexive (a : AABB) :
  length (upperBound a) = length (lowerBound a) → contains a a = Good true.
Proof.
  intros Hu. unfold contains. rewrite N.eqb_refl, cassert_true. simpl.
  apply contains_from_true. intros k Hk.
  destruct (lookup_lt_is_Some_2 (lowerBound a) k) as [l Hl]; [lia|].
  destruct (lookup_lt_is_Some_2 (upperBound a) k) as [u Hu']; [lia|].
  exists l, l, u, u. split_and!; try done; apply dlt_irrefl.
Qed.

Lemma dmin_below_l (x y : double) : dlt x (dmin x y) = false.
Proof.
  unfold dmin. destruct (dlt y x) eqn:E; [by apply dlt_asym|apply dlt_irrefl].
Qed.

Lemma dmin_below_r (x y : double) : dlt y (dmin x y) = false.
Proof. unfold dmin. destruct (dlt y x) eqn:E; [apply dlt_irrefl|done]. Qed.

Lemma dmax_above_l (x y : double) : dlt (dmax x y) x = false.
Proof.
  unfold dmax. destruct (dlt x y) eqn:E; [by apply dlt_asym|apply dlt_irrefl].
Qed.

Lemma dmax_above_r (x y : double) : dlt (dmax x y) y = false.
Proof. unfold dmax. destruct (dlt x y) eqn:E; [apply dlt_irrefl|done]. Qed.

(** X2.  [merge] of two boxes of one dimension never fails, whatever the
    doubles are (infinities and NaN included) and whatever [this] held: the
    box it leaves has on each axis [std::min] of the two lower bounds and
    [std::max] of the two upper bounds, and [contains] answers [true] for
    each of the two boxes. *)
Theorem merge_contains_both (this a b : AABB) :
  length (lowerBound b) = length (lowerBound a) →
  length (upperBound a) = length (lowerBound a) →
  length (upperBound b) = length (lowerBound a) →
  ∃ r, merge this a b = Good r ∧
    lowerBound r = zip_with dmin (lowerBound a) (lowerBound b) ∧
    upperBound r = zip_with dmax (upperBound a) (upperBound b) ∧
    contains r a = Good true ∧ contains r b = Good true.
Proof.
  intros Hlb Hua Hub. unfold merge, vsize.
  rewrite Hlb, Hua, Hub, N.eqb_refl, cassert_true. simpl.
  destruct (merge_loop
    (set_upperBound (resize (length (lowerBound a)) 0%float (upperBound this))
       (set_lowerBound (resize (length (lowerBound a)) 0%float (lowerBound this))
          this)) a b) as (r & Hr & Hl & Hu); simpl; rewrite ?length_resize; try done.
  simpl in Hr. unfold vsize in Hr. rewrite length_resize in Hr. rewrite Hr. simpl.
  assert (length (lowerBound r) = length (lowerBound a)) as Hlen
    by (rewrite Hl, length_zip_with; lia).
  assert (length (upperBound r) = length (lowerBound a)) as Hlen'
    by (rewrite Hu, length_zip_with; lia).
  destruct (computeSurfaceArea_Good r) as [sa ->]; [lia|]. simpl.
  destruct (computeCentre_Good (set_surfaceArea sa r)) as (c & -> & _);
    [simpl; lia|]. simpl.
  eexists. split; [done|]. simpl. split_and!; try done.
  - unfold contains, vsize. simpl. rewrite Hlen, N.eqb_refl, cassert_true. simpl.
    apply contains_from_true. simpl. intros k Hk.
    destruct (lookup_lt_is_Some_2 (lowerBound a) k) as [l1 Hl1]; [lia|].
    destruct (lookup_lt_is_Some_2 (lowerBound b) k) as [l2 Hl2]; [lia|].
    destruct (lookup_lt_is_Some_2 (upperBound a) k) as [u1 Hu1]; [lia|].
    destruct (lookup_lt_is_Some_2 (upperBound b) k) as [u2 Hu2]; [lia|].
    exists l1, (dmin l1 l2), u1, (dmax u1 u2).
    rewrite Hl, Hu, !lookup_zip_with, Hl1, Hl2, Hu1, Hu2.
    split_and!; try done; [apply dmin_below_l|apply dmax_above_l].
  - unfold contains, vsize. simpl. rewrite Hlen, Hlb, N.eqb_refl, cassert_true. simpl.
    apply contains_from_true. simpl. intros k Hk.
    destruct (lookup_lt_is_Some_2 (lowerBound a) k) as [l1 Hl1]; [lia|].
    destruct (lookup_lt_is_Some_2 (lowerBound b) k) as [l2 Hl2]; [lia|].
    destruct (lookup_lt_is_Some_2 (upperBound a) k) as [u1 Hu1]; [lia|].
    destruct (lookup_lt_is_Some_2 (upperBound b) k) as [u2 Hu2]; [lia|].
    exists l2, (dmin l1 l2), u2, (dmax u1 u2).
    rewrite Hl, Hu, !lookup_zip_with, Hl1, Hl2, Hu1, Hu2.
    split_and!; try done; [apply dmin_below_r|apply dmax_above_r].
Qed.

(** X3.  [overlaps] is symmetric on boxes of one dimension:
    [a.overlaps(b, touch)] and [b.overlaps(a, touch)] give the same answer,
    for both values of [touchIsOverlap] and for all doubles. *)
Theorem overlaps_symmetric (a b : AABB) (touch : bool) :
  length (lowerBound b) = length (lowerBound a) →
  length (upperBound a) = length (lowerBound a) →
  length (upperBound b) = length (lowerBound a) →
  overlaps a b touch = overlaps b a touch.
Proof.
  intros Hlb Hua Hub. unfold overlaps, vsize.
  rewrite Hlb, N.eqb_refl, cassert_true. simpl.
  by apply overlaps_from_comm.
Qed.

(** ** Calls that return *)

(** [m] returns normally from the state [t], with a value and a state that
    satisfy [Q]. *)
Definition returns {A} (m : M A) (t : Tree) (Q : A → Tree → Prop) : Prop :=
  ∃ a t', m t = Ret a t' ∧ Q a t'.

Lemma returns_bind {A B} (m : M A) (k : A → M B) (t t1 : Tree) (a : A)
    (Q : B → Tree → Prop) :
  m t = Ret a t1 → returns (k a) t1 Q → returns (m ≫= k) t Q.
Proof.
  intros Hm (b & t2 & Hk & HQ). exists b, t2. split; [|done].
  unfold mbind, M_bind, bindM. by rewrite Hm.
Qed.

Lemma returns_seq {A B} (m : M A) (k : A → M B) (t : Tree)
    (R : A → Tree → Prop) (Q : B → Tree → Prop) :
  returns m t R → (∀ a t1, R a t1 → returns (k a) t1 Q) →
  returns (m ≫= k) t Q.
Proof. intros (a & t1 & Hm & HR) Hk. eapply returns_bind; eauto. Qed.

Lemma returns_mret {A} (a : A) (t : Tree) (Q : A → Tree → Prop) :
  Q a t → returns (mret a) t Q.
Proof. by exists a, t. Qed.

Lemma wr_run (i : N) (f : Node → Node) (t : Tree) :
  i < vsize (nodes t) →
  ∃ nd, nodes t !! N.to_nat i = Some nd ∧
    wr i f t = Ret tt (set_nodes (<[N.to_nat i := f nd]> (nodes t)) t).
Proof.
  intros Hi. unfold vsize in Hi.
  destruct (lookup_lt_is_Some_2 (nodes t) (N.to_nat i)) as [nd Hnd]; [lia|].
  exists nd. split; [done|]. unfold wr, wrc. by rewrite nth_N_lookup, Hnd.
Qed.

Lemma rd_run {A} (i : N) (f : Node → A) (t : Tree) (nd : Node) :
  nodes t !! N.to_nat i = Some nd → rd i f t = Ret (f nd) t.
Proof. intros Hnd. unfold rd. by rewrite nth_N_lookup, Hnd. Qed.

Lemma massert_run (b : M bool) (t : Tree) :
  b t = Ret true t → massert b t = Ret tt t.
Proof.
  intros Hb. unfold massert. destruct NDEBUG; [done|].
  unfold mbind, M_bind, bindM. by rewrite Hb.
Qed.

(** One more step of a computation that returns: a write to a node of the
    pool, or a step that computes. *)
Ltac run_wr :=
  lazymatch goal with
  | |- returns (wr ?i ?f ≫= _) ?T _ =>
    let nd := fresh "nd" in
    let Hnd := fresh "Hnd" in
    let Hwr := fresh "Hwr" in
    destruct (wr_run i f T) as (nd & Hnd & Hwr);
    [unfold vsize; tsimpl; rewrite ?length_insert, ?length_resize
    |eapply returns_bind; [exact Hwr|]; clear Hwr; tsimpl]
  end.

Ltac run_pure := eapply returns_bind; [reflexivity|]; tsimpl.

(** The loop that links fresh nodes into a free list returns when the
    nodes are in the pool. *)
Lemma thread_loop_runs (n : nat) :
  ∀ (i : N) (t : Tree),
    i + N.of_nat n ≤ vsize (nodes t) →
    ∃ t', mfor_from n i (λ i (_ : unit),
                     wr i (set_next (uadd i 1));; wr i (set_height (-1))) tt t
          = Ret tt t'.
Proof.
  induction n as [|n IH]; intros i t Hi; simpl; [by eexists|].
  destruct (wr_run i (set_next (uadd i 1)) t) as (nd & Hnd & Hwr); [lia|].
  destruct (wr_run i (set_height (-1))
              (set_nodes (<[N.to_nat i := set_next (uadd i 1) nd]> (nodes t)) t))
    as (nd' & Hnd' & Hwr').
  { unfold vsize in *. tsimpl. rewrite length_insert. lia. }
  destruct (IH (N.succ i) (set_nodes
      (<[N.to_nat i:=set_height (-1) nd']>
         (nodes (set_nodes (<[N.to_nat i:=set_next (uadd i 1) nd]> (nodes t)) t)))
      (set_nodes (<[N.to_nat i:=set_next (uadd i 1) nd]> (nodes t)) t)))
    as [t' Ht'].
  { unfold vsize in *. tsimpl. rewrite !length_insert. lia. }
  exists t'. unfold mbind, M_bind, bindM. rewrite Hwr, Hwr'. exact Ht'.
Qed.

Ltac run_thread_loop :=
  lazymatch goal with
  | |- returns (mfor_from ?n ?i _ _ ≫= _) ?T _ =>
    let t1 := fresh "t" in
    let H1 := fresh "H" in
    let ns' := fresh "ns'" in
    let Hlen := fresh "Hlen" in
    destruct (thread_loop_runs n i T) as [t1 H1];
    [unfold vsize; tsimpl; rewrite ?length_insert, ?length_resize
    |eapply returns_bind; [exact H1|];
     apply thread_loop in H1 as (ns' & -> & Hlen & _); tsimpl;
     rewrite ?length_insert, ?length_resize in Hlen]
  end.

(** The constructor returns for every dimension from 2 and every positive
    number of particles. *)
Lemma Tree_new_runs (dimension_ : N) (skinThickness_ : double) (nParticles : N)
    (touchIsOverlap_ : bool) :
  2 ≤ dimension_ → 0 < nParticles → nParticles ≤ UINT_MAX →
  ∃ t, Tree_new dimension_ skinThickness_ nParticles touchIsOverlap_ = Ret tt t.
Proof.
  intros Hd Hpos Hmax.
  cut (returns (Tree_body nParticles)
         (Tree_members dimension_ skinThickness_ touchIsOverlap_) (λ _ _, True)).
  { intros ([] & t & H & _). by exists t. }
  unfold Tree_body.
  run_pure. unfold Tree_members at 1. tsimpl.
  rewrite (proj2 (N.ltb_ge _ _)) by done.
  do 5 run_pure. rewrite usub_1 by done.
  unfold mfor. rewrite N.sub_0_r.
  run_thread_loop; [lia|].
  run_wr; [lia|]. run_wr; [lia|].
  by eexists _, _.
Qed.

Lemma setDimension_Good (a : AABB) (d : N) :
  2 ≤ d →
  setDimension a d
  = Good (set_upperBound (resize (N.to_nat d) 0%float (upperBound a))
            (set_lowerBound (resize (N.to_nat d) 0%float (lowerBound a)) a)).
Proof.
  intros Hd. unfold setDimension.
  by rewrite (proj2 (N.leb_le _ _)), cassert_true by done.
Qed.

(** The second half of [allocateNode]: the head of the free list is taken
    and reset. *)
Lemma allocateNode_take_runs (t : Tree) :
  freeList t < vsize (nodes t) → 2 ≤ dimension t →
  returns
    (node ← gets freeList;
     nx ← rd node next;
     modify (set_freeList nx);;
     wr node (set_parent NULL_NODE);;
     wr node (set_left NULL_NODE);;
     wr node (set_right NULL_NODE);;
     wr node (set_height 0);;
     d ← gets dimension;
     wrc node (λ nd, a ← setDimension (aabb nd) d; Good (set_aabb a nd));;
     modify (λ t, set_nodeCount (uadd (nodeCount t) 1) t);;
     mret node) t
    (λ node t', node = freeList t ∧
       ∃ nd, nodes t' !! N.to_nat node = Some nd ∧
         length (lowerBound (aabb nd)) = N.to_nat (dimension t) ∧
         length (upperBound (aabb nd)) = N.to_nat (dimension t)).
Proof.
  intros Hfl Hd. run_pure.
  destruct (lookup_lt_is_Some_2 (nodes t) (N.to_nat (freeList t))) as [nd Hnd].
  { unfold vsize in Hfl. lia. }
  eapply returns_bind; [by apply rd_run|].
  run_pure.
  run_wr; [unfold vsize in Hfl; lia|].
  run_wr; [unfold vsize in Hfl; lia|].
  run_wr; [unfold vsize in Hfl; lia|].
  run_wr; [unfold vsize in Hfl; lia|].
  run_pure.
  eapply returns_bind.
  { unfold wrc. tsimpl. rewrite nth_N_lookup, list_lookup_insert_eq
      by (rewrite !length_insert; unfold vsize in Hfl; lia).
    simpl. rewrite setDimension_Good by done. reflexivity. }
  run_pure. apply returns_mret. split; [done|]. tsimpl.
  eexists. split.
  { apply list_lookup_insert_eq. rewrite !length_insert.
    unfold vsize in Hfl. lia. }
  simpl. by rewrite !length_resize.
Qed.

(** [allocateNode] returns on a pool that has a free node, and on a full
    pool whose capacity can be doubled. *)
Lemma allocateNode_runs (t : Tree) (live fl : list N) :
  pool t live fl → 2 ≤ dimension t → 0 < nodeCapacity t →
  (fl = [] → 2 * nodeCapacity t ≤ UINT_MAX) →
  ∃ node t' nd, allocateNode t = Ret node t' ∧
    nodes t' !! N.to_nat node = Some nd ∧
    length (lowerBound (aabb nd)) = N.to_nat (dimension t) ∧
    length (upperBound (aabb nd)) = N.to_nat (dimension t).
Proof.
  intros Hp Hd Hpos Hroom.
  cut (returns allocateNode t
         (λ node t', ∃ nd, nodes t' !! N.to_nat node = Some nd ∧
            length (lowerBound (aabb nd)) = N.to_nat (dimension t) ∧
            length (upperBound (aabb nd)) = N.to_nat (dimension t))).
  { intros (node & t' & H & nd & Hnd). by exists node, t', nd. }
  unfold allocateNode. run_pure.
  pose proof (pool_chain _ _ _ Hp) as Hc.
  pose proof (pool_size _ _ _ Hp) as Hsz.
  destruct fl as [|i fl].
  - simpl in Hc. rewrite Hc, N.eqb_refl.
    specialize (Hroom eq_refl).
    pose proof (pool_count _ _ _ Hp) as Hcnt.
    pose proof (pool_total _ _ _ Hp) as Htot. simpl in Htot.
    assert (nodeCount t = nodeCapacity t) as Hfull by lia.
    eapply returns_seq with (R := λ _ t1, freeList t1 < vsize (nodes t1) ∧
                                          dimension t1 = dimension t).
    + eapply returns_bind.
      { apply massert_run. unfold mbind, M_bind, bindM, gets, mret, M_ret.
        by rewrite Hfull, N.eqb_refl. }
      do 4 run_pure.
      assert (umul (nodeCapacity t) 2 = 2 * nodeCapacity t) as ->.
      { unfold umul, uwrap. rewrite N.mod_small; unfold UINT_MAX in *; lia. }
      rewrite usub_1 by lia.
      unfold mfor. run_thread_loop; [lia|].
      run_wr; [lia|]. run_wr; [lia|].
      eexists _, _. split; [reflexivity|]. unfold vsize. tsimpl.
      rewrite !length_insert. split; [lia|done].
    + intros [] t1 [Hfl Hdim].
      destruct (allocateNode_take_runs t1) as (node & t2 & H2 & _ & Hbox);
        [done|lia|].
      rewrite Hdim in Hbox. by exists node, t2.
  - destruct Hc as (Hfl & nd & Hnd & _).
    assert (i < vsize (nodes t)) as Hi by (by eapply lookup_N_lt).
    assert ((freeList t =? NULL_NODE) = false) as ->.
    { apply N.eqb_neq. pose proof (pool_cap _ _ _ Hp).
      unfold NULL_NODE, UINT_MAX in *. lia. }
    eapply returns_bind; [reflexivity|].
    destruct (allocateNode_take_runs t) as (node & t2 & H2 & _ & Hbox);
      [lia|done|].
    by exists node, t2.
Qed.

(** [freeNode] returns on every live node. *)
Lemma freeNode_runs (t : Tree) (live fl : list N) (node : N) :
  pool t (node :: live) fl → ∃ t', freeNode node t = Ret tt t'.
Proof.
  intros Hp.
  cut (returns (freeNode node) t (λ _ _, True)).
  { intros ([] & t' & H & _). by exists t'. }
  pose proof (pool_bound _ _ _ Hp node (list_elem_of_here _ _)) as Hb.
  pose proof (pool_count _ _ _ Hp) as Hcnt. simpl in Hcnt.
  pose proof (pool_size _ _ _ Hp) as Hsz. unfold vsize in Hsz.
  unfold freeNode.
  eapply returns_bind.
  { apply massert_run. unfold mbind, M_bind, bindM, gets, mret, M_ret.
    by rewrite (proj2 (N.ltb_lt _ _)). }
  eapply returns_bind.
  { apply massert_run. unfold mbind, M_bind, bindM, gets, mret, M_ret.
    by rewrite (proj2 (N.ltb_lt _ _)) by lia. }
  run_pure. run_wr; [lia|]. run_wr; [lia|]. run_pure.
  by eexists _, _.
Qed.

(** Which node [allocateNode] returns: the head of the free list, or, when
    the pool is full, the first node of the second half of the doubled
    pool. *)
Lemma allocateNode_node (t t' : Tree) (live fl : list N) (node : N) :
  pool t live fl →
  allocateNode t = Ret node t' →
  match fl with
  | [] => node = nodeCapacity t ∧ nodeCapacity t' = 2 * nodeCapacity t
  | i :: fl' =>
    node = i ∧ nodeCapacity t' = nodeCapacity t ∧ pool t' (i :: live) fl'
  end.
Proof.
  intros Hp H. unfold allocateNode in H. minv H.
  - apply N.eqb_eq in Heqb.
    pose proof (chain_nil_inv _ _ _ Hp Heqb) as ->.
    unfold mfor in Hm0. apply thread_loop in Hm0 as (ns' & -> & Hlen & Hin & Hout).
    tsimpl. rewrite length_resize in Hlen.
    destruct Hp as [Hs Hc Hch Hnodup Hcov Hb Hcount Htot].
    rewrite app_nil_r in *. rewrite Nat.add_0_r in Htot.
    assert (nodeCount t = nodeCapacity t) as Hnc by lia. rewrite Hnc in *.
    assert (nodeCapacity t < umul (nodeCapacity t) 2) as Hgrow.
    { apply lookup_lt_Some in Hm. rewrite !length_alter in Hm. lia. }
    destruct (umul_2_grows _ Hgrow) as [Hcap' Hpos]. done.
  - destruct (pool_pop _
      {| root := root t;
         nodes := alter (set_aabb box) (N.to_nat (freeList t))
                    (alter (set_height 0) (N.to_nat (freeList t))
                       (alter (set_right NULL_NODE) (N.to_nat (freeList t))
                          (alter (set_left NULL_NODE) (N.to_nat (freeList t))
                             (alter (set_parent NULL_NODE)
                                (N.to_nat (freeList t)) (nodes t)))));
         nodeCount := uadd (nodeCount t) 1; nodeCapacity := nodeCapacity t;
         freeList := next nd; dimension := dimension t;
         skinThickness := skinThickness t; particleMap := particleMap t;
         touchIsOverlap := touchIsOverlap t |}
      _ _ (freeList t) nd Hp) as (fl' & -> & Hp' & Hnot); tsimpl; try done.
    { by rewrite !length_alter. }
    { intros j Hj. by lk. }
Qed.

(** ** The first particle *)

Lemma wrc_run (i : N) (f : Node → check Node) (t : Tree) (nd nd' : Node) :
  nodes t !! N.to_nat i = Some nd → f nd = Good nd' →
  wrc i f t = Ret tt (set_nodes (<[N.to_nat i := nd']> (nodes t)) t).
Proof. intros Hnd Hf. unfold wrc. by rewrite nth_N_lookup, Hnd, Hf. Qed.

Lemma lift_run {A} (c : check A) (a : A) (t : Tree) :
  c = Good a → lift c t = Ret a t.
Proof. by intros ->. Qed.

(** A loop whose body returns and keeps [P] returns, and [P] holds at the
    end. *)
Lemma mfor_from_returns {A} (P : N → A → Tree → Prop) (body : N → A → M A)
    (n : nat) :
  ∀ (i : N) (acc : A) (t : Tree),
  (∀ k a u, i ≤ k < i + N.of_nat n → P k a u →
     returns (body k a) u (P (N.succ k))) →
  P i acc t →
  returns (mfor_from n i body acc) t (P (i + N.of_nat n)).
Proof.
  induction n as [|n IH]; intros i acc t Hbody Hacc; simpl.
  - apply returns_mret. by rewrite N.add_0_r.
  - eapply returns_seq; [apply Hbody; [lia|done]|].
    intros a t1 Ha.
    replace (i + N.of_nat (S n)) with (N.succ i + N.of_nat n) by lia.
    apply IH; [|done]. intros k a' u Hk. apply Hbody. lia.
Qed.

(** The node [node] is in the pool with a box of dimension [d], and the
    tree is empty. *)
Definition fresh_leaf (d : nat) (node : N) (t : Tree) : Prop :=
  (∃ nd, nodes t !! N.to_nat node = Some nd ∧
         length (lowerBound (aabb nd)) = d ∧
         length (upperBound (aabb nd)) = d) ∧
  root t = NULL_NODE.

Lemma fresh_leaf_box (d : nat) (node : N) (t : Tree) (nd nd' : Node) :
  fresh_leaf d node t →
  nodes t !! N.to_nat node = Some nd →
  length (lowerBound (aabb nd')) = d →
  length (upperBound (aabb nd')) = d →
  fresh_leaf d node (set_nodes (<[N.to_nat node := nd']> (nodes t)) t).
Proof.
  intros [_ Hroot] Hnd Hl Hu. split; [|done]. exists nd'. split; [|done].
  tsimpl. apply list_lookup_insert_eq. by eapply lookup_lt_Some.
Qed.

(** The loop of [insertParticle] that copies the bounds into the leaf. *)
Lemma copy_bounds_runs (node d : N) (lowerBound_ upperBound_ : list double)
    (t : Tree) :
  vsize lowerBound_ = d → vsize upperBound_ = d →
  (∀ i l u, lowerBound_ !! i = Some l → upperBound_ !! i = Some u →
            dgt l u = false) →
  fresh_leaf (N.to_nat d) node t →
  returns
    (mfor 0 d (λ i size_,
        l ← lift (vget lowerBound_ i);
        u ← lift (vget upperBound_ i);
        if dgt l u then
          throw (invalid_argument
                   "[ERROR]: AABB lower bound is greater than the upper bound!")
        else
          wrc node (setLower i l);;
          wrc node (setUpper i u);;
          lift (vset size_ i (PrimFloat.sub u l)))
       (replicate (N.to_nat d) 0%float)) t
    (λ size_ t', length size_ = N.to_nat d ∧ fresh_leaf (N.to_nat d) node t').
Proof.
  intros Hlo Hup Hle Hfresh. unfold mfor. rewrite N.sub_0_r.
  eapply (mfor_from_returns
            (λ _ size_ t', length size_ = N.to_nat d ∧
                           fresh_leaf (N.to_nat d) node t')).
  2:{ split; [by rewrite length_replicate|done]. }
  intros k size_ u Hk [Hsz Hf]. unfold vsize in *.
  destruct (lookup_lt_is_Some_2 lowerBound_ (N.to_nat k)) as [l Hl]; [lia|].
  destruct (lookup_lt_is_Some_2 upperBound_ (N.to_nat k)) as [x Hx]; [lia|].
  destruct (lookup_lt_is_Some_2 size_ (N.to_nat k)) as [z Hz]; [lia|].
  eapply returns_bind; [by apply lift_run, vget_lookup|].
  eapply returns_bind; [by apply lift_run, vget_lookup|]. cbv beta.
  rewrite (Hle _ _ _ Hl Hx).
  pose proof Hf as [(nd & Hnd & Hnl & Hnu) _].
  destruct (lookup_lt_is_Some_2 (lowerBound (aabb nd)) (N.to_nat k)) as [y Hy];
    [lia|].
  destruct (lookup_lt_is_Some_2 (upperBound (aabb nd)) (N.to_nat k)) as [y' Hy'];
    [lia|].
  eapply returns_bind.
  { eapply wrc_run; [exact Hnd|]. unfold setLower.
    by rewrite (vset_lookup _ _ _ _ Hy). }
  eapply returns_bind.
  { eapply wrc_run.
    - tsimpl. apply list_lookup_insert_eq. by eapply lookup_lt_Some.
    - unfold setUpper. simpl. by rewrite (vset_lookup _ _ _ _ Hy'). }
  exists (<[N.to_nat k := PrimFloat.sub x l]> size_). eexists.
  split; [by apply lift_run, (vset_lookup _ _ _ z)|].
  split; [by rewrite length_insert|].
  split; [|by destruct Hf]. tsimpl. eexists. split.
  { apply list_lookup_insert_eq. rewrite length_insert. by eapply lookup_lt_Some. }
  simpl. by rewrite !length_insert.
Qed.

(** The loop of [insertParticle] that fattens the box of the leaf. *)
Lemma fatten_runs (node d : N) (size_ : list double) (t : Tree) :
  length size_ = N.to_nat d →
  fresh_leaf (N.to_nat d) node t →
  returns
    (mfor 0 d (λ i (_ : unit),
        s ← gets skinThickness;
        sz ← lift (vget size_ i);
        wrc node (λ nd, x ← vget (lowerBound (aabb nd)) i;
                        setLower i (PrimFloat.sub x (PrimFloat.mul s sz)) nd);;
        wrc node (λ nd, x ← vget (upperBound (aabb nd)) i;
                        setUpper i (PrimFloat.add x (PrimFloat.mul s sz)) nd))
       tt) t
    (λ _ t', fresh_leaf (N.to_nat d) node t').
Proof.
  intros Hsz Hfresh. unfold mfor. rewrite N.sub_0_r.
  eapply (mfor_from_returns (λ _ (_ : unit) t', fresh_leaf (N.to_nat d) node t'));
    [|done].
  intros k [] u Hk Hf.
  destruct (lookup_lt_is_Some_2 size_ (N.to_nat k)) as [z Hz]; [lia|].
  pose proof Hf as [(nd & Hnd & Hnl & Hnu) Hroot].
  destruct (lookup_lt_is_Some_2 (lowerBound (aabb nd)) (N.to_nat k)) as [y Hy];
    [lia|].
  destruct (lookup_lt_is_Some_2 (upperBound (aabb nd)) (N.to_nat k)) as [y' Hy'];
    [lia|].
  eapply returns_bind; [reflexivity|].
  eapply returns_bind; [by apply lift_run, vget_lookup|].
  eapply returns_bind.
  { eapply wrc_run; [exact Hnd|]. rewrite (vget_lookup _ _ _ Hy). simpl.
    unfold setLower. by rewrite (vset_lookup _ _ _ _ Hy). }
  eexists tt, _. split.
  { eapply wrc_run.
    - tsimpl. apply list_lookup_insert_eq. by eapply lookup_lt_Some.
    - simpl. rewrite (vget_lookup _ _ _ Hy'). simpl.
      unfold setUpper. simpl. by rewrite (vset_lookup _ _ _ _ Hy'). }
  split; [|done]. tsimpl. eexists. split.
  { apply list_lookup_insert_eq. rewrite length_insert. by eapply lookup_lt_Some. }
  simpl. by rewrite !length_insert.
Qed.

Lemma refreshAABB_runs (d : nat) (node : N) (t : Tree) :
  fresh_leaf d node t →
  returns (refreshAABB node) t (λ _ t', fresh_leaf d node t').
Proof.
  intros [(nd & Hnd & Hnl & Hnu) Hroot]. unfold refreshAABB.
  destruct (computeSurfaceArea_Good (aabb nd)) as [sa Hsa]; [lia|].
  destruct (computeCentre_Good (set_surfaceArea sa (aabb nd))) as (c & Hc & _);
    [simpl; lia|].
  eapply returns_bind.
  { eapply wrc_run; [exact Hnd|]. by rewrite Hsa. }
  eexists tt, _. split.
  { eapply wrc_run.
    - tsimpl. apply list_lookup_insert_eq. by eapply lookup_lt_Some.
    - simpl. by rewrite Hc. }
  split; [|done]. tsimpl. eexists. split.
  { apply list_lookup_insert_eq. rewrite length_insert. by eapply lookup_lt_Some. }
  done.
Qed.

(** [insertParticle] into an empty tree returns when the identifier is new,
    the two vectors have the dimension of the tree and no lower bound is
    above its upper bound. *)
Lemma insertParticle_first_runs (t : Tree) (fl : list N) (particle_ : N)
    (lowerBound_ upperBound_ : list double) :
  pool t [] fl → root t = NULL_NODE →
  particleMap t !! particle_ = None →
  2 ≤ dimension t → 0 < nodeCapacity t →
  vsize lowerBound_ = dimension t → vsize upperBound_ = dimension t →
  (∀ i l u, lowerBound_ !! i = Some l → upperBound_ !! i = Some u →
            dgt l u = false) →
  ∃ t', insertParticle particle_ lowerBound_ upperBound_ t = Ret tt t'.
Proof.
  intros Hp Hroot Hnew Hd Hpos Hlo Hup Hle.
  cut (returns (insertParticle particle_ lowerBound_ upperBound_) t (λ _ _, True)).
  { intros ([] & t' & H & _). by exists t'. }
  unfold insertParticle. run_pure.
  rewrite bool_decide_false by (rewrite Hnew; by intros [? ?]).
  run_pure. rewrite Hlo, Hup, N.eqb_refl. simpl.
  destruct (allocateNode_runs t [] fl) as (node & t0 & nd & H0 & Hnd & Hnl & Hnu);
    try done.
  { intros ->. pose proof (pool_total _ _ _ Hp). simpl in *. lia. }
  destruct (allocateNode_spec _ _ _ _ _ Hp H0) as (_ & _ & _ & Hf0 & Hroot0 & _).
  assert (fresh_leaf (N.to_nat (dimension t)) node t0) as Hfresh.
  { split; [by exists nd|congruence]. }
  eapply returns_bind; [exact H0|].
  eapply returns_seq; [by apply copy_bounds_runs|].
  intros size_ t1 [Hsz Hf1]. cbv beta.
  eapply returns_seq; [by apply fatten_runs|].
  intros [] t2 Hf2. cbv beta.
  eapply returns_seq; [by eapply refreshAABB_runs|].
  intros [] t3 [(nd3 & Hnd3 & _) Hroot3]. cbv beta.
  assert (node < vsize (nodes t3)) as Hlt by (by eapply lookup_N_lt).
  unfold vsize in Hlt.
  run_wr; [lia|].
  eapply returns_bind.
  { unfold insertLeaf. unfold mbind at 1, M_bind at 1, bindM at 1, gets at 1.
    tsimpl. rewrite Hroot3, N.eqb_refl.
    unfold mbind, M_bind, bindM, gets, modify. tsimpl.
    unfold wr, wrc. tsimpl.
    rewrite nth_N_lookup, list_lookup_insert_eq by lia. reflexivity. }
  run_pure.
  lazymatch goal with
  | |- returns (wr ?i ?f) ?T _ =>
    destruct (wr_run i f T) as (nd' & _ & Hwr);
    [unfold vsize; tsimpl; rewrite !length_insert; lia|]
  end.
  by eexists _, _.
Qed.

(** ** The last particle *)

(** [removeParticle] returns on a tree whose only particle it removes. *)
Lemma removeParticle_last_runs (t : Tree) (fl : list N) (particle_ node : N) :
  pool t [node] fl → root t = node →
  rep (nodes t) NULL_NODE (Lf node) →
  particleMap t !! particle_ = Some node →
  ∃ t', removeParticle particle_ t = Ret tt t'.
Proof.
  intros Hp Hroot (nd & Hnd & _ & Hleft & _) Hin.
  cut (returns (removeParticle particle_) t (λ _ _, True)).
  { intros ([] & t' & H & _). by exists t'. }
  pose proof (pool_bound _ _ _ Hp node (list_elem_of_here _ _)) as Hb.
  unfold removeParticle. run_pure. rewrite Hin. run_pure.
  eapply returns_bind.
  { unfold assertLeafIndex.
    unfold mbind at 1, M_bind at 1, bindM at 1.
    rewrite massert_run.
    - apply massert_run. erewrite rd_run by (tsimpl; exact Hnd).
      unfold isLeaf. by rewrite Hleft, N.eqb_refl.
    - unfold mbind, M_bind, bindM, gets, mret, M_ret. tsimpl.
      by rewrite (proj2 (N.ltb_lt _ _)). }
  eapply returns_bind.
  { unfold removeLeaf, mbind, M_bind, bindM, gets. tsimpl.
    rewrite Hroot, N.eqb_refl. reflexivity. }
  tsimpl.
  lazymatch goal with
  | |- returns (freeNode node) ?T _ =>
    destruct (freeNode_runs T [] fl node) as [t' Ht']
  end.
  { destruct Hp as [Hs Hc Hch Hnd' Hcov Hbd Hcnt Htot]. by split; tsimpl. }
  by exists tt, t'.
Qed.

(** ** What a query reports *)

(** The particle [q] is in a leaf of the pool whose box overlaps [aabb_], and
    it is not [particle_]. *)
Definition hit (t : Tree) (particle_ : N) (aabb_ : AABB) (q : N) : Prop :=
  ∃ node nd, nodes t !! N.to_nat node = Some nd ∧ isLeaf nd = true ∧
    particle nd = q ∧ q ≠ particle_ ∧
    overlaps aabb_ (aabb nd) (touchIsOverlap t) = Good true.

Lemma queryLoop_sound (particle_ : N) (aabb_ : AABB) :
  ∀ (n : nat) (stack particles : list N) (t t' : Tree) (found : list N),
    queryLoop n particle_ aabb_ stack particles t = Ret found t' →
    (∀ q, q ∈ particles → hit t particle_ aabb_ q) →
    ∀ q, q ∈ found → hit t particle_ aabb_ q.
Proof.
  induction n as [|n IH]; intros stack particles t t' found H Hold;
    destruct stack as [|node stack]; simpl in H.
  - by apply mret_Ret in H as [-> _].
  - discriminate.
  - by apply mret_Ret in H as [-> _].
  - minv H; (eapply IH; [exact H|]); try done.
    intros q [Hq|Hq%list_elem_of_singleton]%elem_of_app; [by apply Hold|].
    subst q.
    match goal with
    | Hb : negb (_ =? _) = true |- _ => apply negb_true_iff, N.eqb_neq in Hb
    end.
    simplify_eq. eexists node, _. split_and!; try done.
Qed.

(** ** Inspecting a well-formed tree *)

(** The leaf of a particle of a well-formed tree is a leaf of the pool. *)
Lemma wf_particle_leaf (t : Tree) (particle_ node : N) :
  wf t → particleMap t !! particle_ = Some node →
  node < nodeCapacity t ∧
  ∃ nd, nodes t !! N.to_nat node = Some nd ∧ isLeaf nd = true.
Proof.
  intros (o & fl & Hp & Ht & Hmap & _) Hin.
  assert (node ∈ oleaves o) as Hleaf.
  { rewrite <- Hmap. apply list_elem_of_fmap. exists (particle_, node).
    split; [done|]. by apply elem_of_map_to_list. }
  destruct o as [s|]; simpl in Hleaf; [|by apply elem_of_nil in Hleaf].
  destruct Ht as [_ Hrep].
  destruct (rep_leaf _ _ _ _ Hrep Hleaf) as (nd & Hnd & Hl & _).
  split.
  - apply (pool_bound _ _ _ Hp). by apply leaves_in_ids.
  - exists nd. split; [done|]. unfold isLeaf. by rewrite Hl, N.eqb_refl.
Qed.

Lemma getAABB_known (t : Tree) (particle_ node : N) (nd : Node) :
  particleMap t !! particle_ = Some node →
  nodes t !! N.to_nat node = Some nd →
  getAABB particle_ t = Ret (aabb nd) t.
Proof.
  intros Hin Hnd. unfold getAABB, mbind, M_bind, bindM, gets, mret, M_ret.
  rewrite Hin. by apply rd_run.
Qed.

Lemma getHeight_wf (t : Tree) : wf t → ∃ h, getHeight t = Ret h t.
Proof.
  intros (o & fl & Hp & Ht & _). unfold getHeight, mbind, M_bind, bindM, gets.
  destruct o as [s|]; simpl in Ht.
  - destruct Ht as [Hroot Hrep].
    destruct (rep_root _ _ _ Hrep) as (nd & Hnd & _).
    assert (root t ≠ NULL_NODE) as Hne.
    { rewrite Hroot. pose proof (pool_bound _ _ _ Hp (idx s) (idx_in_ids s)).
      pose proof (pool_cap _ _ _ Hp). unfold NULL_NODE, UINT_MAX in *. lia. }
    apply N.eqb_neq in Hne. rewrite Hne, Hroot.
    erewrite rd_run by done. by eexists.
  - rewrite Ht. by eexists.
Qed.

(** ** updateParticle with inverted bounds *)

(** The loop of [updateParticle] that computes the size of the new box
    throws at the first axis whose lower bound is above its upper bound, and
    it has not written anything by then. *)
Lemma size_loop_throws (lowerBound_ upperBound_ : list double) (t : Tree)
    (n : nat) :
  ∀ (i : N) (size_ : list double) (k : nat) (l u : double),
  (N.to_nat i + n ≤ length lowerBound_)%nat →
  (N.to_nat i + n ≤ length upperBound_)%nat →
  (N.to_nat i + n ≤ length size_)%nat →
  (N.to_nat i ≤ k < N.to_nat i + n)%nat →
  lowerBound_ !! k = Some l → upperBound_ !! k = Some u → dgt l u = true →
  mfor_from n i (λ i size_,
      l ← lift (vget lowerBound_ i);
      u ← lift (vget upperBound_ i);
      if dgt l u then
        throw (invalid_argument
                 "[ERROR]: AABB lower bound is greater than the upper bound!")
      else lift (vset size_ i (PrimFloat.sub u l))) size_ t
  = Throw (invalid_argument
             "[ERROR]: AABB lower bound is greater than the upper bound!") t.
Proof.
  induction n as [|n IH]; intros i size_ k l u Hlo Hup Hsz Hk Hl Hu Hinv;
    [lia|].
  simpl.
  destruct (lookup_lt_is_Some_2 lowerBound_ (N.to_nat i)) as [li Hli]; [lia|].
  destruct (lookup_lt_is_Some_2 upperBound_ (N.to_nat i)) as [ui Hui]; [lia|].
  destruct (lookup_lt_is_Some_2 size_ (N.to_nat i)) as [zi Hzi]; [lia|].
  unfold mbind at 1, M_bind at 1, bindM at 1.
  unfold mbind at 1, M_bind at 1, bindM at 1.
  rewrite (lift_run _ _ _ (vget_lookup _ _ _ Hli)).
  unfold mbind at 1, M_bind at 1, bindM at 1.
  rewrite (lift_run _ _ _ (vget_lookup _ _ _ Hui)).
  destruct (dgt li ui) eqn:Hi; [done|].
  rewrite (lift_run _ _ _ (vset_lookup _ _ _ _ Hzi)).
  apply (IH _ _ k l u); try done; rewrite ?length_insert; try lia.
  destruct (decide (k = N.to_nat i)) as [->|]; [congruence|lia].
Qed.

(** X30.  [updateParticle] of a particle of a well-formed tree, with two
    bound vectors of the dimension of the tree of which one lower bound is
    above its upper bound, throws [std::invalid_argument] and leaves the tree
    as it found it: this check runs before anything is written. *)
Theorem updateParticle_rejects_inverted_bounds (t : Tree) (particle_ node : N)
    (lowerBound_ upperBound_ : list double) (alwaysReinsert : bool)
    (k : nat) (l u : double) :
  wf t → particleMap t !! particle_ = Some node →
  vsize lowerBound_ = dimension t → vsize upperBound_ = dimension t →
  lowerBound_ !! k = Some l → upperBound_ !! k = Some u → dgt l u = true →
  updateParticle particle_ lowerBound_ upperBound_ alwaysReinsert t
  = Throw (invalid_argument
             "[ERROR]: AABB lower bound is greater than the upper bound!") t.
Proof.
  intros Hwf Hin Hlo Hup Hl Hu Hinv.
  destruct (wf_particle_leaf _ _ _ Hwf Hin) as (Hb & nd & Hnd & Hleaf).
  unfold updateParticle.
  unfold mbind at 1, M_bind at 1, bindM at 1, gets at 1.
  rewrite Hlo, Hup, N.eqb_refl. simpl.
  unfold mbind at 1, M_bind at 1, bindM at 1, gets at 1. rewrite Hin.
  assert (assertLeafIndex node t = Ret tt t) as Ha.
  { unfold assertLeafIndex. unfold mbind at 1, M_bind at 1, bindM at 1.
    rewrite massert_run.
    - apply massert_run. erewrite rd_run by done. by rewrite Hleaf.
    - unfold mbind, M_bind, bindM, gets, mret, M_ret.
      by rewrite (proj2 (N.ltb_lt _ _)). }
  unfold mbind at 1, M_bind at 1, bindM at 1. rewrite Ha.
  unfold mbind at 1, M_bind at 1, bindM at 1.
  unfold mfor. rewrite N.sub_0_r.
  pose proof (lookup_lt_Some _ _ _ Hl). unfold vsize in *.
  rewrite (size_loop_throws _ _ _ _ _ _ k l u); try done;
    rewrite ?length_replicate; lia.
Qed.

End Build.

(** * Concrete runs *)

Set Warnings "-inexact-float".

(** The tree that an outcome carries. *)
Definition tree_of {A} (o : outcome A) : Tree :=
  match o with
  | Ret _ t | Throw _ t => t
  | _ => Tree_members 0 0%float false
  end.

(** [Tree tree(2, skin, 4)], empty. *)
Definition empty_tree (skin : double) : Tree :=
  tree_of (Tree_new 2 skin 4 true).

(** The tree of scenario 4 of the specification: skin thickness 0.1 and the
    particle 5 with the box (0,0)-(1,1). *)
Definition skin_tree (NDEBUG : bool) : Tree :=
  tree_of (insertParticle NDEBUG 0 5 [0; 0]%float [1; 1]%float
             (empty_tree 0.1%float)).

(** Two unit boxes side by side, one unit apart: particle 1 at (0,0)-(1,1)
    and particle 2 at (2,0)-(3,1); no skin. *)
Definition pair_tree (NDEBUG : bool) : Tree :=
  tree_of (insertParticle NDEBUG 1 2 [2; 0]%float [3; 1]%float
             (tree_of (insertParticle NDEBUG 1 1 [0; 0]%float [1; 1]%float
                         (empty_tree 0%float)))).

(** The unit box between the two boxes of [pair_tree], as [insertParticle]
    stores it in a leaf. *)
Definition middle_box : AABB :=
  {| lowerBound := [1; 0]%float; upperBound := [2; 1]%float;
     centre := [1.5; 0.5]%float; surfaceArea := 4%float |}.

(** A tree whose only particle has the identifier 4294967295 and the box
    (0,0)-(1,1). *)
Definition max_id_tree (NDEBUG : bool) : Tree :=
  tree_of (insertParticle NDEBUG 0 4294967295 [0; 0]%float [1; 1]%float
             (empty_tree 0%float)).

(** The parent, the children and the particle of the nodes of a tree. *)
Definition links (t : Tree) : list (N * N * N * N) :=
  (λ nd, (parent nd, left nd, right nd, particle nd)) <$> nodes t.

(** C1 (as the code has it).  [insertParticle] with the inverted bounds
    (1,0)-(0,1) on an empty tree throws, and the tree it leaves is not the
    tree it found: the node that [allocateNode] took from the free list
    before the bounds were checked stays allocated. *)
Theorem insertParticle_inverted_bounds_leaks (NDEBUG : bool) (fuel : nat) :
  let t := empty_tree 0.05%float in
  let o := insertParticle NDEBUG fuel 0 [1; 0]%float [0; 1]%float t in
  o = Throw (invalid_argument
               "[ERROR]: AABB lower bound is greater than the upper bound!")
        (tree_of o) ∧
  (nodeCount t, freeList t) = (0, 0) ∧
  (nodeCount (tree_of o), freeList (tree_of o)) = (1, 1) ∧
  height <$> nodes t !! 0%nat = Some (-1)%Z ∧
  height <$> nodes (tree_of o) !! 0%nat = Some 0%Z.
Proof. destruct NDEBUG; vm_compute; done. Qed.

(** [getAABB(7)] on an empty tree. *)
Lemma getAABB_unknown_particle_witness :
  let t := empty_tree 0.05%float in
  particleMap t !! 7 = None ∧
  ∃ nd, nodes t !! 0%nat = Some nd ∧
        getAABB 7 t
        = Ret (aabb nd) (set_particleMap (<[7 := 0]> (particleMap t)) t).
Proof.
  split; [vm_compute; reflexivity|]. eexists. split; [vm_compute; reflexivity|].
  apply getAABB_unknown_particle; vm_compute; reflexivity.
Defined.

(** C3 (as the code has it).  Scenario 4 of the specification: the stored
    box of particle 5 is (-0.1,-0.1)-(1.1,1.1) and contains the new box
    (0.05,0.05)-(1.05,1.05), yet [updateParticle] does not return [false]: the
    box that [AABB(lowerBound, upperBound)] builds has no bounds, and
    [contains] fails its assertion on the dimensions, or indexes the empty
    vector when the assertion is compiled out. *)
Theorem updateParticle_within_skin_faults (fuel : nat) :
  let lower := [0.05; 0.05]%float in
  let upper := [1.05; 1.05]%float in
  let stored := {| lowerBound := [-0.1; -0.1]%float;
                   upperBound := [1.1; 1.1]%float;
                   centre := [0.5; 0.5]%float;
                   surfaceArea := 4.8000000000000007%float |} in
  (∀ NDEBUG,
     particleMap (skin_tree NDEBUG) !! 5 = Some 0 ∧
     aabb <$> nodes (skin_tree NDEBUG) !! 0%nat = Some stored ∧
     contains NDEBUG stored (set_upperBound upper (set_lowerBound lower stored))
     = Good true) ∧
  updateParticle false fuel 5 lower upper false (skin_tree false)
  = Fault AssertionFailed ∧
  updateParticle true fuel 5 lower upper false (skin_tree true)
  = Fault (OutOfBounds 0).
Proof. split; [intros []; vm_compute; done|]. split; vm_compute; done. Qed.

(** C4 (as the code has it).  On the two-dimensional [skin_tree],
    [updateParticle] with a lower bound of three coordinates and an upper
    bound of two does not report a dimensionality mismatch: the guard needs
    both lengths to be wrong. *)
Theorem updateParticle_one_wrong_length (fuel : nat) :
  let lower := [0; 0; 0]%float in
  let upper := [1; 1]%float in
  dimension (skin_tree false) = 2 ∧
  updateParticle false fuel 5 lower upper false (skin_tree false)
  = Fault AssertionFailed ∧
  updateParticle true fuel 5 lower upper false (skin_tree true)
  = Fault (OutOfBounds 0).
Proof. split; [done|]. split; vm_compute; done. Qed.

(** C6 (as stated, refuted).  In [pair_tree] the root is node 2, with the
    leaf of particle 1 (node 0) on its left and the leaf of particle 2
    (node 1) on its right.  For the box between them the three costs at the
    root are 16, 6 and 6: the descent continues, the two sides tie, and the
    descent goes to node 1, the right child. *)
Lemma descend_tie_not_left :
  let t := pair_tree true in
  (root t, left <$> nodes t !! 2%nat, right <$> nodes t !! 2%nat)
  = (2, Some 0, Some 1) ∧
  descentCosts true middle_box 2 t = Ret (16, 6, 6)%float t ∧
  descentChoice 0 1 16%float 6%float 6%float = Some 1 ∧
  descend true 1 middle_box 2 t = Ret 1 t ∧
  links (tree_of (insertParticle true 2 3 [1; 0]%float [2; 1]%float t))
  = [(2, NULL_NODE, NULL_NODE, 1); (4, NULL_NODE, NULL_NODE, 2);
     (NULL_NODE, 0, 4, 0); (4, NULL_NODE, NULL_NODE, 3); (2, 1, 3, 0);
     (0, 0, 0, 0); (0, 0, 0, 0); (0, 0, 0, 0)].
Proof. vm_compute. done. Qed.

(** The tie at the root of [pair_tree]. *)
Lemma descend_tie_goes_right_witness :
  let t := pair_tree true in
  ∃ nd, nodes t !! N.to_nat 2 = Some nd ∧ isLeaf nd = false ∧
    (left nd, right nd) = (0, 1) ∧
    descentCosts true middle_box 2 t = Ret (16, 6, 6)%float t ∧
    dlt 16%float 6%float && dlt 16%float 6%float = false ∧
    deq 6%float 6%float = true ∧
    descentChoice (left nd) (right nd) 16%float 6%float 6%float
    = Some (if dlt 6%float 6%float then left nd else right nd) ∧
    descend true 1 middle_box 2 t
    = descend true 0 middle_box
        (if dlt 6%float 6%float then left nd else right nd) t ∧
    (deq 6%float 6%float = true →
     dlt 6%float 6%float = false ∧
     descentChoice (left nd) (right nd) 16%float 6%float 6%float
     = Some (right nd) ∧
     descend true 1 middle_box 2 t = descend true 0 middle_box (right nd) t).
Proof.
  eexists. split; [vm_compute; reflexivity|]. split; [vm_compute; reflexivity|].
  split; [vm_compute; reflexivity|]. split; [vm_compute; reflexivity|].
  split; [vm_compute; reflexivity|]. split; [vm_compute; reflexivity|].
  apply (descend_tie_goes_right true 0 middle_box 2 (pair_tree true));
    vm_compute; reflexivity.
Defined.

(** C8 (as the code has it).  [rebuild] on an empty tree reads
    [nodeIndices[0]] of a vector of [nodeCount = 0] elements. *)
Theorem rebuild_empty_tree_faults (NDEBUG : bool) (fuel : nat) :
  let t := empty_tree 0.05%float in
  (root t, nodeCount t, size (particleMap t)) = (NULL_NODE, 0, 0%nat) ∧
  rebuild NDEBUG fuel t = Fault (OutOfBounds 0).
Proof. destruct NDEBUG; vm_compute; done. Qed.

(** [query(aabb)] on [max_id_tree] with the box of its only particle. *)
Lemma query_aabb_excludes_UINT_MAX_witness :
  let t := max_id_tree true in
  let box := {| lowerBound := [0; 0]%float; upperBound := [1; 1]%float;
                centre := [0.5; 0.5]%float; surfaceArea := 4%float |} in
  particleMap t !! 4294967295 = Some 0 ∧
  aabb <$> nodes t !! 0%nat = Some box ∧
  overlaps true box box true = Good true ∧
  query_aabb true 1 box t = Ret [] t ∧
  query_aabb true 1 box t = query_particle_aabb true 1 4294967295 box t ∧
  ∀ found t', query_aabb true 1 box t = Ret found t' → 4294967295 ∉ found.
Proof.
  split; [vm_compute; reflexivity|]. split; [vm_compute; reflexivity|]. split; [vm_compute; reflexivity|].
  split; [vm_compute; reflexivity|].
  apply (query_aabb_excludes_UINT_MAX true 1 (max_id_tree true)).
  vm_compute. discriminate.
Defined.

(** [query(5, aabb)] on an empty tree of capacity 4. *)
Lemma query_indexes_before_null_check_witness :
  let t := empty_tree 0%float in
  (root t, nodeCapacity t, vsize (nodes t)) = (NULL_NODE, 4, 4) ∧
  query_particle_aabb true 1 5 middle_box t = Fault (OutOfBounds 0xffffffff).
Proof.
  split; [vm_compute; reflexivity|].
  apply (query_indexes_before_null_check true 1 (empty_tree 0%float) 5 middle_box);
    [vm_compute; reflexivity|vm_compute; discriminate|discriminate|
     vm_compute; reflexivity].
Defined.

(** * Properties of the operations *)

(** ** Boxes *)

(** The unit box (0,0)-(1,1) and the box (2,0)-(3,1) beside it. *)
Definition unit_box : AABB :=
  {| lowerBound := [0; 0]%float; upperBound := [1; 1]%float;
     centre := [0.5; 0.5]%float; surfaceArea := 4%float |}.

Definition far_box : AABB :=
  {| lowerBound := [2; 0]%float; upperBound := [3; 1]%float;
     centre := [2.5; 0.5]%float; surfaceArea := 4%float |}.

Lemma contains_reflexive_witness :
  length (upperBound unit_box) = length (lowerBound unit_box) ∧
  contains false unit_box unit_box = Good true.
Proof.
  split; [reflexivity|]. apply (contains_reflexive false unit_box). reflexivity.
Defined.

Lemma merge_contains_both_witness :
  length (lowerBound far_box) = length (lowerBound unit_box) ∧
  length (upperBound unit_box) = length (lowerBound unit_box) ∧
  length (upperBound far_box) = length (lowerBound unit_box) ∧
  ∃ r, merge false AABB_default unit_box far_box = Good r ∧
    lowerBound r = zip_with dmin (lowerBound unit_box) (lowerBound far_box) ∧
    upperBound r = zip_with dmax (upperBound unit_box) (upperBound far_box) ∧
    contains false r unit_box = Good true ∧ contains false r far_box = Good true.
Proof.
  split; [reflexivity|]. split; [reflexivity|]. split; [reflexivity|].
  apply (merge_contains_both false AABB_default unit_box far_box); reflexivity.
Defined.

Lemma overlaps_symmetric_witness :
  length (lowerBound middle_box) = length (lowerBound unit_box) ∧
  length (upperBound unit_box) = length (lowerBound unit_box) ∧
  length (upperBound middle_box) = length (lowerBound unit_box) ∧
  overlaps false unit_box middle_box true = Good true ∧
  overlaps false unit_box middle_box true = overlaps false middle_box unit_box true.
Proof.
  split; [reflexivity|]. split; [reflexivity|]. split; [reflexivity|].
  split; [vm_compute; reflexivity|].
  apply (overlaps_symmetric false unit_box middle_box true); reflexivity.
Defined.

(** ** The constructor *)

(** X4.  [Tree(dimension, skinThickness, nParticles, touchIsOverlap)]
    returns for every dimension from 2 and every positive number of
    particles: the tree it builds is well formed and empty, its pool has
    [nParticles] nodes and all of them are on the free list. *)
Theorem Tree_new_empty (dimension_ : N) (skinThickness_ : double)
    (nParticles : N) (touchIsOverlap_ : bool) :
  2 ≤ dimension_ → 0 < nParticles → nParticles ≤ UINT_MAX →
  ∃ t, Tree_new dimension_ skinThickness_ nParticles touchIsOverlap_ = Ret tt t ∧
    wf t ∧ root t = NULL_NODE ∧ nodeCount t = 0 ∧
    nodeCapacity t = nParticles ∧ particleMap t = ∅ ∧
    dimension t = dimension_ ∧ skinThickness t = skinThickness_ ∧
    touchIsOverlap t = touchIsOverlap_ ∧
    ∃ fl, chain (nodes t) (freeList t) fl ∧ N.of_nat (length fl) = nParticles.
Proof.
  intros Hd Hpos Hmax.
  destruct (Tree_new_runs dimension_ skinThickness_ nParticles touchIsOverlap_)
    as [t Ht]; try done.
  exists t. split; [done|].
  apply Tree_new_spec in Ht as (Hwf & _ & _ & ? & Hnc & Hcap & ? & ? & ? & ?);
    [|done].
  split_and!; try done.
  destruct (wf_counts t Hwf) as (fl & Hc & _ & Hsum & _).
  exists fl. split; [done|]. lia.
Qed.

Lemma Tree_new_empty_witness :
  2 ≤ 2 ∧ 0 < 4 ∧ 4 ≤ UINT_MAX ∧
  ∃ t, Tree_new 2 0.05%float 4 true = Ret tt t ∧
    wf t ∧ root t = NULL_NODE ∧ nodeCount t = 0 ∧
    nodeCapacity t = 4 ∧ particleMap t = ∅ ∧
    dimension t = 2 ∧ skinThickness t = 0.05%float ∧
    touchIsOverlap t = true ∧
    ∃ fl, chain (nodes t) (freeList t) fl ∧ N.of_nat (length fl) = 4.
Proof.
  split; [lia|]. split; [lia|]. split; [unfold UINT_MAX; lia|].
  apply (Tree_new_empty 2 0.05%float 4 true); unfold UINT_MAX; lia.
Defined.

(** X5.  A dimension below 2 is refused: the constructor throws
    [std::invalid_argument] before its body assigns anything; only the
    members of the initialiser list are set. *)
Theorem Tree_new_small_dimension (dimension_ : N) (skinThickness_ : double)
    (nParticles : N) (touchIsOverlap_ : bool) :
  dimension_ < 2 →
  Tree_new dimension_ skinThickness_ nParticles touchIsOverlap_
  = Throw (invalid_argument "[ERROR]: Invalid dimensionality!")
      (Tree_members dimension_ skinThickness_ touchIsOverlap_).
Proof.
  intros Hd. unfold Tree_new, Tree_body, mbind, M_bind, bindM, gets.
  cbn [dimension Tree_members].
  by rewrite (proj2 (N.ltb_lt _ _)).
Qed.

Lemma Tree_new_small_dimension_witness :
  1 < 2 ∧
  Tree_new 1 0.05%float 16 true
  = Throw (invalid_argument "[ERROR]: Invalid dimensionality!")
      (Tree_members 1 0.05%float true).
Proof.
  split; [lia|]. apply (Tree_new_small_dimension 1 0.05%float 16 true). lia.
Defined.

(** X6.  [Tree(dimension, skinThickness, 0)] is not an empty tree: with no
    node in the pool, [nodeCapacity - 1] wraps to 4294967295 and the loop
    that links the free list writes [nodes[0]] of an empty vector. *)
Theorem Tree_new_no_particles (dimension_ : N) (skinThickness_ : double)
    (touchIsOverlap_ : bool) :
  2 ≤ dimension_ →
  Tree_new dimension_ skinThickness_ 0 touchIsOverlap_ = Fault (OutOfBounds 0).
Proof.
  intros Hd. unfold Tree_new, Tree_body, mbind, M_bind, bindM, gets, modify.
  cbn [dimension Tree_members].
  rewrite (proj2 (N.ltb_ge _ _)) by done.
  cbv beta delta [set_root set_nodes set_nodeCount set_nodeCapacity].
  cbn [root nodes nodeCount nodeCapacity freeList dimension skinThickness
       particleMap touchIsOverlap N.to_nat resize].
  unfold mfor.
  assert (∃ n, N.to_nat (usub 0 1 - 0) = S n) as [n ->].
  { exists (N.to_nat (usub 0 1 - 0) - 1)%nat.
    assert (usub 0 1 = 4294967295) as -> by reflexivity. lia. }
  reflexivity.
Qed.

Lemma Tree_new_no_particles_witness :
  2 ≤ 3 ∧ Tree_new 3 0.05%float 0 true = Fault (OutOfBounds 0).
Proof.
  split; [lia|]. apply (Tree_new_no_particles 3 0.05%float true). lia.
Defined.

(** ** The node pool *)

(** A tree of one particle whose pool has one node: the pool is full. *)
Definition one_slot_tree : Tree :=
  tree_of (insertParticle true 0 7 [0; 0]%float [1; 1]%float
             (tree_of (Tree_new 2 0%float 1 true))).

(** X7.  On a consistent pool [allocateNode] returns a node that was not
    live, with its links and its height reset and a box of the dimension of
    the tree; the live nodes, the root and the particle map are as before.
    With a free node it returns the head of the free list and keeps the
    capacity; on a full pool whose capacity can be doubled it doubles the pool
    and returns the first new node. *)
Theorem allocateNode_fresh (NDEBUG : bool) (t : Tree) (live fl : list N) :
  pool t live fl → 2 ≤ dimension t → 0 < nodeCapacity t →
  (fl = [] → 2 * nodeCapacity t ≤ UINT_MAX) →
  ∃ node t' fl', allocateNode NDEBUG t = Ret node t' ∧
    pool t' (node :: live) fl' ∧ (node ∉ live) ∧
    node = hd (nodeCapacity t) fl ∧
    nodeCapacity t' = match fl with
                      | [] => 2 * nodeCapacity t
                      | _ :: _ => nodeCapacity t
                      end ∧
    frame t t' ∧ root t' = root t ∧
    (∀ j, j ∈ live → nodes t' !! N.to_nat j = nodes t !! N.to_nat j) ∧
    ∃ nd, nodes t' !! N.to_nat node = Some nd ∧ parent nd = NULL_NODE ∧
          left nd = NULL_NODE ∧ right nd = NULL_NODE ∧ height nd = 0%Z ∧
          length (lowerBound (aabb nd)) = N.to_nat (dimension t) ∧
          length (upperBound (aabb nd)) = N.to_nat (dimension t).
Proof.
  intros Hp Hd Hpos Hroom.
  destruct (allocateNode_runs NDEBUG t live fl)
    as (node & t' & nd & H & Hnd & Hnl & Hnu); try done.
  pose proof (allocateNode_node _ _ _ _ _ _ Hp H) as Hnode.
  destruct (allocateNode_spec _ _ _ _ _ _ Hp H)
    as (fl' & Hp' & Hnew & Hfr & Hroot & Hsame & nd' & Hnd' & Hlinks).
  assert (nd' = nd) as -> by congruence.
  exists node, t', fl'. split_and!; try done.
  - destruct fl; simpl; tauto.
  - destruct fl; tauto.
  - exists nd. tauto.
Qed.

Lemma allocateNode_fresh_witness :
  pool one_slot_tree [0] [] ∧ 2 ≤ dimension one_slot_tree ∧
  0 < nodeCapacity one_slot_tree ∧
  (@nil N = [] → 2 * nodeCapacity one_slot_tree ≤ UINT_MAX) ∧
  ∃ node t' fl', allocateNode true one_slot_tree = Ret node t' ∧
    pool t' (node :: [0]) fl' ∧ (node ∉ [0]) ∧
    node = hd (nodeCapacity one_slot_tree) [] ∧
    nodeCapacity t' = 2 * nodeCapacity one_slot_tree ∧
    frame one_slot_tree t' ∧ root t' = root one_slot_tree ∧
    (∀ j, j ∈ [0] →
       nodes t' !! N.to_nat j = nodes one_slot_tree !! N.to_nat j) ∧
    ∃ nd, nodes t' !! N.to_nat node = Some nd ∧ parent nd = NULL_NODE ∧
          left nd = NULL_NODE ∧ right nd = NULL_NODE ∧ height nd = 0%Z ∧
          length (lowerBound (aabb nd)) = N.to_nat (dimension one_slot_tree) ∧
          length (upperBound (aabb nd)) = N.to_nat (dimension one_slot_tree).
Proof.
  split; [apply pool_check_sound; vm_compute; reflexivity|].
  split; [vm_compute; discriminate|].
  split; [vm_compute; reflexivity|].
  split; [intros _; vm_compute; discriminate|].
  apply (allocateNode_fresh true one_slot_tree [0] []).
  - apply pool_check_sound. vm_compute. reflexivity.
  - vm_compute. discriminate.
  - vm_compute. reflexivity.
  - intros _. vm_compute. discriminate.
Defined.

(** X8.  [freeNode] returns on every live node: the node becomes the head
    of the free list, and no other node, nor the root or the particle map,
    changes. *)
Theorem freeNode_pushes (NDEBUG : bool) (t : Tree) (live fl : list N)
    (node : N) :
  pool t (node :: live) fl →
  ∃ t', freeNode NDEBUG node t = Ret tt t' ∧
    pool t' live (node :: fl) ∧ frame t t' ∧ root t' = root t ∧
    ∀ j, j ≠ node → nodes t' !! N.to_nat j = nodes t !! N.to_nat j.
Proof.
  intros Hp. destruct (freeNode_runs NDEBUG t live fl node Hp) as [t' H].
  exists t'. split; [done|]. by eapply freeNode_spec.
Qed.

Lemma freeNode_pushes_witness :
  pool (pair_tree true) [1; 2; 0] [3] ∧
  ∃ t', freeNode false 1 (pair_tree true) = Ret tt t' ∧
    pool t' [2; 0] [1; 3] ∧ frame (pair_tree true) t' ∧
    root t' = root (pair_tree true) ∧
    ∀ j, j ≠ 1 → nodes t' !! N.to_nat j = nodes (pair_tree true) !! N.to_nat j.
Proof.
  split; [apply pool_check_sound; vm_compute; reflexivity|].
  apply (freeNode_pushes false (pair_tree true) [2; 0] [3] 1).
  apply pool_check_sound. vm_compute. reflexivity.
Defined.

(** X9.  The free list is a stack: a node that is freed is the node that the
    next [allocateNode] returns, and after the two calls the live nodes, the
    free list and the capacity are what they were. *)
Theorem free_then_allocate (NDEBUG : bool) (t : Tree) (live fl : list N)
    (node : N) :
  pool t (node :: live) fl → 2 ≤ dimension t →
  ∃ t1 t2, freeNode NDEBUG node t = Ret tt t1 ∧
    allocateNode NDEBUG t1 = Ret node t2 ∧
    pool t2 (node :: live) fl ∧ nodeCapacity t2 = nodeCapacity t.
Proof.
  intros Hp Hd. destruct (freeNode_runs NDEBUG t live fl node Hp) as [t1 H1].
  destruct (freeNode_spec _ _ _ _ _ _ Hp H1) as (Hp1 & Hfr & _).
  pose proof (pool_bound _ _ _ Hp1) as Hb1.
  pose proof (pool_total _ _ _ Hp) as Htot. pose proof (pool_total _ _ _ Hp1) as Htot1.
  simpl in Htot, Htot1.
  destruct (allocateNode_runs NDEBUG t1 live (node :: fl))
    as (node' & t2 & _ & H2 & _); try done.
  { by rewrite (frame_dimension _ _ Hfr). }
  { lia. }
  destruct (allocateNode_node _ _ _ _ _ _ Hp1 H2) as (-> & Hcap & Hp2).
  exists t1, t2. split_and!; try done. lia.
Qed.

Lemma free_then_allocate_witness :
  pool (pair_tree true) [1; 2; 0] [3] ∧ 2 ≤ dimension (pair_tree true) ∧
  ∃ t1 t2, freeNode false 1 (pair_tree true) = Ret tt t1 ∧
    allocateNode false t1 = Ret 1 t2 ∧
    pool t2 [1; 2; 0] [3] ∧ nodeCapacity t2 = nodeCapacity (pair_tree true).
Proof.
  split; [apply pool_check_sound; vm_compute; reflexivity|].
  split; [vm_compute; discriminate|].
  apply (free_then_allocate false (pair_tree true) [2; 0] [3] 1).
  - apply pool_check_sound. vm_compute. reflexivity.
  - vm_compute. discriminate.
Defined.

(** ** Rotations and leaves *)

(** A node without a box. *)
Definition node_of (parent_ left_ right_ : N) (height_ : Z) : Node :=
  {| aabb := AABB_default; parent := parent_; next := 0; left := left_;
     right := right_; height := height_; particle := 0 |}.

(** A tree of four leaves that leans to the right: the root 0 has the leaf 1
    and the node 2 of height 2 as children. *)
Definition lopsided_tree : Tree :=
  {| root := 0;
     nodes := [node_of NULL_NODE 1 2 3; node_of 0 NULL_NODE NULL_NODE 0;
               node_of 0 3 4 2; node_of 2 5 6 1;
               node_of 2 NULL_NODE NULL_NODE 0;
               node_of 3 NULL_NODE NULL_NODE 0;
               node_of 3 NULL_NODE NULL_NODE 0];
     nodeCount := 7; nodeCapacity := 7; freeList := NULL_NODE; dimension := 2;
     skinThickness := 0%float; particleMap := ∅; touchIsOverlap := true |}.

Definition lopsided_shape : shape :=
  Nd 0 (Lf 1) (Nd 2 (Nd 3 (Lf 5) (Lf 6)) (Lf 4)).

(** The shape of [pair_tree]. *)
Definition pair_shape : shape := Nd 2 (Lf 0) (Lf 1).

(** X10.  [balance] at a node of a tree, whichever of the four rotations it
    makes or none: the subtree [s] at the node becomes a subtree [s'] of the
    same nodes and the same leaves, whose root is the node that [balance]
    returns and which hangs where [s] hung ([path] is the way from the node
    up to the root); the nodes outside the tree, the free list and the
    particle map are untouched. *)
Theorem balance_keeps_nodes (NDEBUG : bool) (t t' : Tree) (path : list step)
    (s : shape) (det fl : list N) (r : N) :
  pool t (ids (plug path s) ++ det) fl →
  root t = idx (plug path s) →
  rep (nodes t) NULL_NODE (plug path s) →
  balance NDEBUG (idx s) t = Ret r t' →
  ∃ s', idx s' = r ∧ ids s' ≡ₚ ids s ∧ leaves s' ≡ₚ leaves s ∧
    root t' = idx (plug path s') ∧
    rep (nodes t') NULL_NODE (plug path s') ∧
    pool t' (ids (plug path s') ++ det) fl ∧ frame t t' ∧
    ∀ j, j ∈ det → nodes t' !! N.to_nat j = nodes t !! N.to_nat j.
Proof. apply balance_spec. Qed.

Lemma balance_keeps_nodes_witness :
  let t' := tree_of (balance false 0 lopsided_tree) in
  pool lopsided_tree (ids (plug [] lopsided_shape) ++ []) [] ∧
  root lopsided_tree = idx (plug [] lopsided_shape) ∧
  rep (nodes lopsided_tree) NULL_NODE (plug [] lopsided_shape) ∧
  balance false (idx lopsided_shape) lopsided_tree = Ret 2 t' ∧
  ∃ s', idx s' = 2 ∧ ids s' ≡ₚ ids lopsided_shape ∧
    leaves s' ≡ₚ leaves lopsided_shape ∧
    root t' = idx (plug [] s') ∧
    rep (nodes t') NULL_NODE (plug [] s') ∧
    pool t' (ids (plug [] s') ++ []) [] ∧ frame lopsided_tree t' ∧
    ∀ j, j ∈ [] → nodes t' !! N.to_nat j = nodes lopsided_tree !! N.to_nat j.
Proof.
  intros t'.
  split; [apply pool_check_sound; vm_compute; reflexivity|].
  split; [vm_compute; reflexivity|].
  split; [apply rep_check_sound; vm_compute; reflexivity|].
  split; [vm_compute; reflexivity|].
  apply (balance_keeps_nodes false lopsided_tree t' [] lopsided_shape [] [] 2).
  - apply pool_check_sound. vm_compute. reflexivity.
  - vm_compute. reflexivity.
  - apply rep_check_sound. vm_compute. reflexivity.
  - vm_compute. reflexivity.
Defined.

(** X11.  [insertLeaf] of a node that is live, outside the tree and has no
    left child: whenever the call returns, the tree has the leaves it had
    and this one, its nodes are again linked consistently both ways, and the
    nodes that are neither in the tree nor the new leaf ([det]) are
    untouched. *)
Theorem insertLeaf_adds_leaf (NDEBUG : bool) (fuel : nat) (t t' : Tree)
    (o : option shape) (det fl : list N) (leaf : N) :
  pool t (oids o ++ leaf :: det) fl →
  tree_at t o →
  (∃ nd, nodes t !! N.to_nat leaf = Some nd ∧ left nd = NULL_NODE ∧
         (0 ≤ height nd)%Z) →
  insertLeaf NDEBUG fuel leaf t = Ret tt t' →
  ∃ s' fl', pool t' (ids s' ++ det) fl' ∧ tree_at t' (Some s') ∧
    leaves s' ≡ₚ leaf :: oleaves o ∧ frame t t' ∧
    ∀ j, j ∈ det → nodes t' !! N.to_nat j = nodes t !! N.to_nat j.
Proof. apply insertLeaf_spec. Qed.

(** [pair_tree] after [allocateNode]: the node 3 is live and not in the
    tree. *)
Definition pending_tree : Tree := tree_of (allocateNode true (pair_tree true)).

Lemma insertLeaf_adds_leaf_witness :
  let t' := tree_of (insertLeaf true 5 3 pending_tree) in
  pool pending_tree (oids (Some pair_shape) ++ 3 :: []) [] ∧
  tree_at pending_tree (Some pair_shape) ∧
  (∃ nd, nodes pending_tree !! N.to_nat 3 = Some nd ∧ left nd = NULL_NODE ∧
         (0 ≤ height nd)%Z) ∧
  insertLeaf true 5 3 pending_tree = Ret tt t' ∧
  ∃ s' fl', pool t' (ids s' ++ []) fl' ∧ tree_at t' (Some s') ∧
    leaves s' ≡ₚ 3 :: oleaves (Some pair_shape) ∧ frame pending_tree t' ∧
    ∀ j, j ∈ [] → nodes t' !! N.to_nat j = nodes pending_tree !! N.to_nat j.
Proof.
  intros t'.
  assert (pool pending_tree (oids (Some pair_shape) ++ 3 :: []) []) as Hp
    by (apply pool_check_sound; vm_compute; reflexivity).
  assert (tree_at pending_tree (Some pair_shape)) as Ht
    by (apply tree_check_sound; vm_compute; reflexivity).
  assert (∃ nd, nodes pending_tree !! N.to_nat 3 = Some nd ∧
                left nd = NULL_NODE ∧ (0 ≤ height nd)%Z) as Hleaf.
  { eexists. split; [vm_compute; reflexivity|]. split; [reflexivity|].
    simpl. lia. }
  assert (insertLeaf true 5 3 pending_tree = Ret tt t') as Hrun
    by (vm_compute; reflexivity).
  split; [exact Hp|]. split; [exact Ht|]. split; [exact Hleaf|].
  split; [exact Hrun|].
  exact (insertLeaf_adds_leaf true 5 pending_tree t' (Some pair_shape) [] [] 3
           Hp Ht Hleaf Hrun).
Defined.

(** X12.  [removeLeaf] of a leaf of the tree: whenever the call returns, the
    tree has the other leaves and only them, and the leaf itself is still
    live, outside the tree, for the caller to free or to insert again.  When
    the leaf was the root the tree is empty and the free list is as it was;
    otherwise the parent of the leaf, and no other node, has gone to the head
    of the free list, and the tree keeps all its other nodes. *)
Theorem removeLeaf_drops_leaf (NDEBUG : bool) (fuel : nat) (t t' : Tree)
    (s : shape) (det fl : list N) (leaf : N) :
  pool t (ids s ++ det) fl →
  tree_at t (Some s) →
  leaf ∈ leaves s →
  removeLeaf NDEBUG fuel leaf t = Ret tt t' →
  ∃ o' fl', pool t' (oids o' ++ leaf :: det) fl' ∧ tree_at t' o' ∧
    leaf :: oleaves o' ≡ₚ leaves s ∧ frame t t' ∧
    (∀ j, j ∈ det → nodes t' !! N.to_nat j = nodes t !! N.to_nat j) ∧
    (∃ nd, nodes t' !! N.to_nat leaf = Some nd ∧ left nd = NULL_NODE ∧
           (0 ≤ height nd)%Z) ∧
    ((leaf = root t ∧ o' = None ∧ fl' = fl ∧ freeList t' = freeList t) ∨
     (leaf ≠ root t ∧
      ∃ nd, nodes t !! N.to_nat leaf = Some nd ∧
        fl' = parent nd :: fl ∧ freeList t' = parent nd ∧
        leaf :: parent nd :: oids o' ≡ₚ ids s)).
Proof. apply removeLeaf_full. Qed.

Lemma removeLeaf_drops_leaf_witness :
  let t' := tree_of (removeLeaf true 5 1 (pair_tree true)) in
  pool (pair_tree true) (ids pair_shape ++ []) [3] ∧
  tree_at (pair_tree true) (Some pair_shape) ∧
  1 ∈ leaves pair_shape ∧
  removeLeaf true 5 1 (pair_tree true) = Ret tt t' ∧
  (parent <$> nodes (pair_tree true) !! 1%nat, freeList t') = (Some 2, 2) ∧
  ∃ o' fl', pool t' (oids o' ++ 1 :: []) fl' ∧ tree_at t' o' ∧
    1 :: oleaves o' ≡ₚ leaves pair_shape ∧ frame (pair_tree true) t' ∧
    (∀ j, j ∈ [] →
       nodes t' !! N.to_nat j = nodes (pair_tree true) !! N.to_nat j) ∧
    (∃ nd, nodes t' !! N.to_nat 1 = Some nd ∧ left nd = NULL_NODE ∧
           (0 ≤ height nd)%Z) ∧
    ((1 = root (pair_tree true) ∧ o' = None ∧ fl' = [3] ∧
      freeList t' = freeList (pair_tree true)) ∨
     (1 ≠ root (pair_tree true) ∧
      ∃ nd, nodes (pair_tree true) !! N.to_nat 1 = Some nd ∧
        fl' = parent nd :: [3] ∧ freeList t' = parent nd ∧
        1 :: parent nd :: oids o' ≡ₚ ids pair_shape)).
Proof.
  intros t'.
  assert (1 ∈ leaves pair_shape) as Hin by (apply (bool_decide_unpack _); reflexivity).
  split; [apply pool_check_sound; vm_compute; reflexivity|].
  split; [apply tree_check_sound; vm_compute; reflexivity|].
  split; [exact Hin|].
  split; [vm_compute; reflexivity|].
  split; [vm_compute; reflexivity|].
  apply (removeLeaf_drops_leaf true 5 (pair_tree true) t' pair_shape [] [3] 1).
  - apply pool_check_sound. vm_compute. reflexivity.
  - apply tree_check_sound. vm_compute. reflexivity.
  - exact Hin.
  - vm_compute. reflexivity.
Defined.

(** X13.  The descent of [insertLeaf] towards the sibling of a new leaf
    reads the tree and does not write it, and the node at which it stops is a
    node of the subtree in which it started. *)
Theorem descend_stays_in_tree (NDEBUG : bool) (leafAABB : AABB) (n : nat)
    (t t' : Tree) (s : shape) (par sib : N) :
  rep (nodes t) par s →
  descend NDEBUG n leafAABB (idx s) t = Ret sib t' →
  t' = t ∧ sib ∈ ids s.
Proof.
  intros Hrep H.
  destruct (descend_spec NDEBUG leafAABB n t t' [] s par sib Hrep H)
    as (-> & path' & s' & Hplug & <-).
  split; [done|]. simpl in Hplug. rewrite <- Hplug, ids_plug.
  apply elem_of_app. left. apply idx_in_ids.
Qed.

Lemma descend_stays_in_tree_witness :
  rep (nodes (pair_tree true)) NULL_NODE pair_shape ∧
  descend true 5 middle_box (idx pair_shape) (pair_tree true)
  = Ret 1 (pair_tree true) ∧
  pair_tree true = pair_tree true ∧ 1 ∈ ids pair_shape.
Proof.
  assert (rep (nodes (pair_tree true)) NULL_NODE pair_shape) as Hrep
    by (apply rep_check_sound; vm_compute; reflexivity).
  assert (descend true 5 middle_box (idx pair_shape) (pair_tree true)
          = Ret 1 (pair_tree true)) as Hrun by (vm_compute; reflexivity).
  split; [exact Hrep|]. split; [exact Hrun|].
  exact (descend_stays_in_tree true middle_box 5 (pair_tree true)
           (pair_tree true) pair_shape NULL_NODE 1 Hrep Hrun).
Defined.

(** ** Particles *)

(** X14.  [insertParticle] on a well-formed tree: whenever the call returns,
    the identifier was new and the two vectors had the dimension of the
    tree; the tree is again well formed, the particle map has one more entry,
    for this particle, and the tree has two more nodes (one for the first
    particle). *)
Theorem insertParticle_keeps_wf (NDEBUG : bool) (fuel : nat) (t t' : Tree)
    (particle_ : N) (lowerBound_ upperBound_ : list double) :
  wf t →
  insertParticle NDEBUG fuel particle_ lowerBound_ upperBound_ t = Ret tt t' →
  wf t' ∧ particleMap t !! particle_ = None ∧
  vsize lowerBound_ = dimension t ∧ vsize upperBound_ = dimension t ∧
  (∃ node, particleMap t' = <[particle_ := node]> (particleMap t)) ∧
  nodeCount t' = N.of_nat (2 * size (particleMap t) + 1).
Proof.
  intros Hwf H.
  destruct (insertParticle_spec _ _ _ _ _ _ _ Hwf H) as (Hwf' & Hnew & node & Hmap).
  split; [done|]. split; [done|].
  assert (vsize lowerBound_ = dimension t ∧ vsize upperBound_ = dimension t)
    as [Hl Hu].
  { unfold insertParticle in H.
    apply bind_Ret in H as (pm & t1 & [-> ->]%gets_Ret & H).
    destruct (bool_decide _); [done|].
    apply bind_Ret in H as (d & t1 & [-> ->]%gets_Ret & H).
    destruct (N.eqb_spec (vsize lowerBound_) (dimension t)); [|done].
    destruct (N.eqb_spec (vsize upperBound_) (dimension t)); done. }
  split_and!; try done; [by exists node|].
  destruct (wf_counts t' Hwf') as (_ & _ & _ & _ & ->).
  rewrite Hmap, map_size_insert_None by done. f_equal. lia.
Qed.

Lemma insertParticle_keeps_wf_witness :
  let t' := tree_of (insertParticle false 5 3 [4; 0]%float [5; 1]%float
                       (pair_tree false)) in
  wf (pair_tree false) ∧
  insertParticle false 5 3 [4; 0]%float [5; 1]%float (pair_tree false)
  = Ret tt t' ∧
  wf t' ∧ particleMap (pair_tree false) !! 3 = None ∧
  vsize [4; 0]%float = dimension (pair_tree false) ∧
  vsize [5; 1]%float = dimension (pair_tree false) ∧
  (∃ node, particleMap t' = <[3 := node]> (particleMap (pair_tree false))) ∧
  nodeCount t' = N.of_nat (2 * size (particleMap (pair_tree false)) + 1).
Proof.
  intros t'.
  assert (wf (pair_tree false)) as Hwf
    by (apply (wf_check_sound _ (Some pair_shape) [3]); vm_compute; reflexivity).
  assert (insertParticle false 5 3 [4; 0]%float [5; 1]%float (pair_tree false)
          = Ret tt t') as Hrun by (vm_compute; reflexivity).
  split; [exact Hwf|]. split; [exact Hrun|].
  exact (insertParticle_keeps_wf false 5 (pair_tree false) t' 3
           [4; 0]%float [5; 1]%float Hwf Hrun).
Defined.

(** X15.  [insertParticle] refuses an identifier that is in the map, and a
    bound vector whose length is not the dimension of the tree, before it
    changes anything: the call throws [std::invalid_argument] and the tree is
    the tree it found. *)
Theorem insertParticle_rejects (NDEBUG : bool) (fuel : nat) (t : Tree)
    (particle_ : N) (lowerBound_ upperBound_ : list double) :
  is_Some (particleMap t !! particle_) ∨
  vsize lowerBound_ ≠ dimension t ∨ vsize upperBound_ ≠ dimension t →
  insertParticle NDEBUG fuel particle_ lowerBound_ upperBound_ t
  = Throw (invalid_argument
             (if bool_decide (is_Some (particleMap t !! particle_))
              then "[ERROR]: Particle already exists in tree!"
              else "[ERROR]: Dimensionality mismatch!")) t.
Proof.
  intros H. unfold insertParticle, mbind, M_bind, bindM, gets.
  destruct (bool_decide_reflect (is_Some (particleMap t !! particle_)))
    as [|Hnew]; [done|].
  destruct H as [?|H]; [done|].
  destruct (N.eqb_spec (vsize lowerBound_) (dimension t)); [|done].
  destruct (N.eqb_spec (vsize upperBound_) (dimension t)); [|done].
  by destruct H.
Qed.

Lemma insertParticle_rejects_witness :
  (is_Some (particleMap (pair_tree true) !! 1) ∨
   vsize [0; 0]%float ≠ dimension (pair_tree true) ∨
   vsize [1; 1]%float ≠ dimension (pair_tree true)) ∧
  insertParticle true 5 1 [0; 0]%float [1; 1]%float (pair_tree true)
  = Throw (invalid_argument
             (if bool_decide (is_Some (particleMap (pair_tree true) !! 1))
              then "[ERROR]: Particle already exists in tree!"
              else "[ERROR]: Dimensionality mismatch!")) (pair_tree true).
Proof.
  assert (is_Some (particleMap (pair_tree true) !! 1)) as Hdup
    by (apply (bool_decide_unpack _); vm_compute; reflexivity).
  split; [by left|].
  apply (insertParticle_rejects true 5 (pair_tree true) 1). by left.
Defined.

(** X16.  [removeParticle] on a well-formed tree: whenever the call returns,
    the particle was in the map; the tree is again well formed, the map has
    lost this entry and no other, and the tree has two nodes fewer (none is
    left after the last particle). *)
Theorem removeParticle_keeps_wf (NDEBUG : bool) (fuel : nat) (t t' : Tree)
    (particle_ : N) :
  wf t →
  removeParticle NDEBUG fuel particle_ t = Ret tt t' →
  wf t' ∧ is_Some (particleMap t !! particle_) ∧
  particleMap t' = delete particle_ (particleMap t) ∧
  nodeCount t' = N.of_nat (2 * (size (particleMap t) - 1) - 1).
Proof.
  intros Hwf H.
  destruct (removeParticle_spec _ _ _ _ _ Hwf H) as (Hwf' & [node Hin] & Hmap).
  split_and!; try done.
  destruct (wf_counts t' Hwf') as (_ & _ & _ & _ & ->).
  rewrite Hmap. erewrite map_size_delete_Some by done. f_equal. lia.
Qed.

Lemma removeParticle_keeps_wf_witness :
  let t' := tree_of (removeParticle false 5 1 (pair_tree false)) in
  wf (pair_tree false) ∧
  removeParticle false 5 1 (pair_tree false) = Ret tt t' ∧
  wf t' ∧ is_Some (particleMap (pair_tree false) !! 1) ∧
  particleMap t' = delete 1 (particleMap (pair_tree false)) ∧
  nodeCount t' = N.of_nat (2 * (size (particleMap (pair_tree false)) - 1) - 1).
Proof.
  intros t'.
  assert (wf (pair_tree false)) as Hwf
    by (apply (wf_check_sound _ (Some pair_shape) [3]); vm_compute; reflexivity).
  assert (removeParticle false 5 1 (pair_tree false) = Ret tt t') as Hrun
    by (vm_compute; reflexivity).
  split; [exact Hwf|]. split; [exact Hrun|].
  exact (removeParticle_keeps_wf false 5 (pair_tree false) t' 1 Hwf Hrun).
Defined.

(** X17.  An identifier that is not in the map is refused by
    [removeParticle], by [query(particle)] and by [updateParticle]: each of
    them throws [std::invalid_argument] and leaves the tree as it found it. *)
Theorem unknown_particle_throws (NDEBUG : bool) (fuel : nat) (t : Tree)
    (particle_ : N) (lowerBound_ upperBound_ : list double)
    (alwaysReinsert : bool) :
  particleMap t !! particle_ = None →
  removeParticle NDEBUG fuel particle_ t
  = Throw (invalid_argument "[ERROR]: Invalid particle index!") t ∧
  query_particle NDEBUG fuel particle_ t
  = Throw (invalid_argument "[ERROR]: Invalid particle index!") t ∧
  ∃ what,
    updateParticle NDEBUG fuel particle_ lowerBound_ upperBound_
      alwaysReinsert t
    = Throw (invalid_argument what) t.
Proof.
  intros Hnew. split_and!.
  - unfold removeParticle, mbind, M_bind, bindM, gets. by rewrite Hnew.
  - unfold query_particle, mbind, M_bind, bindM, gets. by rewrite Hnew.
  - unfold updateParticle, mbind, M_bind, bindM, gets.
    destruct (negb _ && negb _); [by eexists|]. rewrite Hnew. by eexists.
Qed.

Lemma unknown_particle_throws_witness :
  particleMap (pair_tree true) !! 9 = None ∧
  removeParticle true 5 9 (pair_tree true)
  = Throw (invalid_argument "[ERROR]: Invalid particle index!")
      (pair_tree true) ∧
  query_particle true 5 9 (pair_tree true)
  = Throw (invalid_argument "[ERROR]: Invalid particle index!")
      (pair_tree true) ∧
  ∃ what,
    updateParticle true 5 9 [0; 0]%float [1; 1]%float false (pair_tree true)
    = Throw (invalid_argument what) (pair_tree true).
Proof.
  split; [vm_compute; reflexivity|].
  apply (unknown_particle_throws true 5 (pair_tree true) 9).
  vm_compute. reflexivity.
Defined.

(** X18.  [removeAll] on a well-formed tree, in whatever order the map is
    traversed: whenever the call returns, the tree is well formed and empty,
    with no root, no live node and every node of the pool on the free list. *)
Theorem removeAll_empties (NDEBUG : bool) (fuel : nat) (t t' : Tree)
    (order : list (N * N)) :
  wf t →
  order ≡ₚ map_to_list (particleMap t) →
  removeAll NDEBUG fuel order t = Ret tt t' →
  wf t' ∧ particleMap t' = ∅ ∧ root t' = NULL_NODE ∧ nodeCount t' = 0 ∧
  ∃ fl, chain (nodes t') (freeList t') fl ∧
        N.of_nat (length fl) = nodeCapacity t'.
Proof.
  intros Hwf Horder H.
  destruct (removeAll_spec _ _ _ _ _ Hwf Horder H) as (Hwf' & ? & ? & Hnc).
  split_and!; try done.
  destruct (wf_counts t' Hwf') as (fl & Hc & _ & Hsum & _).
  exists fl. split; [done|]. lia.
Qed.

Lemma removeAll_empties_witness :
  let order := map_to_list (particleMap (pair_tree false)) in
  let t' := tree_of (removeAll false 5 order (pair_tree false)) in
  wf (pair_tree false) ∧
  order ≡ₚ map_to_list (particleMap (pair_tree false)) ∧
  removeAll false 5 order (pair_tree false) = Ret tt t' ∧
  wf t' ∧ particleMap t' = ∅ ∧ root t' = NULL_NODE ∧ nodeCount t' = 0 ∧
  ∃ fl, chain (nodes t') (freeList t') fl ∧
        N.of_nat (length fl) = nodeCapacity t'.
Proof.
  intros order t'.
  assert (wf (pair_tree false)) as Hwf
    by (apply (wf_check_sound _ (Some pair_shape) [3]); vm_compute; reflexivity).
  assert (removeAll false 5 order (pair_tree false) = Ret tt t') as Hrun
    by (vm_compute; reflexivity).
  split; [exact Hwf|]. split; [reflexivity|]. split; [exact Hrun|].
  exact (removeAll_empties false 5 (pair_tree false) t' order Hwf
           (reflexivity _) Hrun).
Defined.

(** A tree of one particle whose leaf holds a box without bounds. *)
Definition bare_leaf_tree : Tree :=
  {| root := 0; nodes := [node_of NULL_NODE NULL_NODE NULL_NODE 0];
     nodeCount := 1; nodeCapacity := 1; freeList := NULL_NODE; dimension := 2;
     skinThickness := 0%float; particleMap := {[ 7 := 0 ]};
     touchIsOverlap := true |}.

(** X19.  [updateParticle] never reinserts a particle.  Whenever the call
    returns, it returns [false] and the tree is the tree it found; and it
    returns only when [alwaysReinsert] is [false] and the box stored in the
    leaf of the particle has no bounds.  (The box built from the new bounds
    never has any; with a stored box that has bounds, or with
    [alwaysReinsert], the call ends in an assertion or in a read outside a
    vector.) *)
Theorem updateParticle_never_reinserts (NDEBUG : bool) (fuel : nat)
    (t t' : Tree) (particle_ : N) (lowerBound_ upperBound_ : list double)
    (alwaysReinsert b : bool) :
  0 < dimension t →
  updateParticle NDEBUG fuel particle_ lowerBound_ upperBound_
    alwaysReinsert t = Ret b t' →
  b = false ∧ t' = t ∧ alwaysReinsert = false ∧
  ∃ node nd, particleMap t !! particle_ = Some node ∧
    nodes t !! N.to_nat node = Some nd ∧ lowerBound (aabb nd) = [].
Proof. apply updateParticle_spec. Qed.

Lemma updateParticle_never_reinserts_witness :
  0 < dimension bare_leaf_tree ∧
  updateParticle true 5 7 [0; 0]%float [1; 1]%float false bare_leaf_tree
  = Ret false bare_leaf_tree ∧
  false = false ∧ bare_leaf_tree = bare_leaf_tree ∧ false = false ∧
  ∃ node nd, particleMap bare_leaf_tree !! 7 = Some node ∧
    nodes bare_leaf_tree !! N.to_nat node = Some nd ∧
    lowerBound (aabb nd) = [].
Proof.
  assert (updateParticle true 5 7 [0; 0]%float [1; 1]%float false bare_leaf_tree
          = Ret false bare_leaf_tree) as Hrun by (vm_compute; reflexivity).
  split; [reflexivity|]. split; [exact Hrun|].
  apply (updateParticle_never_reinserts true 5 bare_leaf_tree bare_leaf_tree 7
           [0; 0]%float [1; 1]%float false false); [reflexivity|exact Hrun].
Defined.

(** X20.  [rebuild] on a well-formed tree: whenever the call returns, the
    tree held a particle, and the tree that is built bottom-up from the
    leaves is well formed, with the same particles on the same leaves and the
    same number of nodes. *)
Theorem rebuild_keeps_particles (NDEBUG : bool) (fuel : nat) (t t' : Tree) :
  wf t →
  rebuild NDEBUG fuel t = Ret tt t' →
  wf t' ∧ particleMap t' = particleMap t ∧ nodeCount t' = nodeCount t ∧
  particleMap t ≠ ∅.
Proof. apply rebuild_spec. Qed.

Lemma rebuild_keeps_particles_witness :
  let t' := tree_of (rebuild false 5 (pair_tree false)) in
  wf (pair_tree false) ∧
  rebuild false 5 (pair_tree false) = Ret tt t' ∧
  wf t' ∧ particleMap t' = particleMap (pair_tree false) ∧
  nodeCount t' = nodeCount (pair_tree false) ∧
  particleMap (pair_tree false) ≠ ∅.
Proof.
  intros t'.
  assert (wf (pair_tree false)) as Hwf
    by (apply (wf_check_sound _ (Some pair_shape) [3]); vm_compute; reflexivity).
  assert (rebuild false 5 (pair_tree false) = Ret tt t') as Hrun
    by (vm_compute; reflexivity).
  split; [exact Hwf|]. split; [exact Hrun|].
  exact (rebuild_keeps_particles false 5 (pair_tree false) t' Hwf Hrun).
Defined.

(** X21.  Inserting a particle and removing it again gives back the particle
    map and the number of nodes there were. *)
Theorem insert_then_remove (NDEBUG : bool) (fuel fuel' : nat) (t t1 t2 : Tree)
    (particle_ : N) (lowerBound_ upperBound_ : list double) :
  wf t →
  insertParticle NDEBUG fuel particle_ lowerBound_ upperBound_ t = Ret tt t1 →
  removeParticle NDEBUG fuel' particle_ t1 = Ret tt t2 →
  wf t2 ∧ particleMap t2 = particleMap t ∧ nodeCount t2 = nodeCount t.
Proof.
  intros Hwf H1 H2.
  destruct (insertParticle_spec _ _ _ _ _ _ _ Hwf H1) as (Hwf1 & Hnew & node & Hm1).
  destruct (removeParticle_spec _ _ _ _ _ Hwf1 H2) as (Hwf2 & _ & Hm2).
  assert (particleMap t2 = particleMap t) as Hmap
    by (by rewrite Hm2, Hm1, delete_insert_id).
  split_and!; try done.
  destruct (wf_counts t Hwf) as (_ & _ & _ & _ & ->).
  destruct (wf_counts t2 Hwf2) as (_ & _ & _ & _ & ->).
  by rewrite Hmap.
Qed.

Lemma insert_then_remove_witness :
  let t1 := tree_of (insertParticle false 5 3 [4; 0]%float [5; 1]%float
                       (pair_tree false)) in
  let t2 := tree_of (removeParticle false 5 3 t1) in
  wf (pair_tree false) ∧
  insertParticle false 5 3 [4; 0]%float [5; 1]%float (pair_tree false)
  = Ret tt t1 ∧
  removeParticle false 5 3 t1 = Ret tt t2 ∧
  wf t2 ∧ particleMap t2 = particleMap (pair_tree false) ∧
  nodeCount t2 = nodeCount (pair_tree false).
Proof.
  intros t1 t2.
  assert (wf (pair_tree false)) as Hwf
    by (apply (wf_check_sound _ (Some pair_shape) [3]); vm_compute; reflexivity).
  assert (insertParticle false 5 3 [4; 0]%float [5; 1]%float (pair_tree false)
          = Ret tt t1) as Hrun1 by (vm_compute; reflexivity).
  assert (removeParticle false 5 3 t1 = Ret tt t2) as Hrun2
    by (vm_compute; reflexivity).
  split; [exact Hwf|]. split; [exact Hrun1|]. split; [exact Hrun2|].
  exact (insert_then_remove false 5 5 (pair_tree false) t1 t2 3
           [4; 0]%float [5; 1]%float Hwf Hrun1 Hrun2).
Defined.

(** X22.  The three queries do not change the tree. *)
Theorem queries_leave_tree (NDEBUG : bool) (fuel : nat) (t t' : Tree)
    (particle_ : N) (aabb_ : AABB) (particles : list N) :
  query_particle NDEBUG fuel particle_ t = Ret particles t' ∨
  query_particle_aabb NDEBUG fuel particle_ aabb_ t = Ret particles t' ∨
  query_aabb NDEBUG fuel aabb_ t = Ret particles t' →
  t' = t.
Proof.
  intros [H|[H|H]].
  - by eapply query_particle_readonly.
  - by eapply query_particle_aabb_readonly.
  - by eapply query_aabb_readonly.
Qed.

Lemma queries_leave_tree_witness :
  (query_particle false 9 1 (pair_tree false) = Ret [2; 1] (pair_tree false) ∨
   query_particle_aabb false 9 1 middle_box (pair_tree false)
   = Ret [2; 1] (pair_tree false) ∨
   query_aabb false 9 middle_box (pair_tree false)
   = Ret [2; 1] (pair_tree false)) ∧
  pair_tree false = pair_tree false.
Proof.
  assert (query_aabb false 9 middle_box (pair_tree false)
          = Ret [2; 1] (pair_tree false)) as Hrun by (vm_compute; reflexivity).
  split; [by right; right|].
  apply (queries_leave_tree false 9 (pair_tree false) (pair_tree false) 1
           middle_box [2; 1]). by right; right.
Defined.

(** X23.  [query(particle, aabb)] reports only what it should: every
    identifier it returns is the particle of a leaf of the pool whose box
    overlaps [aabb] (touching counts when the tree says so), and it is never
    [particle] itself. *)
Theorem query_reports_overlapping_leaves (NDEBUG : bool) (fuel : nat)
    (t t' : Tree) (particle_ : N) (aabb_ : AABB) (found : list N) (q : N) :
  query_particle_aabb NDEBUG fuel particle_ aabb_ t = Ret found t' →
  q ∈ found →
  q ≠ particle_ ∧
  ∃ node nd, nodes t !! N.to_nat node = Some nd ∧ isLeaf nd = true ∧
    particle nd = q ∧
    overlaps NDEBUG aabb_ (aabb nd) (touchIsOverlap t) = Good true.
Proof.
  intros H Hq. unfold query_particle_aabb in H.
  apply bind_Ret in H as (r & t1 & [-> ->]%gets_Ret & H).
  destruct (queryLoop_sound NDEBUG particle_ aabb_ fuel [root t] [] t t' found H)
    with (q := q) as (node & nd & Hnd & Hleaf & Hp & Hne & Hov); [|done|].
  { intros q' Hq'. by apply elem_of_nil in Hq'. }
  split; [done|]. by exists node, nd.
Qed.

Lemma query_reports_overlapping_leaves_witness :
  query_particle_aabb false 9 1 middle_box (pair_tree false)
  = Ret [2] (pair_tree false) ∧
  2 ∈ [2] ∧
  2 ≠ 1 ∧
  ∃ node nd, nodes (pair_tree false) !! N.to_nat node = Some nd ∧
    isLeaf nd = true ∧ particle nd = 2 ∧
    overlaps false middle_box (aabb nd) (touchIsOverlap (pair_tree false))
    = Good true.
Proof.
  assert (query_particle_aabb false 9 1 middle_box (pair_tree false)
          = Ret [2] (pair_tree false)) as Hrun by (vm_compute; reflexivity).
  assert (2 ∈ [2]) as Hin by (apply list_elem_of_here).
  split; [exact Hrun|]. split; [exact Hin|].
  exact (query_reports_overlapping_leaves false 9 (pair_tree false)
           (pair_tree false) 1 middle_box [2] 2 Hrun Hin).
Defined.

(** ** Sequences of operations *)

(** The trees that a client reaches: a tree that the constructor returns,
    and every tree that a public member function returns normally on such a
    tree.  [removeAll] may traverse the map in any order; [getAABB] is
    called with a particle of the tree (for another one it adds an entry to
    the map); a call that throws or fails ends the sequence. *)
Inductive reachable (NDEBUG : bool) : Tree → Prop :=
| reach_new dimension_ skinThickness_ nParticles touchIsOverlap_ t :
    nParticles ≤ UINT_MAX →
    Tree_new dimension_ skinThickness_ nParticles touchIsOverlap_ = Ret tt t →
    reachable NDEBUG t
| reach_insertParticle fuel particle_ lowerBound_ upperBound_ t t' :
    reachable NDEBUG t →
    insertParticle NDEBUG fuel particle_ lowerBound_ upperBound_ t = Ret tt t' →
    reachable NDEBUG t'
| reach_removeParticle fuel particle_ t t' :
    reachable NDEBUG t →
    removeParticle NDEBUG fuel particle_ t = Ret tt t' →
    reachable NDEBUG t'
| reach_removeAll fuel order t t' :
    reachable NDEBUG t →
    order ≡ₚ map_to_list (particleMap t) →
    removeAll NDEBUG fuel order t = Ret tt t' →
    reachable NDEBUG t'
| reach_updateParticle fuel particle_ lowerBound_ upperBound_ alwaysReinsert
    b t t' :
    reachable NDEBUG t →
    updateParticle NDEBUG fuel particle_ lowerBound_ upperBound_
      alwaysReinsert t = Ret b t' →
    reachable NDEBUG t'
| reach_rebuild fuel t t' :
    reachable NDEBUG t →
    rebuild NDEBUG fuel t = Ret tt t' →
    reachable NDEBUG t'
| reach_query_particle fuel particle_ particles t t' :
    reachable NDEBUG t →
    query_particle NDEBUG fuel particle_ t = Ret particles t' →
    reachable NDEBUG t'
| reach_query_particle_aabb fuel particle_ aabb_ particles t t' :
    reachable NDEBUG t →
    query_particle_aabb NDEBUG fuel particle_ aabb_ t = Ret particles t' →
    reachable NDEBUG t'
| reach_query_aabb fuel aabb_ particles t t' :
    reachable NDEBUG t →
    query_aabb NDEBUG fuel aabb_ t = Ret particles t' →
    reachable NDEBUG t'
| reach_getAABB particle_ box t t' :
    reachable NDEBUG t →
    is_Some (particleMap t !! particle_) →
    getAABB particle_ t = Ret box t' →
    reachable NDEBUG t'
| reach_validate fuel t t' :
    reachable NDEBUG t →
    validate NDEBUG fuel t = Ret tt t' →
    reachable NDEBUG t'.

(** Every operation of a client keeps the tree well formed. *)
Lemma reachable_keeps_wf (NDEBUG : bool) (t : Tree) :
  reachable NDEBUG t → wf t.
Proof.
  induction 1 as
    [d s n touch t Hmax H
    |fuel p lo up t t' _ IH H
    |fuel p t t' _ IH H
    |fuel order t t' _ IH Horder H
    |fuel p lo up re b t t' _ IH H
    |fuel t t' _ IH H
    |fuel p ps t t' _ IH H
    |fuel p box ps t t' _ IH H
    |fuel box ps t t' _ IH H
    |p box t t' _ IH [node Hin] H
    |fuel t t' _ IH H].
  - by apply Tree_new_spec in H as [? _].
  - by apply (insertParticle_spec _ _ _ _ _ _ _ IH) in H as [? _].
  - by apply (removeParticle_spec _ _ _ _ _ IH) in H as [? _].
  - by apply (removeAll_spec _ _ _ _ _ IH Horder) in H as [? _].
  - destruct IH as (o & fl & Hp & Ht & Hm & Hd).
    apply updateParticle_spec in H as (_ & -> & _); [|done]. by exists o, fl.
  - by apply (rebuild_spec _ _ _ _ IH) in H as [? _].
  - by apply query_particle_readonly in H as ->.
  - by apply query_particle_aabb_readonly in H as ->.
  - by apply query_aabb_readonly in H as ->.
  - unfold getAABB in H.
    apply bind_Ret in H as (pm & t1 & [-> ->]%gets_Ret & H). rewrite Hin in H.
    apply bind_Ret in H as (n & t1 & [-> ->]%mret_Ret & H).
    by apply rd_Ret in H as (nd & _ & _ & ->).
  - by apply validate_readonly in H as ->.
Qed.

(** X24.  Every tree that a client reaches is well formed: the live nodes
    and the free list partition the pool, the free list is a chain without a
    cycle, the nodes reachable from the root are linked consistently both
    ways, and the leaves of the tree are the values of the particle map, each
    once. *)
Theorem reachable_wf (NDEBUG : bool) (t : Tree) : reachable NDEBUG t → wf t.
Proof. apply reachable_keeps_wf. Qed.

(** The tree after [Tree tree(2, 0.0, 4)], two insertions and a removal. *)
Definition session_tree : Tree :=
  tree_of (removeParticle false 5 1 (pair_tree false)).

Lemma reachable_wf_witness :
  reachable false session_tree ∧ wf session_tree.
Proof.
  assert (reachable false session_tree) as Hreach.
  { apply (reach_removeParticle false 5 1 (pair_tree false));
      [|vm_compute; reflexivity].
    apply (reach_insertParticle false 1 2 [2; 0]%float [3; 1]%float
             (tree_of (insertParticle false 1 1 [0; 0]%float [1; 1]%float
                         (empty_tree 0%float))));
      [|vm_compute; reflexivity].
    apply (reach_insertParticle false 1 1 [0; 0]%float [1; 1]%float
             (empty_tree 0%float));
      [|vm_compute; reflexivity].
    apply (reach_new false 2 0%float 4 true);
      [vm_compute; discriminate|vm_compute; reflexivity]. }
  split; [exact Hreach|].
  exact (reachable_wf false session_tree Hreach).
Defined.



(** X26.  [insertParticle] into an empty well-formed tree returns, for every
    identifier and every pair of bound vectors that have the dimension of the
    tree and no lower bound above its upper bound (such a comparison is false
    when a bound is NaN): the tree it leaves is well formed and holds this
    particle alone, on its root. *)
Theorem first_insertParticle_returns (NDEBUG : bool) (fuel : nat) (t : Tree)
    (particle_ : N) (lowerBound_ upperBound_ : list double) :
  wf t → particleMap t = ∅ →
  2 ≤ dimension t → 0 < nodeCapacity t →
  vsize lowerBound_ = dimension t → vsize upperBound_ = dimension t →
  (∀ i l u, lowerBound_ !! i = Some l → upperBound_ !! i = Some u →
            dgt l u = false) →
  ∃ t' node,
    insertParticle NDEBUG fuel particle_ lowerBound_ upperBound_ t = Ret tt t' ∧
    wf t' ∧ particleMap t' = {[ particle_ := node ]} ∧ nodeCount t' = 1.
Proof.
  intros Hwf Hempty Hd Hpos Hlo Hup Hle.
  pose proof Hwf as (o & fl & Hp & Ht & Hmap & _).
  rewrite Hempty, map_to_list_empty in Hmap.
  destruct o as [s|].
  { apply Permutation_nil in Hmap. by apply leaves_not_nil in Hmap. }
  destruct (insertParticle_first_runs NDEBUG fuel t fl particle_
              lowerBound_ upperBound_) as [t' H]; try done.
  { by rewrite Hempty. }
  destruct (insertParticle_spec _ _ _ _ _ _ _ Hwf H) as (Hwf' & _ & node & Hm).
  exists t', node. rewrite Hempty in Hm. split_and!; try done.
  destruct (wf_counts t' Hwf') as (_ & _ & _ & _ & ->).
  rewrite Hm, map_size_insert_None, map_size_empty by done. reflexivity.
Qed.

Lemma first_insertParticle_returns_witness :
  wf (empty_tree 0.05%float) ∧ particleMap (empty_tree 0.05%float) = ∅ ∧
  2 ≤ dimension (empty_tree 0.05%float) ∧
  0 < nodeCapacity (empty_tree 0.05%float) ∧
  vsize [0; 0]%float = dimension (empty_tree 0.05%float) ∧
  vsize [1; 1]%float = dimension (empty_tree 0.05%float) ∧
  (∀ i l u, [0; 0]%float !! i = Some l → [1; 1]%float !! i = Some u →
            dgt l u = false) ∧
  ∃ t' node,
    insertParticle false 0 5 [0; 0]%float [1; 1]%float (empty_tree 0.05%float)
    = Ret tt t' ∧
    wf t' ∧ particleMap t' = {[ 5 := node ]} ∧ nodeCount t' = 1.
Proof.
  assert (wf (empty_tree 0.05%float)) as Hwf
    by (apply (wf_check_sound _ None [0; 1; 2; 3]); vm_compute; reflexivity).
  assert (∀ (i : nat) l u, [0; 0]%float !! i = Some l →
            [1; 1]%float !! i = Some u → dgt l u = false) as Hle.
  { intros [|[|i]] l u; simpl; intros [= <-] [= <-]; reflexivity. }
  split; [exact Hwf|]. split; [reflexivity|].
  split; [vm_compute; discriminate|]. split; [reflexivity|].
  split; [reflexivity|]. split; [reflexivity|]. split; [exact Hle|].
  apply (first_insertParticle_returns false 0 (empty_tree 0.05%float) 5
           [0; 0]%float [1; 1]%float);
    [exact Hwf|reflexivity|vm_compute; discriminate|reflexivity|reflexivity
    |reflexivity|exact Hle].
Defined.

(** X27.  [removeParticle] of the only particle of a well-formed tree
    returns, and the tree it leaves is well formed and empty. *)
Theorem last_removeParticle_returns (NDEBUG : bool) (fuel : nat) (t : Tree)
    (particle_ node : N) :
  wf t → particleMap t = {[ particle_ := node ]} →
  ∃ t', removeParticle NDEBUG fuel particle_ t = Ret tt t' ∧
    wf t' ∧ particleMap t' = ∅ ∧ nodeCount t' = 0.
Proof.
  intros Hwf Hone.
  pose proof Hwf as (o & fl & Hp & Ht & Hmap & _).
  rewrite Hone, map_to_list_singleton in Hmap. simpl in Hmap.
  apply Permutation_singleton_l in Hmap.
  destruct o as [[i|i l r]|]; simpl in Hmap; try done.
  2:{ pose proof (leaves_not_nil l). pose proof (leaves_not_nil r).
      apply (f_equal length) in Hmap. rewrite length_app in Hmap.
      destruct (leaves l), (leaves r); simpl in *; try done; lia. }
  assert (i = node) as -> by congruence. destruct Ht as [Hroot Hrep]. simpl in *.
  destruct (removeParticle_last_runs NDEBUG fuel t fl particle_ node)
    as [t' H]; try done.
  { by rewrite Hone, lookup_singleton_eq. }
  destruct (removeParticle_spec _ _ _ _ _ Hwf H) as (Hwf' & _ & Hm).
  exists t'. rewrite Hone, delete_singleton_eq in Hm. split_and!; try done.
  destruct (wf_counts t' Hwf') as (_ & _ & _ & _ & ->).
  by rewrite Hm, map_size_empty.
Qed.

Lemma last_removeParticle_returns_witness :
  wf one_slot_tree ∧ particleMap one_slot_tree = {[ 7 := 0 ]} ∧
  ∃ t', removeParticle false 3 7 one_slot_tree = Ret tt t' ∧
    wf t' ∧ particleMap t' = ∅ ∧ nodeCount t' = 0.
Proof.
  assert (wf one_slot_tree) as Hwf
    by (apply (wf_check_sound _ (Some (Lf 0)) []); vm_compute; reflexivity).
  split; [exact Hwf|]. split; [reflexivity|].
  apply (last_removeParticle_returns false 3 one_slot_tree 7 0);
    [exact Hwf|reflexivity].
Defined.

(** X28.  A full pool of 2147483648 nodes or more cannot grow: when
    [allocateNode] returns on a full pool, twice its capacity fitted in an
    [unsigned int].  (Beyond that the doubled capacity wraps around and the
    call writes outside the vector.) *)
Theorem allocateNode_capacity_limit (NDEBUG : bool) (t t' : Tree)
    (live : list N) (node : N) :
  pool t live [] →
  allocateNode NDEBUG t = Ret node t' →
  0 < nodeCapacity t ∧ 2 * nodeCapacity t ≤ UINT_MAX ∧
  nodeCapacity t' = 2 * nodeCapacity t ∧ node = nodeCapacity t.
Proof.
  intros Hp H.
  destruct (allocateNode_node _ _ _ _ _ _ Hp H) as [-> Hcap].
  destruct (allocateNode_spec _ _ _ _ _ _ Hp H) as (fl' & Hp' & _).
  pose proof (pool_cap _ _ _ Hp'). 
  pose proof (pool_bound _ _ _ Hp' _ (list_elem_of_here _ _)).
  split_and!; try done; lia.
Qed.

Lemma allocateNode_capacity_limit_witness :
  let t' := tree_of (allocateNode false one_slot_tree) in
  pool one_slot_tree [0] [] ∧
  allocateNode false one_slot_tree = Ret 1 t' ∧
  0 < nodeCapacity one_slot_tree ∧ 2 * nodeCapacity one_slot_tree ≤ UINT_MAX ∧
  nodeCapacity t' = 2 * nodeCapacity one_slot_tree ∧
  1 = nodeCapacity one_slot_tree.
Proof.
  intros t'.
  assert (pool one_slot_tree [0] []) as Hp
    by (apply pool_check_sound; vm_compute; reflexivity).
  assert (allocateNode false one_slot_tree = Ret 1 t') as Hrun
    by (vm_compute; reflexivity).
  split; [exact Hp|]. split; [exact Hrun|].
  exact (allocateNode_capacity_limit false one_slot_tree t' [0] 1 Hp Hrun).
Defined.

(** ** Inspecting a tree *)

(** X29.  On a well-formed tree [getAABB] of a particle of the map returns
    the box stored in the leaf that the map names, [getHeight] returns, and
    neither changes the tree. *)
Theorem inspectors_return (t : Tree) (particle_ node : N) :
  wf t → particleMap t !! particle_ = Some node →
  ∃ nd, nodes t !! N.to_nat node = Some nd ∧ isLeaf nd = true ∧
    getAABB particle_ t = Ret (aabb nd) t ∧
    ∃ h, getHeight t = Ret h t.
Proof.
  intros Hwf Hin.
  destruct (wf_particle_leaf t particle_ node Hwf Hin) as (_ & nd & Hnd & Hleaf).
  exists nd. split_and!; try done.
  - by apply getAABB_known with node.
  - by apply getHeight_wf.
Qed.

Lemma inspectors_return_witness :
  wf (pair_tree false) ∧ particleMap (pair_tree false) !! 2 = Some 1 ∧
  ∃ nd, nodes (pair_tree false) !! N.to_nat 1 = Some nd ∧ isLeaf nd = true ∧
    getAABB 2 (pair_tree false) = Ret (aabb nd) (pair_tree false) ∧
    ∃ h, getHeight (pair_tree false) = Ret h (pair_tree false).
Proof.
  assert (wf (pair_tree false)) as Hwf
    by (apply (wf_check_sound _ (Some pair_shape) [3]); vm_compute; reflexivity).
  assert (particleMap (pair_tree false) !! 2 = Some 1) as Hin
    by (vm_compute; reflexivity).
  split; [exact Hwf|]. split; [exact Hin|].
  exact (inspectors_return (pair_tree false) 2 1 Hwf Hin).
Defined.

Lemma updateParticle_rejects_inverted_bounds_witness :
  wf (pair_tree false) ∧ particleMap (pair_tree false) !! 2 = Some 1 ∧
  vsize [1; 0]%float = dimension (pair_tree false) ∧
  vsize [0; 1]%float = dimension (pair_tree false) ∧
  [1; 0]%float !! 0%nat = Some 1%float ∧
  [0; 1]%float !! 0%nat = Some 0%float ∧
  dgt 1%float 0%float = true ∧
  updateParticle false 5 2 [1; 0]%float [0; 1]%float true (pair_tree false)
  = Throw (invalid_argument
             "[ERROR]: AABB lower bound is greater than the upper bound!")
      (pair_tree false).
Proof.
  assert (wf (pair_tree false)) as Hwf
    by (apply (wf_check_sound _ (Some pair_shape) [3]); vm_compute; reflexivity).
  assert (particleMap (pair_tree false) !! 2 = Some 1) as Hin
    by (vm_compute; reflexivity).
  split; [exact Hwf|]. split; [exact Hin|].
  split; [reflexivity|]. split; [reflexivity|]. split; [reflexivity|].
  split; [reflexivity|]. split; [reflexivity|].
  apply (updateParticle_rejects_inverted_bounds false 5 (pair_tree false) 2 1
           [1; 0]%float [0; 1]%float true 0 1%float 0%float Hwf Hin);
    reflexivity.
Defined.
